(** * Bounded producer/consumer buffers of cpp-notes

    A shallow embedding of the two [Buffer] classes of the repository:

    - [Single]: the single-condition-variable buffer of the single
      producer/consumer demo ([push], [pop], [try_pop], [size], [empty]);
    - [Multi]: the buffer of [producer-consumer/multi_producer_consumer.cpp]
      with the [not_empty_]/[not_full_] condition variables and the
      [shutdown_] flag, together with the [Producer], [Consumer] and [main]
      threads of that file ([Demo]).

    Every member function holds [mutex_] from its first statement to its
    return, except while it is parked in [wait].  A call is therefore
    modelled as one atomic attempt on the protected state: it either finds
    its wait predicate false and parks ([Blocks]), or runs its body to the
    [return] ([Returns]).  [std::queue<std::string>] is a [list string] with
    the front at the head; [size_t] lengths are [nat]. *)

From stdpp Require Import base list strings pretty.
From Stdlib Require Import ZArith Lia Wf_nat.

(** ** Condition-variable notifications and call outcomes *)

Inductive notification (cv : Type) : Type :=
| notify_one (c : cv)
| notify_all (c : cv).
Arguments notify_one {cv} c.
Arguments notify_all {cv} c.

(** What one attempt at a member function does while it owns the mutex. *)
Inductive outcome (cv St A : Type) : Type :=
| Blocks (c : cv)
    (* wait predicate false: the caller parks on [c], state untouched *)
| Returns (s : St) (r : A) (sig : list (notification cv)).
    (* body ran: new state, returned value, notifications issued *)
Arguments Blocks {cv St A} c.
Arguments Returns {cv St A} s r sig.

(** [std::string::empty]. *)
Definition str_empty (s : string) : bool :=
  match s with
  | EmptyString => true
  | String _ _ => false
  end.

(** ** The single-signal buffer *)

Module Single.

Inductive cond : Type := condition_.

Record Buffer : Type := mkBuffer { data_ : list string }.

Definition MAX_SIZE : nat := 10.

(** A default-constructed buffer. *)
Definition initial : Buffer := {| data_ := [] |}.

Definition size (b : Buffer) : nat := length (data_ b).

Definition empty (b : Buffer) : bool :=
  match data_ b with
  | [] => true
  | _ :: _ => false
  end.

(** [push]: wait for [data_.size() < MAX_SIZE], append, [notify_one]. *)
Definition push (item : string) (b : Buffer) : outcome cond Buffer unit :=
  if size b <? MAX_SIZE
  then Returns {| data_ := data_ b ++ [item] |} tt [notify_one condition_]
  else Blocks condition_.

(** [pop]: wait for [!data_.empty()]; the body tests [!data_.empty()]
    again and ends with a [return false].  The out-parameter [item] is
    threaded through: it is returned unchanged when nothing is read. *)
Definition pop (item : string) (b : Buffer)
  : outcome cond Buffer (bool * string) :=
  if negb (empty b)
  then match data_ b with
       | front :: rest =>
           Returns {| data_ := rest |} (true, front) [notify_one condition_]
       | [] => Returns b (false, item) []
       end
  else Blocks condition_.

(** [try_pop]: a [lock_guard] and no [wait]; it always returns. *)
Definition try_pop (item : string) (b : Buffer)
  : Buffer * (bool * string) * list (notification cond) :=
  match data_ b with
  | front :: rest =>
      ({| data_ := rest |}, (true, front), [notify_one condition_])
  | [] => (b, (false, item), [])
  end.

(** The public interface, as calls a client thread can make. *)
Inductive call : Type :=
| Push (item : string)
| Pop (item : string)
| TryPop (item : string)
| Size
| Empty.

Inductive reply : Type :=
| RVoid
| RItem (ok : bool) (item : string)
| RSize (n : nat)
| REmpty (e : bool).

(** One attempt at a call: [None] when it parks in [wait]. *)
Definition attempt (c : call) (b : Buffer) : option (Buffer * reply) :=
  match c with
  | Push item =>
      match push item b with
      | Returns b' _ _ => Some (b', RVoid)
      | Blocks _ => None
      end
  | Pop item =>
      match pop item b with
      | Returns b' (ok, it) _ => Some (b', RItem ok it)
      | Blocks _ => None
      end
  | TryPop item =>
      let '(b', (ok, it), _) := try_pop item b in Some (b', RItem ok it)
  | Size => Some (b, RSize (size b))
  | Empty => Some (b, REmpty (empty b))
  end.

(** States the buffer can be in: the fresh buffer, and whatever a
    completed call leaves behind. *)
Inductive reachable : Buffer -> Prop :=
| reach_initial : reachable initial
| reach_call c b b' r :
    reachable b -> attempt c b = Some (b', r) -> reachable b'.

End Single.

(** ** The dual-signal buffer with a shutdown flag *)

Module Multi.

Inductive cond : Type := not_empty_ | not_full_.

Record Buffer : Type := mkBuffer {
  data_ : list string;
  shutdown_ : bool
}.

Definition MAX_SIZE : nat := 10.

(** A default-constructed buffer: empty queue, [shutdown_{false}]. *)
Definition initial : Buffer := {| data_ := []; shutdown_ := false |}.

Definition size (b : Buffer) : nat := length (data_ b).

Definition empty (b : Buffer) : bool :=
  match data_ b with
  | [] => true
  | _ :: _ => false
  end.

(** [push]: wait for [data_.size() < MAX_SIZE || shutdown_]; return at once
    when shutting down; otherwise append and [not_empty_.notify_one()]. *)
Definition push (item : string) (b : Buffer) : outcome cond Buffer unit :=
  if (size b <? MAX_SIZE) || shutdown_ b
  then if shutdown_ b
       then Returns b tt []
       else Returns {| data_ := data_ b ++ [item]; shutdown_ := shutdown_ b |}
                    tt [notify_one not_empty_]
  else Blocks not_full_.

(** [pop]: wait for [!data_.empty() || shutdown_]; [return false] when empty
    and shutting down; otherwise take the front, [not_full_.notify_one()],
    [return true]; the function ends with one more [return false]. *)
Definition pop (item : string) (b : Buffer)
  : outcome cond Buffer (bool * string) :=
  if negb (empty b) || shutdown_ b
  then if empty b && shutdown_ b
       then Returns b (false, item) []
       else match data_ b with
            | front :: rest =>
                Returns {| data_ := rest; shutdown_ := shutdown_ b |}
                        (true, front) [notify_one not_full_]
            | [] => Returns b (false, item) []
            end
  else Blocks not_empty_.

(** The block of [shutdown] that holds the [lock_guard]. *)
Definition shutdown_store (b : Buffer) : Buffer :=
  {| data_ := data_ b; shutdown_ := true |}.

(** [shutdown]: store the flag under the lock, then wake every waiter of
    both condition variables.  It never waits. *)
Definition shutdown (b : Buffer) : Buffer * list (notification cond) :=
  (shutdown_store b, [notify_all not_empty_; notify_all not_full_]).

Inductive call : Type :=
| Push (item : string)
| Pop (item : string)
| Shutdown
| Size
| Empty.

Inductive reply : Type :=
| RVoid
| RItem (ok : bool) (item : string)
| RSize (n : nat)
| REmpty (e : bool).

(** One attempt at a call: [None] when it parks in [wait]. *)
Definition attempt (c : call) (b : Buffer) : option (Buffer * reply) :=
  match c with
  | Push item =>
      match push item b with
      | Returns b' _ _ => Some (b', RVoid)
      | Blocks _ => None
      end
  | Pop item =>
      match pop item b with
      | Returns b' (ok, it) _ => Some (b', RItem ok it)
      | Blocks _ => None
      end
  | Shutdown => Some (fst (shutdown b), RVoid)
  | Size => Some (b, RSize (size b))
  | Empty => Some (b, REmpty (empty b))
  end.

(** A single caller making the calls [cs] one after the other; [None] when
    one of them parks (nobody else is there to wake it). *)
Fixpoint run (cs : list call) (b : Buffer) : option (Buffer * list reply) :=
  match cs with
  | [] => Some (b, [])
  | c :: cs' =>
      match attempt c b with
      | None => None
      | Some (b', r) =>
          match run cs' b' with
          | None => None
          | Some (b'', rs) => Some (b'', r :: rs)
          end
      end
  end.

Inductive reachable : Buffer -> Prop :=
| reach_initial : reachable initial
| reach_call c b b' r :
    reachable b -> attempt c b = Some (b', r) -> reachable b'.

End Multi.

(** ** One producer and one consumer sharing a buffer

    The producer thread pushes the items of a list in order, the consumer
    thread pops as many times; the two calls interleave in any order.  A
    call that parks leaves everything as it was and is attempted again
    later.  The harness is the same for both buffers: it is given their
    [push] and [pop]. *)

Module Spsc.

Inductive thread : Type := producer | consumer.

(** The schedule "push one, pop one", once per item. *)
Fixpoint alternate (n : nat) : list thread :=
  match n with
  | O => []
  | S n' => producer :: consumer :: alternate n'
  end.

Section Harness.

Context {cv B : Type}.
Variable push : string -> B -> outcome cv B unit.
Variable pop : string -> B -> outcome cv B (bool * string).
Variable data : B -> list string.

Record state : Type := mkState {
  buffer : B;
  to_push : list string;      (* what the producer has yet to push *)
  pops_left : nat;            (* successful pops the consumer still wants *)
  popped : list string        (* what the consumer has been handed so far *)
}.

Definition start (initial : B) (items : list string) : state :=
  {| buffer := initial;
     to_push := items;
     pops_left := length items;
     popped := [] |}.

(** The next call of thread [t], if it has one and the call returns. *)
Definition move (t : thread) (s : state) : option state :=
  match t with
  | producer =>
      match to_push s with
      | [] => None
      | x :: rest =>
          match push x (buffer s) with
          | Returns b' _ _ =>
              Some {| buffer := b'; to_push := rest;
                      pops_left := pops_left s; popped := popped s |}
          | Blocks _ => None
          end
      end
  | consumer =>
      match pops_left s with
      | O => None
      | S n =>
          match pop "" (buffer s) with
          | Returns b' (true, it) _ =>
              Some {| buffer := b'; to_push := to_push s;
                      pops_left := n; popped := popped s ++ [it] |}
          | Returns b' (false, _) _ =>
              Some {| buffer := b'; to_push := to_push s;
                      pops_left := pops_left s; popped := popped s |}
          | Blocks _ => None
          end
      end
  end.

(** Run a schedule: the scheduler picks a thread; a thread that cannot move
    stays where it is. *)
Fixpoint play (sched : list thread) (s : state) : state :=
  match sched with
  | [] => s
  | t :: sched' =>
      match move t s with
      | Some s' => play sched' s'
      | None => play sched' s
      end
  end.

(** Calls still to be completed. *)
Definition weight (s : state) : nat := length (to_push s) + pops_left s.

(** What every interleaving maintains while the buffer is [open] (not shut
    down): the items handed to the consumer, then the items in the queue,
    then the items not yet pushed, are the sequence the producer was
    given. *)
Definition conserved (open : B -> Prop) (items : list string) (s : state)
  : Prop :=
  popped s ++ data (buffer s) ++ to_push s = items
  /\ length (popped s) + pops_left s = length items
  /\ open (buffer s).

(** FIFO delivery without loss or duplication, for the run of [sched] on
    [items] from the buffer [initial]:
    - the items popped so far, then the queue, then the items still to
      push, are [items];
    - the consumer has as many pops left as items it has not received;
    - every completed call lowers [weight];
    - when neither thread can move, the popped sequence is [items] and
      nothing is left in the queue or with the producer;
    - the alternating schedule ends with the popped sequence [items]. *)
Definition delivers_in_order (initial : B) (items : list string)
  (sched : list thread) : Prop :=
  let s := play sched (start initial items) in
  popped s ++ data (buffer s) ++ to_push s = items
  /\ length (popped s) + pops_left s = length items
  /\ (forall t s', move t s = Some s' -> weight s' < weight s)
  /\ (move producer s = None -> move consumer s = None ->
      popped s = items /\ data (buffer s) = [] /\ to_push s = [])
  /\ popped (play (alternate (length items)) (start initial items)) = items.

End Harness.

End Spsc.

(** ** The threads of the multi producer/consumer demo

    [main], three [Producer::produce] threads and two [Consumer::consume]
    threads, interleaved one atomic action at a time.  An action is a load
    or store of the atomic [running] flag, a [sleep_for], or a stretch of
    code executed while holding [mutex_].  A thread inside
    [condition_variable::wait] is [Parked] until a notification (or a
    spurious wake-up) makes it contend for the mutex again. *)

Module Demo.

Import Multi.

Definition cond_eqb (a b : cond) : bool :=
  match a, b with
  | not_empty_, not_empty_ | not_full_, not_full_ => true
  | _, _ => false
  end.

(** Where a thread stands inside [push] or [pop]. *)
Inductive phase : Type :=
| Trying                 (* about to lock [mutex_]: on entry or after a wake-up *)
| Parked (cv : cond).    (* blocked in [cv.wait] *)

(** Program points of [Producer::produce]. *)
Inductive ppc : Type :=
| PWhile                 (* [while (running_.load())] *)
| PPush (ph : phase)     (* [buffer_.push(data)] *)
| PSleep                 (* [sleep_for(300 + id_ * 100)] *)
| PDone.

(** [id_] and [count] are [int]s; [count] only grows by one per message and
    signed overflow is undefined in C++, so the model counts in [Z]. *)
Record Producer : Type := mkProducer {
  p_id : Z;
  p_count : Z;
  p_data : string;
  p_pc : ppc
}.

(** Program points of [Consumer::consume]. *)
Inductive cpc : Type :=
| CWhile                 (* [running_.load()] of the [while] condition *)
| CWhilePop (ph : phase) (* [buffer_.pop(data)] of the [while] condition *)
| CIf                    (* [running_.load()] of the [if] condition *)
| CIfPop (ph : phase)    (* [buffer_.pop(data)] of the [if] condition *)
| CRetry                 (* [sleep_for(50); continue] *)
| CProcess               (* [if (!data.empty()) { ... }] *)
| CDone.

Record Consumer : Type := mkConsumer {
  c_id : Z;
  c_count : Z;
  c_data : string;
  c_pc : cpc
}.

(** Program points of [main]. *)
Inductive mpc : Type :=
| MCreateProducers (i : Z)   (* the first [for], at its test, with this [i] *)
| MCreateConsumers (i : Z)   (* the second [for] *)
| MRun                       (* [sleep_for(seconds(8))] *)
| MStop                      (* [running.store(false)] *)
| MShutdown                  (* [shared_buffer.shutdown()], about to lock *)
| MNotifying (sig : list (notification cond))
                             (* in [shutdown], these calls still to make *)
| MJoinProducers (k : nat)   (* about to join [producer_threads[k]] *)
| MJoinConsumers (k : nat)   (* about to join [consumer_threads[k]] *)
| MDone.                     (* past the joins *)

Record config : Type := mkConfig {
  shared_buffer : Buffer;
  running : bool;
  producers : list Producer;   (* [producer_threads], in creation order *)
  consumers : list Consumer;   (* [consumer_threads], in creation order *)
  main_pc : mpc
}.

Definition NUM_PRODUCERS : Z := 3.
Definition NUM_CONSUMERS : Z := 2.

Definition init : config :=
  {| shared_buffer := initial;
     running := true;
     producers := [];
     consumers := [];
     main_pc := MCreateProducers 1 |}.

Definition p_at (pc : ppc) (p : Producer) : Producer :=
  {| p_id := p_id p; p_count := p_count p; p_data := p_data p; p_pc := pc |}.

Definition c_at (pc : cpc) (c : Consumer) : Consumer :=
  {| c_id := c_id c; c_count := c_count c; c_data := c_data c; c_pc := pc |}.

Definition set_buffer (b : Buffer) (c : config) : config :=
  {| shared_buffer := b; running := running c; producers := producers c;
     consumers := consumers c; main_pc := main_pc c |}.

Definition set_running (r : bool) (c : config) : config :=
  {| shared_buffer := shared_buffer c; running := r; producers := producers c;
     consumers := consumers c; main_pc := main_pc c |}.

Definition set_producers (ps : list Producer) (c : config) : config :=
  {| shared_buffer := shared_buffer c; running := running c; producers := ps;
     consumers := consumers c; main_pc := main_pc c |}.

Definition set_consumers (cs : list Consumer) (c : config) : config :=
  {| shared_buffer := shared_buffer c; running := running c;
     producers := producers c; consumers := cs; main_pc := main_pc c |}.

Definition set_main (pc : mpc) (c : config) : config :=
  {| shared_buffer := shared_buffer c; running := running c;
     producers := producers c; consumers := consumers c; main_pc := pc |}.

(** *** Condition variables *)

Definition wake_phase (cv : cond) (ph : phase) : phase :=
  match ph with
  | Parked cv' => if cond_eqb cv cv' then Trying else ph
  | Trying => Trying
  end.

Definition parked_phase (cv : cond) (ph : phase) : bool :=
  match ph with
  | Parked cv' => cond_eqb cv cv'
  | Trying => false
  end.

Definition wake_producer (cv : cond) (p : Producer) : Producer :=
  match p_pc p with
  | PPush ph => p_at (PPush (wake_phase cv ph)) p
  | _ => p
  end.

Definition wake_consumer (cv : cond) (c : Consumer) : Consumer :=
  match c_pc c with
  | CWhilePop ph => c_at (CWhilePop (wake_phase cv ph)) c
  | CIfPop ph => c_at (CIfPop (wake_phase cv ph)) c
  | _ => c
  end.

Definition parked_producer (cv : cond) (p : Producer) : bool :=
  match p_pc p with
  | PPush ph => parked_phase cv ph
  | _ => false
  end.

Definition parked_consumer (cv : cond) (c : Consumer) : bool :=
  match c_pc c with
  | CWhilePop ph | CIfPop ph => parked_phase cv ph
  | _ => false
  end.

Definition any_parked (cv : cond) (c : config) : bool :=
  existsb (parked_producer cv) (producers c)
  || existsb (parked_consumer cv) (consumers c).

Inductive tid : Type :=
| TMain
| TProducer (i : nat)
| TConsumer (j : nat).

(** [cv.notify_all()]: every thread parked on [cv] leaves the wait. *)
Definition wake_all (cv : cond) (c : config) : config :=
  set_consumers (wake_consumer cv <$> consumers c)
    (set_producers (wake_producer cv <$> producers c) c).

(** [cv.notify_one()]: nothing happens when nobody is parked on [cv];
    otherwise one parked thread, [chosen] by the implementation, leaves the
    wait.  [None] when [chosen] is not a possible choice. *)
Definition wake_one (cv : cond) (chosen : option tid) (c : config)
  : option config :=
  match chosen with
  | None => if any_parked cv c then None else Some c
  | Some TMain => None
  | Some (TProducer i) =>
      match producers c !! i with
      | Some p =>
          if parked_producer cv p
          then Some (set_producers (<[i := wake_producer cv p]> (producers c)) c)
          else None
      | None => None
      end
  | Some (TConsumer j) =>
      match consumers c !! j with
      | Some k =>
          if parked_consumer cv k
          then Some (set_consumers (<[j := wake_consumer cv k]> (consumers c)) c)
          else None
      | None => None
      end
  end.

Definition deliver (chosen : option tid) (s : notification cond) (c : config)
  : option config :=
  match s with
  | notify_one cv => wake_one cv chosen c
  | notify_all cv => Some (wake_all cv c)
  end.

Fixpoint deliver_all (chosen : option tid) (sig : list (notification cond))
  (c : config) : option config :=
  match sig with
  | [] => Some c
  | s :: sig' =>
      match deliver chosen s c with
      | Some c' => deliver_all chosen sig' c'
      | None => None
      end
  end.

(** *** Thread bodies *)

(** One action of [Producer::produce]: the thread's new state, the buffer
    it leaves and the notifications it issued; [None] when it cannot act
    (parked, or finished). *)
Definition produce_step (run : bool) (b : Buffer) (p : Producer)
  : option (Producer * Buffer * list (notification cond)) :=
  match p_pc p with
  | PWhile =>
      if run
      then Some ({| p_id := p_id p;
                    p_count := (p_count p + 1)%Z;
                    p_data := "P" +:+ pretty (p_id p) +:+ "_Msg_"
                                  +:+ pretty (p_count p);
                    p_pc := PPush Trying |}, b, [])
      else Some (p_at PDone p, b, [])
  | PPush Trying =>
      match push (p_data p) b with
      | Blocks cv => Some (p_at (PPush (Parked cv)) p, b, [])
      | Returns b' _ sig => Some (p_at PSleep p, b', sig)
      end
  | PPush (Parked _) => None
  | PSleep => Some (p_at PWhile p, b, [])
  | PDone => None
  end.

(** [buffer_.pop(data)] from inside [consume]: [yes]/[no] are the program
    points reached when it returns [true]/[false]. *)
Definition consume_pop (inpop : phase -> cpc) (yes no : cpc)
  (b : Buffer) (c : Consumer)
  : Consumer * Buffer * list (notification cond) :=
  match pop (c_data c) b with
  | Blocks cv => (c_at (inpop (Parked cv)) c, b, [])
  | Returns b' (ok, it) sig =>
      ({| c_id := c_id c; c_count := c_count c; c_data := it;
          c_pc := if ok then yes else no |}, b', sig)
  end.

(** One action of [Consumer::consume]. *)
Definition consume_step (run : bool) (b : Buffer) (c : Consumer)
  : option (Consumer * Buffer * list (notification cond)) :=
  match c_pc c with
  | CWhile =>
      Some (c_at (if run then CIf else CWhilePop Trying) c, b, [])
  | CWhilePop Trying => Some (consume_pop CWhilePop CIf CDone b c)
  | CWhilePop (Parked _) => None
  | CIf =>
      Some (c_at (if run then CIfPop Trying else CProcess) c, b, [])
  | CIfPop Trying => Some (consume_pop CIfPop CProcess CRetry b c)
  | CIfPop (Parked _) => None
  | CRetry => Some (c_at CWhile c, b, [])
  | CProcess =>
      if negb (str_empty (c_data c))
      then Some ({| c_id := c_id c; c_count := (c_count c + 1)%Z;
                    c_data := ""; c_pc := CWhile |}, b, [])
      else Some (c_at CWhile c, b, [])
  | CDone => None
  end.

Definition producer_done (p : Producer) : bool :=
  match p_pc p with PDone => true | _ => false end.

Definition consumer_done (c : Consumer) : bool :=
  match c_pc c with CDone => true | _ => false end.

(** One action of [main]; [join] can be taken only once the joined thread
    has returned. *)
Definition main_step (chosen : option tid) (c : config) : option config :=
  match main_pc c with
  | MCreateProducers i =>
      if (i <=? NUM_PRODUCERS)%Z
      then Some (set_main (MCreateProducers (i + 1))
                   (set_producers
                      (producers c ++ [mkProducer i 0 "" PWhile]) c))
      else Some (set_main (MCreateConsumers 1) c)
  | MCreateConsumers i =>
      if (i <=? NUM_CONSUMERS)%Z
      then Some (set_main (MCreateConsumers (i + 1))
                   (set_consumers
                      (consumers c ++ [mkConsumer i 0 "" CWhile]) c))
      else Some (set_main MRun c)
  | MRun => Some (set_main MStop c)
  | MStop => Some (set_main MShutdown (set_running false c))
  | MShutdown =>
      let '(b', sig) := shutdown (shared_buffer c) in
      Some (set_main (MNotifying sig) (set_buffer b' c))
  | MNotifying [] => Some (set_main (MJoinProducers 0) c)
  | MNotifying (s :: sig') =>
      match deliver chosen s c with
      | Some c' => Some (set_main (MNotifying sig') c')
      | None => None
      end
  | MJoinProducers k =>
      match producers c !! k with
      | Some p =>
          if producer_done p
          then Some (set_main (MJoinProducers (S k)) c)
          else None
      | None => Some (set_main (MJoinConsumers 0) c)
      end
  | MJoinConsumers k =>
      match consumers c !! k with
      | Some x =>
          if consumer_done x
          then Some (set_main (MJoinConsumers (S k)) c)
          else None
      | None => Some (set_main MDone c)
      end
  | MDone => None
  end.

(** *** Interleaving *)

Inductive action : Type :=
| Run (t : tid) (chosen : option tid)
    (* [t] takes its next action; a [notify_one] in it wakes [chosen] *)
| Spurious (t : tid).
    (* [t], parked in a wait, wakes up without having been notified *)

Definition fire (a : action) (c : config) : option config :=
  match a with
  | Run TMain chosen => main_step chosen c
  | Run (TProducer i) chosen =>
      match producers c !! i with
      | Some p =>
          match produce_step (running c) (shared_buffer c) p with
          | Some (p', b', sig) =>
              deliver_all chosen sig
                (set_producers (<[i := p']> (producers c)) (set_buffer b' c))
          | None => None
          end
      | None => None
      end
  | Run (TConsumer j) chosen =>
      match consumers c !! j with
      | Some k =>
          match consume_step (running c) (shared_buffer c) k with
          | Some (k', b', sig) =>
              deliver_all chosen sig
                (set_consumers (<[j := k']> (consumers c)) (set_buffer b' c))
          | None => None
          end
      | None => None
      end
  | Spurious TMain => None
  | Spurious (TProducer i) =>
      match producers c !! i with
      | Some p =>
          match p_pc p with
          | PPush (Parked _) =>
              Some (set_producers (<[i := p_at (PPush Trying) p]> (producers c)) c)
          | _ => None
          end
      | None => None
      end
  | Spurious (TConsumer j) =>
      match consumers c !! j with
      | Some k =>
          match c_pc k with
          | CWhilePop (Parked _) =>
              Some (set_consumers (<[j := c_at (CWhilePop Trying) k]> (consumers c)) c)
          | CIfPop (Parked _) =>
              Some (set_consumers (<[j := c_at (CIfPop Trying) k]> (consumers c)) c)
          | _ => None
          end
      | None => None
      end
  end.

Definition is_spurious (a : action) : bool :=
  match a with
  | Spurious _ => true
  | Run _ _ => false
  end.

(** Run a schedule from [c]; [None] when it asks for an action that cannot
    be taken. *)
Fixpoint exec (sched : list action) (c : config) : option config :=
  match sched with
  | [] => Some c
  | a :: sched' =>
      match fire a c with
      | Some c' => exec sched' c'
      | None => None
      end
  end.

Definition step (c c' : config) : Prop := exists a, fire a c = Some c'.

Definition reachable (c : config) : Prop :=
  exists sched, exec sched init = Some c.

Definition after_store (m : mpc) : bool :=
  match m with
  | MNotifying _ | MJoinProducers _ | MJoinConsumers _ | MDone => true
  | _ => false
  end.

(** [main] has executed [running.store(false)] and the store of
    [shutdown()]. *)
Definition shutdown_called (c : config) : bool := after_store (main_pc c).

(** All five workers have returned and [main] is past every [join]. *)
Definition all_joined (c : config) : bool :=
  match main_pc c with
  | MDone =>
      (length (producers c) =? Z.to_nat NUM_PRODUCERS)
      && (length (consumers c) =? Z.to_nat NUM_CONSUMERS)
      && forallb producer_done (producers c)
      && forallb consumer_done (consumers c)
  | _ => false
  end.

(** *** Invariants and ranking of the demo *)

Definition is_notify_all (cv : cond) (s : notification cond) : bool :=
  match s with
  | notify_all cv' => cond_eqb cv cv'
  | notify_one _ => false
  end.

(** [main] has yet to call [cv.notify_all()]. *)
Definition will_notify_all (cv : cond) (m : mpc) : bool :=
  match m with
  | MNotifying sig => existsb (is_notify_all cv) sig
  | _ => negb (after_store m)
  end.

(** [main] is past [running.store(false)]. *)
Definition after_stop (m : mpc) : bool :=
  match m with
  | MShutdown => true
  | _ => after_store m
  end.

(** A thread as it is, or taken out of a wait. *)
Definition woken_producer (p p' : Producer) : Prop :=
  p' = p \/ exists cv, p_pc p = PPush (Parked cv) /\ p' = p_at (PPush Trying) p.

Definition woken_consumer (k k' : Consumer) : Prop :=
  k' = k
  \/ (exists cv, c_pc k = CWhilePop (Parked cv) /\ k' = c_at (CWhilePop Trying) k)
  \/ (exists cv, c_pc k = CIfPop (Parked cv) /\ k' = c_at (CIfPop Trying) k).

(** [c'] is [c] with some parked threads woken. *)
Definition wakes (c c' : config) : Prop :=
  shared_buffer c' = shared_buffer c
  /\ running c' = running c
  /\ main_pc c' = main_pc c
  /\ Forall2 woken_producer (producers c) (producers c')
  /\ Forall2 woken_consumer (consumers c) (consumers c').

(** Threads created so far, and threads [main] has already joined. *)
Definition threads_ok (c : config) : Prop :=
  match main_pc c with
  | MCreateProducers i =>
      (1 <= i <= NUM_PRODUCERS + 1)%Z
      /\ length (producers c) = Z.to_nat (i - 1)
      /\ length (consumers c) = 0
  | MCreateConsumers i =>
      (1 <= i <= NUM_CONSUMERS + 1)%Z
      /\ length (producers c) = Z.to_nat NUM_PRODUCERS
      /\ length (consumers c) = Z.to_nat (i - 1)
  | MJoinProducers k =>
      length (producers c) = Z.to_nat NUM_PRODUCERS
      /\ length (consumers c) = Z.to_nat NUM_CONSUMERS
      /\ (forall i p, i < k -> producers c !! i = Some p ->
           producer_done p = true)
  | MJoinConsumers k =>
      length (producers c) = Z.to_nat NUM_PRODUCERS
      /\ length (consumers c) = Z.to_nat NUM_CONSUMERS
      /\ (forall i p, producers c !! i = Some p -> producer_done p = true)
      /\ (forall j x, j < k -> consumers c !! j = Some x ->
           consumer_done x = true)
  | MDone =>
      length (producers c) = Z.to_nat NUM_PRODUCERS
      /\ length (consumers c) = Z.to_nat NUM_CONSUMERS
      /\ (forall i p, producers c !! i = Some p -> producer_done p = true)
      /\ (forall j x, consumers c !! j = Some x -> consumer_done x = true)
  | _ =>
      length (producers c) = Z.to_nat NUM_PRODUCERS
      /\ length (consumers c) = Z.to_nat NUM_CONSUMERS
  end.

Record invariant (c : config) : Prop := mkInvariant {
  inv_flag : shutdown_ (shared_buffer c) = after_store (main_pc c);
  inv_running : after_stop (main_pc c) = true -> running c = false;
  inv_parked : forall cv,
    any_parked cv c = true -> will_notify_all cv (main_pc c) = true;
  inv_threads : threads_ok c;
  inv_capacity : size (shared_buffer c) <= MAX_SIZE
}.

Definition producer_rank (p : Producer) : nat :=
  match p_pc p with
  | PPush (Parked _) => 4
  | PPush Trying => 3
  | PSleep => 2
  | PWhile => 1
  | PDone => 0
  end.

Definition consumer_rank (k : Consumer) : nat :=
  match c_pc k with
  | CIfPop (Parked _) => 10
  | CIfPop Trying => 9
  | CIf => 8
  | CRetry => 7
  | CProcess => 7
  | CWhile => 6
  | CWhilePop (Parked _) => 5
  | CWhilePop Trying => 4
  | CDone => 0
  end.

Definition main_rank (c : config) : nat :=
  match main_pc c with
  | MNotifying sig =>
      length sig + 1 + (length (producers c) + 1) + (length (consumers c) + 1)
  | MJoinProducers k =>
      (length (producers c) - k) + 1 + (length (consumers c) + 1)
  | MJoinConsumers k => (length (consumers c) - k) + 1
  | _ => 0
  end.

(** An upper bound on the actions left once [shutdown()] has stored the
    flag: every action lowers it. *)
Definition rank (c : config) : nat :=
  main_rank c
  + sum_list_with producer_rank (producers c)
  + sum_list_with consumer_rank (consumers c)
  + 10 * size (shared_buffer c).

(** *** A sample run of the demo

    [main] creates the five threads; producer 1 fills the queue with ten
    messages; producer 2 finds it full and parks in [push]; [main] then
    clears [running] and stores the shutdown flag. *)

Fixpoint times {A} (n : nat) (l : list A) : list A :=
  match n with
  | O => []
  | S n' => l ++ times n' l
  end.

Definition full_queue_schedule : list action :=
  times 7 [Run TMain None]
  ++ times 30 [Run (TProducer 0) None]
  ++ times 2 [Run (TProducer 1) None]
  ++ times 3 [Run TMain None].

Definition full_queue_stop : config :=
  {| shared_buffer :=
       {| data_ := ["P1_Msg_0"; "P1_Msg_1"; "P1_Msg_2"; "P1_Msg_3";
                    "P1_Msg_4"; "P1_Msg_5"; "P1_Msg_6"; "P1_Msg_7";
                    "P1_Msg_8"; "P1_Msg_9"];
          shutdown_ := true |};
     running := false;
     producers :=
       [ {| p_id := 1; p_count := 10; p_data := "P1_Msg_9"; p_pc := PWhile |};
         {| p_id := 2; p_count := 1; p_data := "P2_Msg_0";
            p_pc := PPush (Parked not_full_) |};
         {| p_id := 3; p_count := 0; p_data := ""; p_pc := PWhile |} ];
     consumers :=
       [ {| c_id := 1; c_count := 0; c_data := ""; c_pc := CWhile |};
         {| c_id := 2; c_count := 0; c_data := ""; c_pc := CWhile |} ];
     main_pc := MNotifying [notify_all not_empty_; notify_all not_full_] |}.

(** Three actions later: [main] has called [not_empty_.notify_all()], and
    consumer 1 has found [running] false and popped the first message,
    its [notify_one] waking producer 2. *)
Definition first_pop_schedule : list action :=
  [Run TMain None; Run (TConsumer 0) None;
   Run (TConsumer 0) (Some (TProducer 1))].

Definition first_pop : config :=
  {| shared_buffer :=
       {| data_ := ["P1_Msg_1"; "P1_Msg_2"; "P1_Msg_3"; "P1_Msg_4";
                    "P1_Msg_5"; "P1_Msg_6"; "P1_Msg_7"; "P1_Msg_8";
                    "P1_Msg_9"];
          shutdown_ := true |};
     running := false;
     producers :=
       [ {| p_id := 1; p_count := 10; p_data := "P1_Msg_9"; p_pc := PWhile |};
         {| p_id := 2; p_count := 1; p_data := "P2_Msg_0";
            p_pc := PPush Trying |};
         {| p_id := 3; p_count := 0; p_data := ""; p_pc := PWhile |} ];
     consumers :=
       [ {| c_id := 1; c_count := 0; c_data := "P1_Msg_0"; c_pc := CIf |};
         {| c_id := 2; c_count := 0; c_data := ""; c_pc := CWhile |} ];
     main_pc := MNotifying [notify_all not_full_] |}.

End Demo.

(** ** Call histories

    What a sequence of completed calls was given and what it handed back,
    to compare with what the queue holds afterwards. *)

Module History.

(** [Single]: one caller making the calls [cs] one after the other; [None]
    when one of them parks. *)
Fixpoint single_run (cs : list Single.call) (b : Single.Buffer)
  : option (Single.Buffer * list Single.reply) :=
  match cs with
  | [] => Some (b, [])
  | c :: cs' =>
      match Single.attempt c b with
      | None => None
      | Some (b', r) =>
          match single_run cs' b' with
          | None => None
          | Some (b'', rs) => Some (b'', r :: rs)
          end
      end
  end.

(** The arguments of the [push] calls, in call order. *)
Fixpoint single_pushed (cs : list Single.call) : list string :=
  match cs with
  | [] => []
  | Single.Push x :: cs' => x :: single_pushed cs'
  | _ :: cs' => single_pushed cs'
  end.

(** The items handed back by the [pop] and [try_pop] calls that returned
    [true], in call order. *)
Fixpoint single_received (rs : list Single.reply) : list string :=
  match rs with
  | [] => []
  | Single.RItem true x :: rs' => x :: single_received rs'
  | _ :: rs' => single_received rs'
  end.

(** [Multi]: the arguments of the [push] calls made before the first
    [shutdown()]. *)
Fixpoint multi_pushed_before_shutdown (cs : list Multi.call) : list string :=
  match cs with
  | [] => []
  | Multi.Push x :: cs' => x :: multi_pushed_before_shutdown cs'
  | Multi.Shutdown :: _ => []
  | _ :: cs' => multi_pushed_before_shutdown cs'
  end.

Fixpoint multi_received (rs : list Multi.reply) : list string :=
  match rs with
  | [] => []
  | Multi.RItem true x :: rs' => x :: multi_received rs'
  | _ :: rs' => multi_received rs'
  end.

End History.

(** ** Bookkeeping for the multi producer/consumer demo *)

Module DemoLedger.

Import Multi Demo.

(** Actions [main] still has to take before the store of [shutdown()]. *)
Definition prelude_rank (m : mpc) : nat :=
  match m with
  | MCreateProducers i => Z.to_nat (NUM_PRODUCERS + 2 - i) + 6
  | MCreateConsumers i => Z.to_nat (NUM_CONSUMERS + 2 - i) + 3
  | MRun => 3
  | MStop => 2
  | MShutdown => 1
  | _ => 0
  end.

Fixpoint Zsum {A} (f : A -> Z) (l : list A) : Z :=
  match l with
  | [] => 0%Z
  | x :: l' => (f x + Zsum f l')%Z
  end.

(** A producer has built a message and its [push] has not returned yet. *)
Definition pending (p : Producer) : Z :=
  match p_pc p with
  | PPush _ => 1%Z
  | _ => 0%Z
  end.

(** A consumer holds a message it has popped and not yet counted. *)
Definition held (k : Consumer) : Z :=
  if str_empty (c_data k) then 0%Z else 1%Z.

(** The sum of the producers' [count]s ("Total produced"). *)
Definition produced (c : config) : Z := Zsum p_count (producers c).

(** The sum of the consumers' [count]s ("Total consumed"). *)
Definition consumed (c : config) : Z := Zsum c_count (consumers c).

(** Messages on their way: about to be pushed, queued, or being
    processed. *)
Definition in_flight (c : config) : Z :=
  (Zsum pending (producers c)
   + Z.of_nat (size (shared_buffer c))
   + Zsum held (consumers c))%Z.

Definition producer_ok (p : Producer) : Prop :=
  (0 <= p_count p)%Z
  /\ (pending p = 1%Z -> str_empty (p_data p) = false).

(** Where [data] is empty in [consume], given the value of [running]. *)
Definition consumer_ok (run : bool) (k : Consumer) : Prop :=
  (0 <= c_count k)%Z
  /\ match c_pc k with
     | CWhile | CIfPop _ | CRetry | CDone => c_data k = ""
     | CWhilePop _ => c_data k = "" /\ run = false
     | CIf => str_empty (c_data k) = false -> run = false
     | CProcess => True
     end.

Record ledger (c : config) : Prop := mkLedger {
  led_queue : Forall (fun x => str_empty x = false) (data_ (shared_buffer c));
  led_producers : Forall producer_ok (producers c);
  led_consumers : Forall (consumer_ok (running c)) (consumers c);
  led_upper : (consumed c + in_flight c <= produced c)%Z;
  led_exact : shutdown_ (shared_buffer c) = false ->
              (consumed c + in_flight c = produced c)%Z
}.

(** Once a consumer has returned, the queue is empty for good. *)
Definition drained (c : config) : Prop :=
  existsb consumer_done (consumers c) = true ->
  shutdown_ (shared_buffer c) = true /\ data_ (shared_buffer c) = [].

End DemoLedger.

(** *** A complete run of the demo with a dropped message

    Consumer 1 parks in [pop]; producer 1 pushes a message, which wakes
    consumer 1; producer 2 builds a message; consumer 1 pops; [main] stops
    the run and shuts the buffer down; the [push] of producer 2 is
    dropped; every thread returns and [main] joins them all. *)

Module DemoSamples.

Import Multi Demo.

(** Before any of that: the five threads exist, both consumers are parked
    on the empty queue, [main] sleeps. *)
Definition consumers_parked_schedule : list action :=
  times 7 [Run TMain None]
  ++ times 3 [Run (TConsumer 0) None]
  ++ times 3 [Run (TConsumer 1) None].

Definition consumers_parked : config :=
  {| shared_buffer := {| data_ := []; shutdown_ := false |};
     running := true;
     producers :=
       [ {| p_id := 1; p_count := 0; p_data := ""; p_pc := PWhile |};
         {| p_id := 2; p_count := 0; p_data := ""; p_pc := PWhile |};
         {| p_id := 3; p_count := 0; p_data := ""; p_pc := PWhile |} ];
     consumers :=
       [ {| c_id := 1; c_count := 0; c_data := "";
            c_pc := CIfPop (Parked not_empty_) |};
         {| c_id := 2; c_count := 0; c_data := "";
            c_pc := CIfPop (Parked not_empty_) |} ];
     main_pc := MRun |}.

Definition dropped_push_schedule : list action :=
  times 7 [Run TMain None]
  ++ times 3 [Run (TConsumer 0) None]
  ++ [Run (TProducer 0) None; Run (TProducer 0) (Some (TConsumer 0))]
  ++ [Run (TProducer 1) None]
  ++ [Run (TConsumer 0) None]
  ++ times 3 [Run TMain None]
  ++ [Run (TProducer 1) None]
  ++ times 2 [Run TMain None]
  ++ [Run (TProducer 0) None; Run (TProducer 0) None;
      Run (TProducer 1) None; Run (TProducer 1) None; Run (TProducer 2) None]
  ++ times 4 [Run TMain None]
  ++ times 3 [Run (TConsumer 0) None]
  ++ times 2 [Run (TConsumer 1) None]
  ++ times 4 [Run TMain None].

Definition dropped_push_end : config :=
  {| shared_buffer := {| data_ := []; shutdown_ := true |};
     running := false;
     producers :=
       [ {| p_id := 1; p_count := 1; p_data := "P1_Msg_0"; p_pc := PDone |};
         {| p_id := 2; p_count := 1; p_data := "P2_Msg_0"; p_pc := PDone |};
         {| p_id := 3; p_count := 0; p_data := ""; p_pc := PDone |} ];
     consumers :=
       [ {| c_id := 1; c_count := 1; c_data := ""; c_pc := CDone |};
         {| c_id := 2; c_count := 0; c_data := ""; c_pc := CDone |} ];
     main_pc := MDone |}.

End DemoSamples.

(** ** The threads of the single producer/consumer demo

    [main], one [Producer::produce] thread and one [Consumer::consume]
    thread on the single-signal buffer, interleaved one atomic action at a
    time as in [Demo].  Both threads wait on the one [condition_]. *)

Module SingleDemo.

Import Single.

(** Where a thread stands inside [push] or [pop]. *)
Inductive phase : Type :=
| Trying     (* about to lock [mutex_]: on entry or after a wake-up *)
| Parked.    (* blocked in [condition_.wait] *)

(** Program points of [Producer::produce]. *)
Inductive ppc : Type :=
| PIdle                  (* the thread has not been started *)
| PWhile                 (* [while (running_.load())] *)
| PPush (ph : phase)     (* [buffer_.push(data)] *)
| PSleep                 (* [sleep_for(500)] *)
| PDone.

Record Producer : Type := mkProducer {
  p_id : Z;
  p_count : Z;
  p_data : string;
  p_pc : ppc
}.

(** Program points of [Consumer::consume]. *)
Inductive cpc : Type :=
| CIdle                  (* the thread has not been started *)
| CWhile                 (* [running_.load()] of the [while] condition *)
| CEmpty                 (* [!buffer_.empty()] of the [while] condition *)
| CPop (ph : phase)      (* [buffer_.pop(data)] *)
| CProcess               (* [sleep_for(700); count++] *)
| CDone.

Record Consumer : Type := mkConsumer {
  c_id : Z;
  c_count : Z;
  c_data : string;
  c_pc : cpc
}.

(** Program points of [main]. *)
Inductive mpc : Type :=
| MStartProducer     (* [std::thread producer_thread(...)] *)
| MStartConsumer     (* [std::thread consumer_thread(...)] *)
| MRun               (* [sleep_for(seconds(5))] *)
| MStop              (* [running.store(false)] *)
| MJoinProducer      (* [producer_thread.join()] *)
| MJoinConsumer      (* [consumer_thread.join()] *)
| MDone.

Record config : Type := mkConfig {
  shared_buffer : Buffer;
  running : bool;
  producer : Producer;
  consumer : Consumer;
  main_pc : mpc
}.

(** [Producer producer(shared_buffer, running)] and the consumer alike:
    [id] defaults to 1. *)
Definition init : config :=
  {| shared_buffer := initial;
     running := true;
     producer := mkProducer 1 0 "" PIdle;
     consumer := mkConsumer 1 0 "" CIdle;
     main_pc := MStartProducer |}.

(** ["Message_" + to_string(count) + "_from_Producer_" + to_string(id_)]. *)
Definition message (id count : Z) : string :=
  "Message_" +:+ pretty count +:+ "_from_Producer_" +:+ pretty id.

Definition p_at (pc : ppc) (p : Producer) : Producer :=
  {| p_id := p_id p; p_count := p_count p; p_data := p_data p; p_pc := pc |}.

Definition c_at (pc : cpc) (k : Consumer) : Consumer :=
  {| c_id := c_id k; c_count := c_count k; c_data := c_data k; c_pc := pc |}.

(** Entering the loop body of [consume]: [std::string data;] is a fresh
    empty string in every iteration. *)
Definition c_enter (k : Consumer) : Consumer :=
  {| c_id := c_id k; c_count := c_count k; c_data := ""; c_pc := CPop Trying |}.

Definition set_buffer (b : Buffer) (c : config) : config :=
  {| shared_buffer := b; running := running c; producer := producer c;
     consumer := consumer c; main_pc := main_pc c |}.

Definition set_running (r : bool) (c : config) : config :=
  {| shared_buffer := shared_buffer c; running := r; producer := producer c;
     consumer := consumer c; main_pc := main_pc c |}.

Definition set_producer (p : Producer) (c : config) : config :=
  {| shared_buffer := shared_buffer c; running := running c; producer := p;
     consumer := consumer c; main_pc := main_pc c |}.

Definition set_consumer (k : Consumer) (c : config) : config :=
  {| shared_buffer := shared_buffer c; running := running c;
     producer := producer c; consumer := k; main_pc := main_pc c |}.

Definition set_main (pc : mpc) (c : config) : config :=
  {| shared_buffer := shared_buffer c; running := running c;
     producer := producer c; consumer := consumer c; main_pc := pc |}.

(** *** The condition variable *)

Definition producer_parked (c : config) : bool :=
  match p_pc (producer c) with PPush Parked => true | _ => false end.

Definition consumer_parked (c : config) : bool :=
  match c_pc (consumer c) with CPop Parked => true | _ => false end.

Definition wake_producer (c : config) : config :=
  if producer_parked c
  then set_producer (p_at (PPush Trying) (producer c)) c
  else c.

Definition wake_consumer (c : config) : config :=
  if consumer_parked c
  then set_consumer (c_at (CPop Trying) (consumer c)) c
  else c.

Inductive tid : Type := TMain | TProducer | TConsumer.

(** [condition_.notify_one()]: nothing happens when nobody is parked;
    otherwise one parked thread, [chosen] by the implementation, leaves
    the wait.  [None] when [chosen] is not a possible choice. *)
Definition wake_one (chosen : option tid) (c : config) : option config :=
  match chosen with
  | None => if producer_parked c || consumer_parked c then None else Some c
  | Some TMain => None
  | Some TProducer => if producer_parked c then Some (wake_producer c) else None
  | Some TConsumer => if consumer_parked c then Some (wake_consumer c) else None
  end.

Definition deliver (chosen : option tid) (s : notification cond) (c : config)
  : option config :=
  match s with
  | notify_one condition_ => wake_one chosen c
  | notify_all condition_ => Some (wake_consumer (wake_producer c))
  end.

Fixpoint deliver_all (chosen : option tid) (sig : list (notification cond))
  (c : config) : option config :=
  match sig with
  | [] => Some c
  | s :: sig' =>
      match deliver chosen s c with
      | Some c' => deliver_all chosen sig' c'
      | None => None
      end
  end.

(** *** Thread bodies *)

(** One action of [Producer::produce]; [None] when it cannot act. *)
Definition produce_step (run : bool) (b : Buffer) (p : Producer)
  : option (Producer * Buffer * list (notification cond)) :=
  match p_pc p with
  | PIdle => None
  | PWhile =>
      if run
      then Some ({| p_id := p_id p;
                    p_count := (p_count p + 1)%Z;
                    p_data := message (p_id p) (p_count p);
                    p_pc := PPush Trying |}, b, [])
      else Some (p_at PDone p, b, [])
  | PPush Trying =>
      match push (p_data p) b with
      | Blocks _ => Some (p_at (PPush Parked) p, b, [])
      | Returns b' _ sig => Some (p_at PSleep p, b', sig)
      end
  | PPush Parked => None
  | PSleep => Some (p_at PWhile p, b, [])
  | PDone => None
  end.

(** One action of [Consumer::consume]; [None] when it cannot act. *)
Definition consume_step (run : bool) (b : Buffer) (k : Consumer)
  : option (Consumer * Buffer * list (notification cond)) :=
  match c_pc k with
  | CIdle => None
  | CWhile => Some (if run then c_enter k else c_at CEmpty k, b, [])
  | CEmpty => Some (if negb (empty b) then c_enter k else c_at CDone k, b, [])
  | CPop Trying =>
      match pop (c_data k) b with
      | Blocks _ => Some (c_at (CPop Parked) k, b, [])
      | Returns b' (ok, it) sig =>
          Some ({| c_id := c_id k; c_count := c_count k; c_data := it;
                   c_pc := if ok then CProcess else CWhile |}, b', sig)
      end
  | CPop Parked => None
  | CProcess =>
      Some ({| c_id := c_id k; c_count := (c_count k + 1)%Z;
               c_data := c_data k; c_pc := CWhile |}, b, [])
  | CDone => None
  end.

Definition producer_done (c : config) : bool :=
  match p_pc (producer c) with PDone => true | _ => false end.

Definition consumer_done (c : config) : bool :=
  match c_pc (consumer c) with CDone => true | _ => false end.

(** One action of [main]; [join] can be taken only once the joined thread
    has returned. *)
Definition main_step (c : config) : option config :=
  match main_pc c with
  | MStartProducer =>
      Some (set_main MStartConsumer (set_producer (p_at PWhile (producer c)) c))
  | MStartConsumer =>
      Some (set_main MRun (set_consumer (c_at CWhile (consumer c)) c))
  | MRun => Some (set_main MStop c)
  | MStop => Some (set_main MJoinProducer (set_running false c))
  | MJoinProducer =>
      if producer_done c then Some (set_main MJoinConsumer c) else None
  | MJoinConsumer =>
      if consumer_done c then Some (set_main MDone c) else None
  | MDone => None
  end.

(** *** Interleaving *)

Inductive action : Type :=
| Run (t : tid) (chosen : option tid)
    (* [t] takes its next action; a [notify_one] in it wakes [chosen] *)
| Spurious (t : tid).
    (* [t], parked in the wait, wakes up without having been notified *)

Definition fire (a : action) (c : config) : option config :=
  match a with
  | Run TMain _ => main_step c
  | Run TProducer chosen =>
      match produce_step (running c) (shared_buffer c) (producer c) with
      | Some (p', b', sig) =>
          deliver_all chosen sig (set_producer p' (set_buffer b' c))
      | None => None
      end
  | Run TConsumer chosen =>
      match consume_step (running c) (shared_buffer c) (consumer c) with
      | Some (k', b', sig) =>
          deliver_all chosen sig (set_consumer k' (set_buffer b' c))
      | None => None
      end
  | Spurious TMain => None
  | Spurious TProducer =>
      if producer_parked c then Some (wake_producer c) else None
  | Spurious TConsumer =>
      if consumer_parked c then Some (wake_consumer c) else None
  end.

Definition is_spurious (a : action) : bool :=
  match a with
  | Spurious _ => true
  | Run _ _ => false
  end.

Fixpoint exec (sched : list action) (c : config) : option config :=
  match sched with
  | [] => Some c
  | a :: sched' =>
      match fire a c with
      | Some c' => exec sched' c'
      | None => None
      end
  end.

Definition reachable (c : config) : Prop :=
  exists sched, exec sched init = Some c.

(** No thread can take an action other than a spurious wake-up. *)
Definition stuck (c : config) : Prop :=
  forall a, is_spurious a = false -> fire a c = None.

(** [main] is past both joins. *)
Definition finished (c : config) : bool :=
  match main_pc c with MDone => true | _ => false end.

(** The consumer waits in [pop] for an item that nobody will push: the
    queue is empty, [running] is false and the producer has returned. *)
Definition hung (c : config) : bool :=
  negb (running c)
  && producer_done c
  && empty (shared_buffer c)
  && match c_pc (consumer c) with CPop _ => true | _ => false end
  && match main_pc c with MJoinProducer | MJoinConsumer => true | _ => false end.

(** Messages built by the producer whose [push] has not returned. *)
Definition pending (c : config) : nat :=
  match p_pc (producer c) with PPush _ => 1 | _ => 0 end.

(** Messages popped by the consumer and not yet counted. *)
Definition processing (c : config) : nat :=
  match c_pc (consumer c) with CProcess => 1 | _ => 0 end.

(** The messages numbered [first], ..., [first + len - 1]. *)
Definition messages (first len : nat) : list string :=
  map (fun n => message 1 (Z.of_nat n)) (seq first len).

(** The consumer has counted the messages before [first], the queue holds
    the next [len] in order, and the producer has built exactly those. *)
Definition in_order (c : config) : Prop :=
  exists first len : nat,
    data_ (shared_buffer c) = messages (first + processing c) len
    /\ c_count (consumer c) = Z.of_nat first
    /\ p_count (producer c) = Z.of_nat (first + processing c + len + pending c)
    /\ p_id (producer c) = 1%Z
    /\ (pending c = 1 -> p_data (producer c) = message 1 (p_count (producer c) - 1))
    /\ (processing c = 1 -> c_data (consumer c) = message 1 (c_count (consumer c)))
    /\ size (shared_buffer c) <= MAX_SIZE.

(** A parked thread has a reason to be parked. *)
Definition no_lost_wakeup (c : config) : Prop :=
  (consumer_parked c = true -> data_ (shared_buffer c) = [])
  /\ (producer_parked c = true -> size (shared_buffer c) = MAX_SIZE).

(** Which threads run, and what the consumer knew when it left. *)
Record lifecycle (c : config) : Prop := mkLifecycle {
  life_idle_p : p_pc (producer c) = PIdle <-> main_pc c = MStartProducer;
  life_idle_c : c_pc (consumer c) = CIdle <->
                (main_pc c = MStartProducer \/ main_pc c = MStartConsumer);
  life_running : running c = false <->
                 (main_pc c = MJoinProducer \/ main_pc c = MJoinConsumer
                  \/ main_pc c = MDone);
  life_joined_p : main_pc c = MJoinConsumer \/ main_pc c = MDone ->
                  producer_done c = true;
  life_joined_c : main_pc c = MDone -> consumer_done c = true;
  life_empty : c_pc (consumer c) = CEmpty -> running c = false;
  life_left : consumer_done c = true ->
              running c = false /\ size (shared_buffer c) + pending c <= 1
}.

End SingleDemo.

(** *** Two runs of the single demo

    [waiting_schedule]: the consumer parks on the empty queue, the producer
    pushes message 0 (waking it), the consumer takes and counts it and
    parks again; the producer builds nothing more before [main] clears
    [running], and returns.  [stranded_schedule]: the producer builds
    message 0; [main] clears [running]; the consumer sees [running] false
    and the queue empty and returns; only then does the producer push. *)

Module SingleDemoSamples.

Import Single SingleDemo.

Definition waiting_schedule : list action :=
  [Run TMain None; Run TMain None;
   Run TConsumer None; Run TConsumer None;
   Run TProducer None; Run TProducer (Some TConsumer);
   Run TConsumer None; Run TConsumer None; Run TConsumer None;
   Run TConsumer None;
   Run TProducer None;
   Run TMain None; Run TMain None;
   Run TProducer None;
   Run TMain None].

Definition waiting : config :=
  {| shared_buffer := {| data_ := [] |};
     running := false;
     producer := {| p_id := 1; p_count := 1;
                    p_data := "Message_0_from_Producer_1"; p_pc := PDone |};
     consumer := {| c_id := 1; c_count := 1; c_data := "";
                    c_pc := CPop Parked |};
     main_pc := MJoinConsumer |}.

Definition stranded_schedule : list action :=
  [Run TMain None; Run TMain None;
   Run TProducer None;
   Run TMain None; Run TMain None;
   Run TConsumer None; Run TConsumer None;
   Run TProducer None; Run TProducer None; Run TProducer None;
   Run TMain None; Run TMain None].

Definition stranded : config :=
  {| shared_buffer := {| data_ := ["Message_0_from_Producer_1"] |};
     running := false;
     producer := {| p_id := 1; p_count := 1;
                    p_data := "Message_0_from_Producer_1"; p_pc := PDone |};
     consumer := {| c_id := 1; c_count := 0; c_data := ""; c_pc := CDone |};
     main_pc := MDone |}.

End SingleDemoSamples.

(** ** The order of the messages in the queue of the multi demo *)

Module DemoOrder.

Import Multi Demo.

(** ["P" + to_string(id_) + "_Msg_" + to_string(count)]. *)
Definition multi_message (id count : Z) : string :=
  "P" +:+ pretty id +:+ "_Msg_" +:+ pretty count.

(** A message by the producer that built it and its number. *)
Definition tag_message (x : Z * nat) : string :=
  multi_message (fst x) (Z.of_nat (snd x)).

(** The numbers of the messages of producer [id], in queue order. *)
Fixpoint numbers_of (id : Z) (l : list (Z * nat)) : list nat :=
  match l with
  | [] => []
  | (i, n) :: l' =>
      if (i =? id)%Z then n :: numbers_of id l' else numbers_of id l'
  end.

(** The messages of the [i]-th producer thread in the queue are numbered
    consecutively, and up to the last one it pushed as long as the buffer
    is [open] (not shut down). *)
Definition producer_in_order (open : bool) (l : list (Z * nat)) (i : nat)
  (p : Producer) : Prop :=
  p_id p = Z.of_nat (S i)
  /\ (DemoLedger.pending p = 1%Z ->
      p_data p = multi_message (p_id p) (p_count p - 1))
  /\ exists a len : nat,
       numbers_of (p_id p) l = seq a len
       /\ (Z.of_nat (a + len) + DemoLedger.pending p <= p_count p)%Z
       /\ (open = true ->
           (Z.of_nat (a + len) + DemoLedger.pending p = p_count p)%Z).

Definition queue_in_order (c : config) : Prop :=
  exists l : list (Z * nat),
    data_ (shared_buffer c) = map tag_message l
    /\ Forall (fun x => (1 <= fst x <= Z.of_nat (length (producers c)))%Z) l
    /\ forall i p, producers c !! i = Some p ->
         producer_in_order (negb (shutdown_ (shared_buffer c))) l i p.

End DemoOrder.

(** * Properties of the dual-signal buffer *)

Section MultiBuffer.

Import Multi.

Lemma push_shutdown_drops (item : string) (b : Buffer) :
  shutdown_ b = true -> push item b = Returns b tt [].
Proof.
  intros Hs. unfold push. rewrite Hs, orb_true_r. reflexivity.
Qed.

Lemma push_open (item : string) (b : Buffer) :
  shutdown_ b = false ->
  size b < MAX_SIZE ->
  push item b =
    Returns {| data_ := data_ b ++ [item]; shutdown_ := false |} tt
            [notify_one not_empty_].
Proof.
  intros Hs Hlt. unfold push. rewrite Hs.
  apply Nat.ltb_lt in Hlt. rewrite Hlt. reflexivity.
Qed.

(** [pop] by cases on the queue and the flag. *)
Lemma pop_cases (item : string) (b : Buffer) :
  pop item b =
    match data_ b with
    | [] =>
        if shutdown_ b then Returns b (false, item) [] else Blocks not_empty_
    | front :: rest =>
        Returns {| data_ := rest; shutdown_ := shutdown_ b |} (true, front)
                [notify_one not_full_]
    end.
Proof.
  unfold pop, empty. destruct (data_ b) as [|front rest]; simpl.
  - destruct (shutdown_ b); reflexivity.
  - reflexivity.
Qed.

Lemma attempt_keeps_shutdown (c : call) (b b' : Buffer) (r : reply) :
  attempt c b = Some (b', r) -> shutdown_ b = true -> shutdown_ b' = true.
Proof.
  intros Hc Hs. destruct c as [item|item| | |]; simpl in Hc.
  - rewrite (push_shutdown_drops item b Hs) in Hc. congruence.
  - rewrite pop_cases in Hc. destruct (data_ b) as [|front rest].
    + rewrite Hs in Hc. congruence.
    + inversion Hc; subst. exact Hs.
  - inversion Hc. reflexivity.
  - congruence.
  - congruence.
Qed.

Lemma run_keeps_shutdown (cs : list call) :
  forall (b b' : Buffer) (rs : list reply),
    run cs b = Some (b', rs) -> shutdown_ b = true -> shutdown_ b' = true.
Proof.
  induction cs as [|c cs IH]; intros b b' rs Hrun Hs; simpl in Hrun.
  - congruence.
  - destruct (attempt c b) as [[b1 r]|] eqn:Hc; [|discriminate].
    destruct (run cs b1) as [[b2 rs2]|] eqn:Hcs; [|discriminate].
    inversion Hrun; subst.
    eapply IH; [exact Hcs|]. eapply attempt_keeps_shutdown; eassumption.
Qed.

Lemma run_app (cs1 cs2 : list call) :
  forall b : Buffer,
    run (cs1 ++ cs2) b =
      match run cs1 b with
      | Some (b1, rs1) =>
          match run cs2 b1 with
          | Some (b2, rs2) => Some (b2, rs1 ++ rs2)
          | None => None
          end
      | None => None
      end.
Proof.
  induction cs1 as [|c cs1 IH]; intros b; simpl.
  - destruct (run cs2 b) as [[b2 rs2]|]; reflexivity.
  - destruct (attempt c b) as [[b1 r]|]; [|reflexivity].
    rewrite IH. destruct (run cs1 b1) as [[b1' rs1]|]; [|reflexivity].
    destruct (run cs2 b1') as [[b2 rs2]|]; reflexivity.
Qed.

(** Pushing into an open buffer that has room for all the items. *)
Lemma run_pushes (items : list string) :
  forall q : list string,
    length q + length items <= MAX_SIZE ->
    run (map Push items) {| data_ := q; shutdown_ := false |} =
      Some ({| data_ := q ++ items; shutdown_ := false |},
            map (fun _ => RVoid) items).
Proof.
  induction items as [|x items IH]; intros q Hlen; simpl.
  - rewrite app_nil_r. reflexivity.
  - simpl in Hlen. rewrite push_open; [|reflexivity|unfold size; simpl; lia].
    simpl. rewrite IH; [|rewrite length_app; simpl; lia].
    rewrite <- app_assoc. reflexivity.
Qed.

(** Popping what is at the front, whatever the flag. *)
Lemma run_pops (items : list string) :
  forall (rest : list string) (sd : bool),
    run (map (fun _ => Pop "") items)
        {| data_ := items ++ rest; shutdown_ := sd |} =
      Some ({| data_ := rest; shutdown_ := sd |}, map (RItem true) items).
Proof.
  induction items as [|x items IH]; intros rest sd; simpl.
  - reflexivity.
  - change (attempt (Pop "") {| data_ := x :: items ++ rest; shutdown_ := sd |})
      with (Some ({| data_ := items ++ rest; shutdown_ := sd |}, RItem true x)).
    rewrite IH. reflexivity.
Qed.

(** C1: in the dual-signal buffer, a [push] called once [shutdown()] has
    been invoked (whatever calls completed in between) returns at once,
    issues no notification, and leaves the buffer exactly as it was: the
    item is dropped, contents and size are unchanged, the call does not
    park. *)
Theorem push_after_shutdown_discards
  (b0 b : Buffer) (cs : list call) (rs : list reply) (item : string) :
  run (Shutdown :: cs) b0 = Some (b, rs) ->
  shutdown_ b = true
  /\ push item b = Returns b tt []
  /\ run (Shutdown :: cs ++ [Push item]) b0 = Some (b, rs ++ [RVoid]).
Proof.
  intros Hrun.
  assert (Hs : shutdown_ b = true).
  { simpl in Hrun.
    destruct (run cs (shutdown_store b0)) as [[b1 rs1]|] eqn:Hcs; [|discriminate].
    inversion Hrun; subst.
    eapply run_keeps_shutdown; [exact Hcs|reflexivity]. }
  split; [exact Hs|]. split; [apply push_shutdown_drops; exact Hs|].
  change (Shutdown :: cs ++ [Push item]) with ((Shutdown :: cs) ++ [Push item]).
  rewrite run_app, Hrun. simpl.
  rewrite (push_shutdown_drops item b Hs). reflexivity.
Qed.

Lemma push_after_shutdown_discards_witness :
  let b := {| data_ := ["a"; "b"]; shutdown_ := true |} in
  shutdown_ b = true
  /\ push "c" b = Returns b tt []
  /\ run (Shutdown :: [Size] ++ [Push "c"])
         {| data_ := ["a"; "b"]; shutdown_ := false |} =
       Some (b, [RVoid; RSize 2] ++ [RVoid]).
Proof.
  apply (push_after_shutdown_discards
           {| data_ := ["a"; "b"]; shutdown_ := false |}
           {| data_ := ["a"; "b"]; shutdown_ := true |}
           [Size] [RVoid; RSize 2] "c").
  reflexivity.
Defined.

(** C2: in the dual-signal buffer, [pop] parks exactly when the queue is
    empty and the flag is false; on an empty queue with the flag set it
    returns [false] and leaves buffer and [item] alone; on a non-empty
    queue it removes the front, hands it back, notifies [not_full_] and
    returns [true].  So a [pop] that completes fails exactly when the queue
    is empty and shutdown is set. *)
Theorem pop_fails_iff_empty_and_shutdown (item : string) (b : Buffer) :
  (pop item b = Blocks not_empty_ <-> data_ b = [] /\ shutdown_ b = false)
  /\ (data_ b = [] -> shutdown_ b = true ->
      pop item b = Returns b (false, item) [])
  /\ (forall front rest, data_ b = front :: rest ->
      pop item b =
        Returns {| data_ := rest; shutdown_ := shutdown_ b |} (true, front)
                [notify_one not_full_])
  /\ (forall b' ok it sig, pop item b = Returns b' (ok, it) sig ->
      (ok = false <-> data_ b = [] /\ shutdown_ b = true)).
Proof.
  rewrite pop_cases. split; [|split; [|split]].
  - destruct (data_ b) as [|x q]; [|split; [discriminate|intros [H _]; discriminate]].
    destruct (shutdown_ b); split; auto; try discriminate.
    intros [_ H]. discriminate.
  - intros -> ->. reflexivity.
  - intros front rest ->. reflexivity.
  - intros b' ok it sig H. destruct (data_ b) as [|x q].
    + destruct (shutdown_ b); [|discriminate].
      injection H as _ <- _ _. split; auto.
    + injection H as _ <- _ _. split; [discriminate|intros [H _]; discriminate].
Qed.

Lemma pop_fails_iff_empty_and_shutdown_witness :
  pop "old" {| data_ := []; shutdown_ := true |} =
    Returns {| data_ := []; shutdown_ := true |} (false, "old") []
  /\ pop "old" {| data_ := ["a"; "b"]; shutdown_ := true |} =
       Returns {| data_ := ["b"]; shutdown_ := true |} (true, "a")
               [notify_one not_full_]
  /\ (true = false <->
      data_ {| data_ := ["a"]; shutdown_ := false |} = []
      /\ shutdown_ {| data_ := ["a"]; shutdown_ := false |} = true).
Proof.
  split; [|split].
  - apply (pop_fails_iff_empty_and_shutdown "old"
             {| data_ := []; shutdown_ := true |}); reflexivity.
  - apply (pop_fails_iff_empty_and_shutdown "old"
             {| data_ := ["a"; "b"]; shutdown_ := true |}). reflexivity.
  - apply (proj2 (proj2 (proj2 (pop_fails_iff_empty_and_shutdown "old"
             {| data_ := ["a"]; shutdown_ := false |})))
             {| data_ := []; shutdown_ := false |} true "a"
             [notify_one not_full_]).
    reflexivity.
Defined.

(** C3: push K items (K < MAX_SIZE) into a fresh dual-signal buffer, call
    [shutdown()], then pop K+1 times: no call parks, the first K pops
    return the K items in the order they were pushed, the last pop returns
    [false], and the buffer ends empty.  In particular: push "a", "b",
    shutdown, push "c" (dropped, size still 2), then three pops give "a",
    "b" and "no item". *)
Theorem shutdown_drains_in_fifo_order (items : list string) :
  length items < MAX_SIZE ->
  run (map Push items ++ [Shutdown]
         ++ map (fun _ => Pop "") items ++ [Pop ""]) initial =
    Some ({| data_ := []; shutdown_ := true |},
          map (fun _ => RVoid) items ++ [RVoid]
            ++ map (RItem true) items ++ [RItem false ""])
  /\ run [Push "a"; Push "b"; Shutdown; Push "c"; Size;
          Pop ""; Pop ""; Pop ""] initial =
       Some ({| data_ := []; shutdown_ := true |},
             [RVoid; RVoid; RVoid; RVoid; RSize 2;
              RItem true "a"; RItem true "b"; RItem false ""]).
Proof.
  intros Hlen. split; [|reflexivity].
  rewrite run_app. unfold initial.
  rewrite run_pushes; [|simpl; lia].
  change ([] ++ items) with items.
  change ([Shutdown] ++ map (fun _ => Pop "") items ++ [Pop ""])
    with (Shutdown :: (map (fun _ => Pop "") items ++ [Pop ""])).
  cbn [run attempt shutdown fst]. unfold shutdown_store. cbn [data_].
  rewrite run_app.
  rewrite <- (app_nil_r items) at 2.
  rewrite run_pops. reflexivity.
Qed.

Lemma shutdown_drains_in_fifo_order_witness :
  run (map Push ["x"; "y"; "z"] ++ [Shutdown]
         ++ map (fun _ => Pop "") ["x"; "y"; "z"] ++ [Pop ""]) initial =
    Some ({| data_ := []; shutdown_ := true |},
          map (fun _ => RVoid) ["x"; "y"; "z"] ++ [RVoid]
            ++ map (RItem true) ["x"; "y"; "z"] ++ [RItem false ""]).
Proof.
  apply (shutdown_drains_in_fifo_order ["x"; "y"; "z"]).
  unfold MAX_SIZE. simpl. lia.
Defined.

(** C10: [shutdown()] of the dual-signal buffer changes the flag and
    nothing else: the stored items, their order and their number are the
    same before and after the call. *)
Theorem shutdown_keeps_items (b : Buffer) :
  data_ (fst (shutdown b)) = data_ b
  /\ size (fst (shutdown b)) = size b
  /\ fst (shutdown b) = {| data_ := data_ b; shutdown_ := true |}
  /\ attempt Shutdown b =
       Some ({| data_ := data_ b; shutdown_ := true |}, RVoid).
Proof.
  repeat split.
Qed.

End MultiBuffer.

(** * Properties of the single-signal buffer *)

Section SingleBuffer.

Import Single.

(** [pop] by cases on the queue: the trailing [return false] is dead. *)
Lemma single_pop_cases (item : string) (b : Buffer) :
  pop item b =
    match data_ b with
    | [] => Blocks condition_
    | front :: rest =>
        Returns {| data_ := rest |} (true, front) [notify_one condition_]
    end.
Proof.
  unfold pop, empty. destruct (data_ b); reflexivity.
Qed.

Lemma single_push_cases (item : string) (b : Buffer) :
  push item b =
    if size b <? MAX_SIZE
    then Returns {| data_ := data_ b ++ [item] |} tt [notify_one condition_]
    else Blocks condition_.
Proof. reflexivity. Qed.

(** C9: in the single-signal buffer, [pop] parks exactly when the queue is
    empty, and whenever it returns it returns [true] together with the item
    that was at the front, which it has removed; it never returns through
    its last [return false]. *)
Theorem single_pop_returns_only_true (item : string) (b : Buffer) :
  (pop item b = Blocks condition_ <-> data_ b = [])
  /\ (forall b' ok it sig,
        pop item b = Returns b' (ok, it) sig ->
        ok = true /\ data_ b = it :: data_ b'
        /\ sig = [notify_one condition_]).
Proof.
  rewrite single_pop_cases. split.
  - destruct (data_ b); split; intros H; try reflexivity; discriminate.
  - intros b' ok it sig H. destruct (data_ b); [discriminate|].
    inversion H; subst. auto.
Qed.

Lemma single_pop_returns_only_true_witness :
  true = true
  /\ data_ {| data_ := ["a"; "b"] |} = "a" :: data_ {| data_ := ["b"] |}
  /\ [notify_one condition_] = [notify_one condition_].
Proof.
  apply (proj2 (single_pop_returns_only_true "old" {| data_ := ["a"; "b"] |})
           {| data_ := ["b"] |} true "a" [notify_one condition_]).
  reflexivity.
Defined.

(** C6: [try_pop] of the single-signal buffer never parks.  On an empty
    queue it returns [false] with buffer and [item] untouched (where [pop]
    would park); on a non-empty queue it does exactly what [pop] does:
    same buffer afterwards, same item, same notification, [true]. *)
Theorem try_pop_never_waits (item : string) (b : Buffer) :
  (exists b' ok it, attempt (TryPop item) b = Some (b', RItem ok it))
  /\ (data_ b = [] ->
      try_pop item b = (b, (false, item), [])
      /\ pop item b = Blocks condition_)
  /\ (forall front rest, data_ b = front :: rest ->
      try_pop item b =
        ({| data_ := rest |}, (true, front), [notify_one condition_])
      /\ pop item b =
           Returns {| data_ := rest |} (true, front) [notify_one condition_]).
Proof.
  rewrite single_pop_cases. unfold attempt, try_pop.
  destruct (data_ b) as [|x q].
  - split; [eauto|]. split; [auto|discriminate].
  - split; [eauto|]. split; [discriminate|].
    intros front rest Heq. inversion Heq; subst. auto.
Qed.

Lemma try_pop_never_waits_witness :
  (try_pop "old" {| data_ := [] |} = ({| data_ := [] |}, (false, "old"), [])
   /\ pop "old" {| data_ := [] |} = Blocks condition_)
  /\ (try_pop "old" {| data_ := ["a"; "b"] |} =
        ({| data_ := ["b"] |}, (true, "a"), [notify_one condition_])
      /\ pop "old" {| data_ := ["a"; "b"] |} =
           Returns {| data_ := ["b"] |} (true, "a") [notify_one condition_]).
Proof.
  split.
  - apply (proj1 (proj2 (try_pop_never_waits "old" {| data_ := [] |}))).
    reflexivity.
  - apply (proj2 (proj2 (try_pop_never_waits "old" {| data_ := ["a"; "b"] |}))
             "a" ["b"]).
    reflexivity.
Defined.

Lemma single_attempt_bounded (c : call) (b b' : Buffer) (r : reply) :
  size b <= MAX_SIZE -> attempt c b = Some (b', r) -> size b' <= MAX_SIZE.
Proof.
  intros Hb Hc. destruct c as [item|item|item| |]; simpl in Hc.
  - rewrite single_push_cases in Hc.
    destruct (size b <? MAX_SIZE) eqn:Hlt; [|discriminate].
    apply Nat.ltb_lt in Hlt. inversion Hc; subst.
    unfold size in *. simpl. rewrite length_app. simpl. lia.
  - rewrite single_pop_cases in Hc. unfold size in *.
    destruct (data_ b) as [|x q]; [discriminate|].
    inversion Hc; subst. simpl in *. lia.
  - unfold try_pop, size in *. destruct (data_ b) as [|x q] eqn:Hd.
    + inversion Hc; subst. rewrite Hd. simpl. lia.
    + inversion Hc; subst. simpl in *. lia.
  - inversion Hc; subst. exact Hb.
  - inversion Hc; subst. exact Hb.
Qed.

Lemma single_reachable_bounded (b : Buffer) :
  reachable b -> size b <= MAX_SIZE.
Proof.
  induction 1 as [|c b b' r _ IH Hc].
  - unfold size, MAX_SIZE. simpl. lia.
  - eapply single_attempt_bounded; eassumption.
Qed.

End SingleBuffer.

Section MultiCapacity.

Import Multi.

Lemma multi_attempt_bounded (c : call) (b b' : Buffer) (r : reply) :
  size b <= MAX_SIZE -> attempt c b = Some (b', r) -> size b' <= MAX_SIZE.
Proof.
  intros Hb Hc. destruct c as [item|item| | |]; simpl in Hc.
  - unfold push in Hc. destruct (shutdown_ b) eqn:Hs.
    + rewrite orb_true_r in Hc. inversion Hc; subst. exact Hb.
    + rewrite orb_false_r in Hc.
      destruct (size b <? MAX_SIZE) eqn:Hlt; [|discriminate].
      apply Nat.ltb_lt in Hlt. inversion Hc; subst.
      unfold size in *. simpl. rewrite length_app. simpl. lia.
  - rewrite pop_cases in Hc. unfold size in *.
    destruct (data_ b) as [|x q] eqn:Hd.
    + destruct (shutdown_ b); [|discriminate].
      inversion Hc; subst. rewrite Hd. simpl. lia.
    + inversion Hc; subst. simpl in *. lia.
  - inversion Hc; subst. exact Hb.
  - inversion Hc; subst. exact Hb.
  - inversion Hc; subst. exact Hb.
Qed.

Lemma multi_reachable_bounded (b : Buffer) :
  reachable b -> size b <= MAX_SIZE.
Proof.
  induction 1 as [|c b b' r _ IH Hc].
  - unfold size, MAX_SIZE. simpl. lia.
  - eapply multi_attempt_bounded; eassumption.
Qed.

End MultiCapacity.

(** * One producer, one consumer: FIFO, no loss, no duplication *)

Section SpscFifo.

Import Spsc.

(** What the harness needs of a buffer: while it is [open] (no shutdown),
    [push] and [pop] treat [data] as a FIFO queue of at most [cap] items. *)
Context {cv B : Type}.
Variable push : string -> B -> outcome cv B unit.
Variable pop : string -> B -> outcome cv B (bool * string).
Variable data : B -> list string.
Variable open : B -> Prop.
Variable cap : nat.
Variable initial : B.

Hypothesis cap_positive : 0 < cap.
Hypothesis initial_open : open initial /\ data initial = [].
Hypothesis push_open_spec : forall x b, open b ->
  match push x b with
  | Returns b' _ _ =>
      length (data b) < cap /\ data b' = data b ++ [x] /\ open b'
  | Blocks _ => cap <= length (data b)
  end.
Hypothesis pop_open_spec : forall it b, open b ->
  match pop it b with
  | Returns b' (ok, y) _ => ok = true /\ data b = y :: data b' /\ open b'
  | Blocks _ => data b = []
  end.

Local Abbreviation state := (@state B).
Local Abbreviation move := (move push pop).
Local Abbreviation play := (play push pop).
Local Abbreviation conserved := (conserved data open).

Lemma conserved_start (items : list string) :
  conserved items (start initial items).
Proof.
  destruct initial_open as [Ho Hd].
  unfold conserved, start. simpl. rewrite Hd. repeat split; auto.
Qed.

Lemma conserved_move (items : list string) (t : thread) (s s' : state) :
  conserved items s -> move t s = Some s' -> conserved items s'.
Proof.
  intros (Hseq & Hlen & Hop) Hm. destruct t; simpl in Hm.
  - destruct (to_push s) as [|x rest] eqn:Htp; [discriminate|].
    pose proof (push_open_spec x (buffer s) Hop) as Hp.
    destruct (push x (buffer s)) as [c|b' r sig]; [discriminate|].
    destruct Hp as (_ & Hd & Ho). injection Hm as <-.
    unfold conserved. simpl. rewrite Hd. repeat split; [|lia|exact Ho].
    rewrite <- Hseq, <- app_assoc. reflexivity.
  - destruct (pops_left s) as [|n] eqn:Hpl; [discriminate|].
    pose proof (pop_open_spec "" (buffer s) Hop) as Hp.
    destruct (pop "" (buffer s)) as [c|b' [ok y] sig]; [discriminate|].
    destruct Hp as (-> & Hd & Ho). injection Hm as <-.
    unfold conserved. simpl. rewrite length_app. simpl.
    repeat split; [|lia|exact Ho].
    rewrite <- Hseq, Hd, <- app_assoc. reflexivity.
Qed.

Lemma conserved_play (items : list string) (sched : list thread) :
  forall s, conserved items s -> conserved items (play sched s).
Proof.
  induction sched as [|t sched IH]; intros s Hs; simpl.
  - exact Hs.
  - destruct (move t s) as [s'|] eqn:Hm.
    + apply IH. eapply conserved_move; eassumption.
    + apply IH. exact Hs.
Qed.

Lemma move_decreases (items : list string) (t : thread) (s s' : state) :
  conserved items s -> move t s = Some s' -> weight s' < weight s.
Proof.
  intros (_ & _ & Hop) Hm. unfold weight. destruct t; simpl in Hm.
  - destruct (to_push s) as [|x rest]; [discriminate|].
    destruct (push x (buffer s)); [discriminate|].
    injection Hm as <-. simpl. lia.
  - destruct (pops_left s) as [|n]; [discriminate|].
    pose proof (pop_open_spec "" (buffer s) Hop) as Hp.
    destruct (pop "" (buffer s)) as [c|b' [ok y] sig]; [discriminate|].
    destruct Hp as (-> & _ & _). injection Hm as <-. simpl. lia.
Qed.

(** When neither thread can move, everything has been delivered. *)
Lemma stuck_is_finished (items : list string) (s : state) :
  conserved items s ->
  move producer s = None -> move consumer s = None ->
  popped s = items /\ data (buffer s) = [] /\ to_push s = [].
Proof.
  intros (Hseq & Hlen & Hop) Hp Hc. simpl in Hp, Hc.
  assert (Hl := f_equal length Hseq). rewrite !length_app in Hl.
  destruct (pops_left s) as [|n] eqn:Hpl.
  - destruct (data (buffer s)) as [|x q]; [|simpl in Hl; lia].
    destruct (to_push s) as [|y r]; [|simpl in Hl; lia].
    rewrite !app_nil_r in Hseq. auto.
  - pose proof (pop_open_spec "" (buffer s) Hop) as Hpop.
    destruct (pop "" (buffer s)) as [c|b' [[|] y] sig]; try discriminate.
    destruct (to_push s) as [|y r] eqn:Htp; [rewrite Hpop in Hl; simpl in Hl; lia|].
    pose proof (push_open_spec y (buffer s) Hop) as Hpush.
    destruct (push y (buffer s)) as [c'|b' r' sig]; [|discriminate].
    rewrite Hpop in Hpush. simpl in Hpush. lia.
Qed.

Lemma play_alternate (items : list string) :
  forall (b : B) (got : list string),
    open b -> data b = [] ->
    popped (play (alternate (length items))
                 {| buffer := b; to_push := items;
                    pops_left := length items; popped := got |}) =
      got ++ items.
Proof.
  induction items as [|x items IH]; intros b got Hop Hd; simpl.
  - rewrite app_nil_r. reflexivity.
  - pose proof (push_open_spec x b Hop) as Hpush.
    destruct (push x b) as [c|b1 r sig]; [rewrite Hd in Hpush; simpl in Hpush; lia|].
    destruct Hpush as (_ & Hd1 & Hop1). rewrite Hd in Hd1. simpl in Hd1.
    simpl.
    pose proof (pop_open_spec "" b1 Hop1) as Hpop.
    destruct (pop "" b1) as [c|b2 [ok y] sig2]; [congruence|].
    destruct Hpop as (-> & Hd2 & Hop2). rewrite Hd1 in Hd2.
    injection Hd2 as <- Hd2. simpl.
    rewrite IH by auto. rewrite <- app_assoc. reflexivity.
Qed.

Lemma delivers_in_order_open (items : list string) (sched : list thread) :
  delivers_in_order push pop data initial items sched
  /\ open (buffer (play sched (start initial items))).
Proof.
  unfold delivers_in_order.
  pose proof (conserved_play items sched _ (conserved_start items)) as Hs.
  set (s := play sched (start initial items)) in *.
  pose proof Hs as (Hseq & Hlen & Hop).
  split; [|exact Hop].
  split; [exact Hseq|]. split; [exact Hlen|]. split; [|split].
  - intros t s'. apply (move_decreases items). exact Hs.
  - apply stuck_is_finished. exact Hs.
  - destruct initial_open as [Ho Hd]. unfold start.
    rewrite play_alternate by assumption. reflexivity.
Qed.

End SpscFifo.

Section SpscBuffers.

Import Spsc.

Lemma single_is_open_fifo :
  (forall x b, True ->
     match Single.push x b with
     | Returns b' _ _ =>
         length (Single.data_ b) < Single.MAX_SIZE
         /\ Single.data_ b' = Single.data_ b ++ [x] /\ True
     | Blocks _ => Single.MAX_SIZE <= length (Single.data_ b)
     end)
  /\ (forall it b, True ->
       match Single.pop it b with
       | Returns b' (ok, y) _ =>
           ok = true /\ Single.data_ b = y :: Single.data_ b' /\ True
       | Blocks _ => Single.data_ b = []
       end).
Proof.
  split.
  - intros x b _. rewrite single_push_cases. unfold Single.size.
    destruct (length (Single.data_ b) <? Single.MAX_SIZE) eqn:Hlt.
    + apply Nat.ltb_lt in Hlt. auto.
    + apply Nat.ltb_ge in Hlt. exact Hlt.
  - intros it b _. rewrite single_pop_cases.
    destruct (Single.data_ b); auto.
Qed.

Lemma multi_is_open_fifo :
  (forall x b, Multi.shutdown_ b = false ->
     match Multi.push x b with
     | Returns b' _ _ =>
         length (Multi.data_ b) < Multi.MAX_SIZE
         /\ Multi.data_ b' = Multi.data_ b ++ [x]
         /\ Multi.shutdown_ b' = false
     | Blocks _ => Multi.MAX_SIZE <= length (Multi.data_ b)
     end)
  /\ (forall it b, Multi.shutdown_ b = false ->
       match Multi.pop it b with
       | Returns b' (ok, y) _ =>
           ok = true /\ Multi.data_ b = y :: Multi.data_ b'
           /\ Multi.shutdown_ b' = false
       | Blocks _ => Multi.data_ b = []
       end).
Proof.
  split.
  - intros x b Hs. unfold Multi.push, Multi.size. rewrite Hs, orb_false_r.
    destruct (length (Multi.data_ b) <? Multi.MAX_SIZE) eqn:Hlt.
    + apply Nat.ltb_lt in Hlt. auto.
    + apply Nat.ltb_ge in Hlt. exact Hlt.
  - intros it b Hs. rewrite pop_cases, Hs.
    destruct (Multi.data_ b); auto.
Qed.

(** C5: one producer pushes [items] in order into a fresh buffer while one
    consumer pops as many times, the calls interleaving in any way and
    [shutdown()] never being called.  In both buffers: at every moment the
    items popped so far, followed by the queue, followed by the items still
    to push, are [items], so nothing is lost, duplicated or reordered;
    every completed call brings the run closer to its end; the run can
    only stop when all the items have been popped, and then the popped
    sequence is [items]; the schedule that alternates push and pop gets
    there. *)
Theorem spsc_pops_equal_pushes (items : list string) (sched : list thread) :
  delivers_in_order Single.push Single.pop Single.data_
                    Single.initial items sched
  /\ delivers_in_order Multi.push Multi.pop Multi.data_
                       Multi.initial items sched
  /\ Multi.shutdown_
       (buffer (play Multi.push Multi.pop sched (start Multi.initial items)))
     = false.
Proof.
  destruct single_is_open_fifo as [Hsp Hsq].
  destruct multi_is_open_fifo as [Hmp Hmq].
  split.
  - apply (delivers_in_order_open Single.push Single.pop Single.data_
             (fun _ => True) Single.MAX_SIZE Single.initial);
      auto. unfold Single.MAX_SIZE. lia.
  - apply (delivers_in_order_open Multi.push Multi.pop Multi.data_
             (fun b => Multi.shutdown_ b = false) Multi.MAX_SIZE Multi.initial);
      auto. unfold Multi.MAX_SIZE. lia.
Qed.

Lemma spsc_pops_equal_pushes_witness :
  popped (play Single.push Single.pop
            [producer; producer; consumer; producer; consumer; consumer]
            (start Single.initial ["a"; "b"; "c"])) = ["a"; "b"; "c"]
  /\ popped (play Multi.push Multi.pop
               [producer; consumer; producer; producer; consumer; consumer]
               (start Multi.initial ["a"; "b"; "c"])) = ["a"; "b"; "c"].
Proof.
  split.
  - destruct (spsc_pops_equal_pushes ["a"; "b"; "c"]
                [producer; producer; consumer; producer; consumer; consumer])
      as ((_ & _ & _ & Hstuck & _) & _ & _).
    apply Hstuck; reflexivity.
  - destruct (spsc_pops_equal_pushes ["a"; "b"; "c"]
                [producer; consumer; producer; producer; consumer; consumer])
      as (_ & (_ & _ & _ & Hstuck & _) & _).
    apply Hstuck; reflexivity.
Defined.

End SpscBuffers.

(** * The multi producer/consumer demo: every thread ends after shutdown *)

Section DemoWakes.

Import Multi Demo.

Lemma woken_producer_parked (cv : cond) (p p' : Producer) :
  woken_producer p p' ->
  parked_producer cv p' = true -> parked_producer cv p = true.
Proof.
  intros [->|(cv' & Hpc & ->)]; [auto|]. discriminate.
Qed.

Lemma woken_consumer_parked (cv : cond) (k k' : Consumer) :
  woken_consumer k k' ->
  parked_consumer cv k' = true -> parked_consumer cv k = true.
Proof.
  intros [->|[(cv' & Hpc & ->)|(cv' & Hpc & ->)]]; [auto|discriminate..].
Qed.

Lemma woken_producer_rank (p p' : Producer) :
  woken_producer p p' -> producer_rank p' <= producer_rank p.
Proof.
  intros [->|(cv' & Hpc & ->)]; [lia|].
  unfold producer_rank. rewrite Hpc. simpl. lia.
Qed.

Lemma woken_consumer_rank (k k' : Consumer) :
  woken_consumer k k' -> consumer_rank k' <= consumer_rank k.
Proof.
  intros [->|[(cv' & Hpc & ->)|(cv' & Hpc & ->)]]; [lia| |];
    unfold consumer_rank; rewrite Hpc; simpl; lia.
Qed.

Lemma woken_producer_done (p p' : Producer) :
  woken_producer p p' -> producer_done p' = producer_done p.
Proof.
  intros [->|(cv' & Hpc & ->)]; [reflexivity|].
  unfold producer_done. rewrite Hpc. reflexivity.
Qed.

Lemma woken_consumer_done (k k' : Consumer) :
  woken_consumer k k' -> consumer_done k' = consumer_done k.
Proof.
  intros [->|[(cv' & Hpc & ->)|(cv' & Hpc & ->)]]; [reflexivity| |];
    unfold consumer_done; rewrite Hpc; reflexivity.
Qed.

Lemma wake_producer_woken (cv : cond) (p : Producer) :
  woken_producer p (wake_producer cv p).
Proof.
  unfold wake_producer, woken_producer.
  destruct p as [id n d pc]; simpl.
  destruct pc as [|[|cv']| |]; auto.
  simpl. destruct (cond_eqb cv cv'); eauto.
Qed.

Lemma wake_consumer_woken (cv : cond) (k : Consumer) :
  woken_consumer k (wake_consumer cv k).
Proof.
  unfold wake_consumer, woken_consumer.
  destruct k as [id n d pc]; simpl.
  destruct pc as [|[|cv']| |[|cv']| | |]; auto;
    simpl; destruct (cond_eqb cv cv'); eauto.
Qed.

Lemma Forall2_woken_producer_refl (ps : list Producer) :
  Forall2 woken_producer ps ps.
Proof. induction ps; constructor; [left; reflexivity|assumption]. Qed.

Lemma Forall2_woken_consumer_refl (ks : list Consumer) :
  Forall2 woken_consumer ks ks.
Proof. induction ks; constructor; [left; reflexivity|assumption]. Qed.

Lemma woken_producer_trans (p1 p2 p3 : Producer) :
  woken_producer p1 p2 -> woken_producer p2 p3 -> woken_producer p1 p3.
Proof.
  intros H12 [->|(cv & Hpc & ->)]; [exact H12|].
  destruct H12 as [->|(cv' & Hpc' & ->)]; [right; eauto|discriminate].
Qed.

Lemma woken_consumer_trans (k1 k2 k3 : Consumer) :
  woken_consumer k1 k2 -> woken_consumer k2 k3 -> woken_consumer k1 k3.
Proof.
  intros H12 [->|[(cv & Hpc & ->)|(cv & Hpc & ->)]]; [exact H12| |];
    (destruct H12 as [->|[(cv' & Hpc' & ->)|(cv' & Hpc' & ->)]];
     [unfold woken_consumer; eauto|discriminate..]).
Qed.

Lemma wakes_refl (c : config) : wakes c c.
Proof.
  unfold wakes. repeat split;
    auto using Forall2_woken_producer_refl, Forall2_woken_consumer_refl.
Qed.

Lemma wakes_trans (c1 c2 c3 : config) :
  wakes c1 c2 -> wakes c2 c3 -> wakes c1 c3.
Proof.
  intros (Hb & Hr & Hm & Hp & Hk) (Hb' & Hr' & Hm' & Hp' & Hk').
  unfold wakes. repeat split; try congruence.
  - eapply Forall2_trans; [|exact Hp|exact Hp'].
    intros x y z. apply woken_producer_trans.
  - eapply Forall2_trans; [|exact Hk|exact Hk'].
    intros x y z. apply woken_consumer_trans.
Qed.

Lemma wake_all_wakes (cv : cond) (c : config) : wakes c (wake_all cv c).
Proof.
  unfold wakes, wake_all. simpl. repeat split.
  - apply Forall2_fmap_r, Forall_Forall2_diag, Forall_forall.
    intros p _. apply wake_producer_woken.
  - apply Forall2_fmap_r, Forall_Forall2_diag, Forall_forall.
    intros k _. apply wake_consumer_woken.
Qed.

Lemma Forall2_insert_diag {A} (R : A -> A -> Prop) (l : list A) (i : nat)
  (x y : A) :
  (forall z, R z z) -> l !! i = Some x -> R x y -> Forall2 R l (<[i:=y]> l).
Proof.
  intros Hrefl Hl Hxy.
  rewrite <- (list_insert_id l i x Hl) at 1.
  apply Forall2_insert; [|exact Hxy].
  apply Forall_Forall2_diag, Forall_forall. auto.
Qed.

Lemma wake_one_wakes (cv : cond) (chosen : option tid) (c c' : config) :
  wake_one cv chosen c = Some c' -> wakes c c'.
Proof.
  unfold wake_one. intros H. destruct chosen as [[|i|j]|].
  - discriminate.
  - destruct (producers c !! i) as [p|] eqn:Hp; [|discriminate].
    destruct (parked_producer cv p); [|discriminate].
    injection H as <-. unfold wakes. simpl. repeat split.
    + eapply Forall2_insert_diag; [left; reflexivity|exact Hp|].
      apply wake_producer_woken.
    + apply Forall2_woken_consumer_refl.
  - destruct (consumers c !! j) as [k|] eqn:Hk; [|discriminate].
    destruct (parked_consumer cv k); [|discriminate].
    injection H as <-. unfold wakes. simpl. repeat split.
    + apply Forall2_woken_producer_refl.
    + eapply Forall2_insert_diag; [left; reflexivity|exact Hk|].
      apply wake_consumer_woken.
  - destruct (any_parked cv c); [discriminate|].
    injection H as <-. apply wakes_refl.
Qed.

Lemma deliver_wakes (chosen : option tid) (s : notification cond)
  (c c' : config) :
  deliver chosen s c = Some c' -> wakes c c'.
Proof.
  destruct s as [cv|cv]; simpl.
  - apply wake_one_wakes.
  - intros H. injection H as <-. apply wake_all_wakes.
Qed.

Lemma deliver_all_wakes (chosen : option tid) (sig : list (notification cond)) :
  forall c c', deliver_all chosen sig c = Some c' -> wakes c c'.
Proof.
  induction sig as [|s sig IH]; intros c c' H; simpl in H.
  - injection H as <-. apply wakes_refl.
  - destruct (deliver chosen s c) as [c1|] eqn:Hd; [|discriminate].
    eapply wakes_trans; [eapply deliver_wakes; exact Hd|apply IH; exact H].
Qed.

End DemoWakes.

Section DemoWakesKeep.

Import Multi Demo.

Lemma existsb_Forall2 {A} (f : A -> bool) (R : A -> A -> Prop)
  (l l' : list A) :
  (forall x y, R x y -> f y = true -> f x = true) ->
  Forall2 R l l' -> existsb f l' = true -> existsb f l = true.
Proof.
  intros Hf. induction 1 as [|x y l l' Hxy _ IH]; simpl; [auto|].
  rewrite !orb_true_iff. intros [Hy|Hl']; [left; eauto|right; auto].
Qed.

Lemma sum_list_with_Forall2 {A} (f : A -> nat) (R : A -> A -> Prop)
  (l l' : list A) :
  (forall x y, R x y -> f y <= f x) ->
  Forall2 R l l' -> sum_list_with f l' <= sum_list_with f l.
Proof.
  intros Hf. induction 1 as [|x y l l' Hxy _ IH]; simpl; [lia|].
  specialize (Hf x y Hxy). lia.
Qed.

Lemma sum_list_with_insert {A} (f : A -> nat) (l : list A) (i : nat) (x y : A) :
  l !! i = Some x ->
  sum_list_with f (<[i:=y]> l) + f x = sum_list_with f l + f y.
Proof.
  revert i. induction l as [|z l IH]; intros [|i] Hl; simpl in *;
    try discriminate.
  - injection Hl as ->. lia.
  - specialize (IH i Hl). lia.
Qed.

Lemma wakes_any_parked (cv : cond) (c c' : config) :
  wakes c c' -> any_parked cv c' = true -> any_parked cv c = true.
Proof.
  intros (_ & _ & _ & Hp & Hk). unfold any_parked.
  rewrite !orb_true_iff. intros [H|H]; [left|right].
  - eapply existsb_Forall2; [|exact Hp|exact H].
    intros x y. apply woken_producer_parked.
  - eapply existsb_Forall2; [|exact Hk|exact H].
    intros x y. apply woken_consumer_parked.
Qed.

Lemma wakes_producer_done (c c' : config) (i : nat) (p' : Producer) :
  wakes c c' -> producers c' !! i = Some p' ->
  exists p, producers c !! i = Some p /\ producer_done p' = producer_done p.
Proof.
  intros (_ & _ & _ & Hp & _) Hl.
  destruct (Forall2_lookup_r _ _ _ _ _ Hp Hl) as (p & Hlp & Hw).
  exists p. split; [exact Hlp|]. apply woken_producer_done. exact Hw.
Qed.

Lemma wakes_consumer_done (c c' : config) (j : nat) (k' : Consumer) :
  wakes c c' -> consumers c' !! j = Some k' ->
  exists k, consumers c !! j = Some k /\ consumer_done k' = consumer_done k.
Proof.
  intros (_ & _ & _ & _ & Hk) Hl.
  destruct (Forall2_lookup_r _ _ _ _ _ Hk Hl) as (k & Hlk & Hw).
  exists k. split; [exact Hlk|]. apply woken_consumer_done. exact Hw.
Qed.

Lemma wakes_threads_ok (c c' : config) :
  wakes c c' -> threads_ok c -> threads_ok c'.
Proof.
  intros Hw. pose proof Hw as (_ & _ & Hm & Hp & Hk).
  apply Forall2_length in Hp. apply Forall2_length in Hk.
  assert (Hpd : forall n,
    (forall i p, i < n -> producers c !! i = Some p -> producer_done p = true) ->
    forall i p, i < n -> producers c' !! i = Some p -> producer_done p = true).
  { intros n H i p' Hi Hl.
    destruct (wakes_producer_done c c' i p' Hw Hl) as (p & Hlp & ->). eauto. }
  assert (Hkd : forall n,
    (forall j x, j < n -> consumers c !! j = Some x -> consumer_done x = true) ->
    forall j x, j < n -> consumers c' !! j = Some x -> consumer_done x = true).
  { intros n H j k' Hj Hl.
    destruct (wakes_consumer_done c c' j k' Hw Hl) as (k & Hlk & ->). eauto. }
  unfold threads_ok. rewrite Hm, <- Hp, <- Hk.
  destruct (main_pc c); try tauto.
  - intros (H1 & H2 & H3). repeat split; auto. apply Hpd. exact H3.
  - intros (H1 & H2 & H3 & H4). repeat split; auto.
    + intros i p Hl.
      apply (Hpd (S i) (fun i' p0 _ => H3 i' p0) i p); [lia|exact Hl].
    + apply Hkd. exact H4.
  - intros (H1 & H2 & H3 & H4). repeat split; auto.
    + intros i p Hl.
      apply (Hpd (S i) (fun i' p0 _ => H3 i' p0) i p); [lia|exact Hl].
    + intros j x Hl.
      apply (Hkd (S j) (fun j' x0 _ => H4 j' x0) j x); [lia|exact Hl].
Qed.

Lemma wakes_invariant (c c' : config) :
  wakes c c' -> invariant c -> invariant c'.
Proof.
  intros Hw [Hflag Hrun Hpark Hthr Hcap].
  pose proof Hw as (Hb & Hr & Hm & _ & _).
  constructor; rewrite ?Hb, ?Hr, ?Hm; auto.
  - intros cv H. apply Hpark. eapply wakes_any_parked; eassumption.
  - eapply wakes_threads_ok; eassumption.
Qed.

Lemma wakes_rank (c c' : config) : wakes c c' -> rank c' <= rank c.
Proof.
  intros (Hb & _ & Hm & Hp & Hk). unfold rank, main_rank.
  rewrite Hb, Hm.
  pose proof (Forall2_length _ _ _ Hp) as Hlp.
  pose proof (Forall2_length _ _ _ Hk) as Hlk.
  rewrite <- Hlp, <- Hlk.
  pose proof (sum_list_with_Forall2 producer_rank _ _ _
                woken_producer_rank Hp).
  pose proof (sum_list_with_Forall2 consumer_rank _ _ _
                woken_consumer_rank Hk).
  lia.
Qed.

End DemoWakesKeep.

Section DemoThreads.

Import Multi Demo.

Lemma push_facts (item : string) (b b' : Buffer) (r : unit)
  (sig : list (notification cond)) :
  push item b = Returns b' r sig ->
  shutdown_ b' = shutdown_ b
  /\ (size b <= MAX_SIZE -> size b' <= MAX_SIZE)
  /\ length sig <= 1
  /\ (shutdown_ b = true -> b' = b /\ sig = []).
Proof.
  unfold push. destruct (shutdown_ b) eqn:Hs.
  - rewrite orb_true_r. intros H. injection H as <- _ <-. simpl. auto.
  - rewrite orb_false_r. destruct (size b <? MAX_SIZE) eqn:Hlt; [|discriminate].
    apply Nat.ltb_lt in Hlt. intros H. injection H as <- _ <-.
    unfold size in *. simpl. rewrite length_app. simpl.
    repeat split; try lia; discriminate.
Qed.

Lemma push_blocks (item : string) (b : Buffer) (cv : cond) :
  push item b = Blocks cv -> shutdown_ b = false.
Proof.
  unfold push. destruct (shutdown_ b); [|reflexivity].
  rewrite orb_true_r. discriminate.
Qed.

Lemma pop_facts (item : string) (b b' : Buffer) (ok : bool) (it : string)
  (sig : list (notification cond)) :
  pop item b = Returns b' (ok, it) sig ->
  shutdown_ b' = shutdown_ b
  /\ length sig <= 1
  /\ (if ok then size b = S (size b') else b' = b).
Proof.
  rewrite pop_cases. unfold size. destruct (data_ b) as [|x q] eqn:Hd.
  - destruct (shutdown_ b) eqn:Hs; [|discriminate].
    intros H. injection H as <- <- _ <-. simpl. auto.
  - intros H. injection H as <- <- _ <-. simpl. auto.
Qed.

Lemma pop_blocks (item : string) (b : Buffer) (cv : cond) :
  pop item b = Blocks cv -> shutdown_ b = false.
Proof.
  rewrite pop_cases. destruct (data_ b); [|discriminate].
  destruct (shutdown_ b); [discriminate|reflexivity].
Qed.

Lemma produce_step_facts (run : bool) (b b' : Buffer) (p p' : Producer)
  (sig : list (notification cond)) :
  produce_step run b p = Some (p', b', sig) ->
  producer_done p = false
  /\ shutdown_ b' = shutdown_ b
  /\ (size b <= MAX_SIZE -> size b' <= MAX_SIZE)
  /\ length sig <= 1
  /\ (forall cv, parked_producer cv p' = true -> shutdown_ b = false).
Proof.
  unfold produce_step, producer_done.
  destruct (p_pc p) as [|[|cv0]| |] eqn:Hpc; try discriminate.
  - destruct run; intros H; injection H as <- <- <-; simpl;
      repeat split; auto; discriminate.
  - destruct (push (p_data p) b) as [cv1|b1 r1 sig1] eqn:Hpush;
      intros H; injection H as <- <- <-.
    + simpl. repeat split; auto. intros _ _.
      eapply push_blocks; exact Hpush.
    + destruct (push_facts _ _ _ _ _ Hpush) as (H1 & H2 & H3 & _).
      simpl. repeat split; auto. discriminate.
  - intros H; injection H as <- <- <-. simpl. repeat split; auto. discriminate.
Qed.

(** With [running] false and the flag set, a producer only moves towards
    its [return]. *)
Lemma produce_step_rank (b b' : Buffer) (p p' : Producer)
  (sig : list (notification cond)) :
  shutdown_ b = true ->
  produce_step false b p = Some (p', b', sig) ->
  b' = b /\ sig = [] /\ producer_rank p' < producer_rank p.
Proof.
  intros Hs. unfold produce_step, producer_rank.
  destruct (p_pc p) as [|[|cv0]| |] eqn:Hpc; try discriminate.
  - intros H; injection H as <- <- <-. simpl. repeat split; lia.
  - rewrite (push_shutdown_drops _ _ Hs).
    intros H; injection H as <- <- <-. simpl. repeat split; lia.
  - intros H; injection H as <- <- <-. simpl. repeat split; lia.
Qed.

Lemma consume_pop_facts (inpop : phase -> cpc) (yes no : cpc)
  (b b' : Buffer) (k k' : Consumer) (sig : list (notification cond)) :
  consume_pop inpop yes no b k = (k', b', sig) ->
  shutdown_ b' = shutdown_ b
  /\ (size b <= MAX_SIZE -> size b' <= MAX_SIZE)
  /\ length sig <= 1
  /\ (shutdown_ b = false \/
      (c_pc k' = yes /\ size b = S (size b')) \/ (c_pc k' = no /\ b' = b)).
Proof.
  unfold consume_pop.
  destruct (pop (c_data k) b) as [cv1|b1 [ok it] sig1] eqn:Hpop;
    intros H; injection H as <- <- <-.
  - simpl. repeat split; auto. left. eapply pop_blocks; exact Hpop.
  - destruct (pop_facts _ _ _ _ _ _ Hpop) as (H1 & H2 & H3).
    simpl. repeat split; auto.
    + destruct ok; [lia|subst; auto].
    + destruct ok; auto.
Qed.

Lemma consume_pop_parked (inpop : phase -> cpc) (yes no : cpc)
  (b b' : Buffer) (k k' : Consumer) (sig : list (notification cond))
  (cv : cond) :
  parked_consumer cv (c_at yes k) = false ->
  parked_consumer cv (c_at no k) = false ->
  consume_pop inpop yes no b k = (k', b', sig) ->
  parked_consumer cv k' = true -> shutdown_ b = false.
Proof.
  unfold consume_pop. intros Hy Hn.
  destruct (pop (c_data k) b) as [cv1|b1 [ok it] sig1] eqn:Hpop;
    intros H; injection H as <- <- <-.
  - intros _. eapply pop_blocks; exact Hpop.
  - unfold parked_consumer in *. simpl in *.
    destruct ok; congruence.
Qed.

Lemma consume_step_facts (run : bool) (b b' : Buffer) (k k' : Consumer)
  (sig : list (notification cond)) :
  consume_step run b k = Some (k', b', sig) ->
  consumer_done k = false
  /\ shutdown_ b' = shutdown_ b
  /\ (size b <= MAX_SIZE -> size b' <= MAX_SIZE)
  /\ length sig <= 1
  /\ (forall cv, parked_consumer cv k' = true -> shutdown_ b = false).
Proof.
  unfold consume_step, consumer_done.
  destruct (c_pc k) as [|[|cv0]| |[|cv0]| | |] eqn:Hpc; try discriminate.
  - destruct run; intros H; injection H as <- <- <-; simpl;
      repeat split; auto; discriminate.
  - intros H. injection H as H.
    destruct (consume_pop_facts _ _ _ _ _ _ _ _ H) as (H1 & H2 & H3 & _).
    repeat split; auto. intros cv.
    eapply consume_pop_parked; [| |exact H]; reflexivity.
  - destruct run; intros H; injection H as <- <- <-; simpl;
      repeat split; auto; discriminate.
  - intros H. injection H as H.
    destruct (consume_pop_facts _ _ _ _ _ _ _ _ H) as (H1 & H2 & H3 & _).
    repeat split; auto. intros cv.
    eapply consume_pop_parked; [| |exact H]; reflexivity.
  - intros H; injection H as <- <- <-. simpl. repeat split; auto. discriminate.
  - destruct (negb (str_empty (c_data k)));
      intros H; injection H as <- <- <-; simpl; repeat split; auto;
      discriminate.
Qed.

(** With [running] false and the flag set, every action of a consumer
    either takes an item out of the queue or moves it towards its
    [return]. *)
Lemma consume_step_rank (b b' : Buffer) (k k' : Consumer)
  (sig : list (notification cond)) :
  shutdown_ b = true ->
  consume_step false b k = Some (k', b', sig) ->
  consumer_rank k' + 10 * size b' < consumer_rank k + 10 * size b.
Proof.
  intros Hs. unfold consume_step.
  destruct (c_pc k) as [|[|cv0]| |[|cv0]| | |] eqn:Hpc; try discriminate;
    unfold consumer_rank at 2; rewrite Hpc.
  - intros H; injection H as <- <- <-. unfold consumer_rank. simpl. lia.
  - intros H. injection H as H.
    destruct (consume_pop_facts _ _ _ _ _ _ _ _ H)
      as (_ & _ & _ & [Hf|[[Hpc' Hsz]|[Hpc' ->]]]);
      [congruence| |]; unfold consumer_rank; rewrite Hpc'; lia.
  - intros H; injection H as <- <- <-. unfold consumer_rank. simpl. lia.
  - intros H. injection H as H.
    destruct (consume_pop_facts _ _ _ _ _ _ _ _ H)
      as (_ & _ & _ & [Hf|[[Hpc' Hsz]|[Hpc' ->]]]);
      [congruence| |]; unfold consumer_rank; rewrite Hpc'; lia.
  - intros H; injection H as <- <- <-. unfold consumer_rank. simpl. lia.
  - destruct (negb (str_empty (c_data k)));
      intros H; injection H as <- <- <-; unfold consumer_rank; simpl; lia.
Qed.

End DemoThreads.

Section DemoLocalSteps.

Import Multi Demo.

Lemma existsb_insert {A} (f : A -> bool) (l : list A) (i : nat) (y : A) :
  existsb f (<[i:=y]> l) = true -> f y = true \/ existsb f l = true.
Proof.
  revert i. induction l as [|z l IH]; intros [|i]; simpl; auto;
    rewrite !orb_true_iff.
  - intros [H|H]; auto.
  - intros [H|H]; [auto|]. destruct (IH i H); auto.
Qed.

(** Replacing a thread that has not returned leaves the returned ones. *)
Lemma lookup_insert_done {A} (done : A -> bool) (l : list A) (i n : nat)
  (x y : A) :
  l !! i = Some x -> done x = false ->
  (forall j z, j < n -> l !! j = Some z -> done z = true) ->
  forall j z, j < n -> <[i:=y]> l !! j = Some z -> done z = true.
Proof.
  intros Hl Hx Hall j z Hj Hlj. destruct (decide (i = j)) as [->|Hne].
  - specialize (Hall j x Hj Hl). congruence.
  - rewrite list_lookup_insert_ne in Hlj by exact Hne. eauto.
Qed.

Lemma will_notify_before_store (cv : cond) (m : mpc) :
  after_store m = false -> will_notify_all cv m = true.
Proof. destruct m; simpl; congruence. Qed.

Lemma producer_local_invariant (c : config) (i : nat) (p p' : Producer)
  (b' : Buffer) (sig : list (notification cond)) :
  invariant c ->
  producers c !! i = Some p ->
  produce_step (running c) (shared_buffer c) p = Some (p', b', sig) ->
  invariant (set_producers (<[i:=p']> (producers c)) (set_buffer b' c)).
Proof.
  intros [Hflag Hrun Hpark Hthr Hcap] Hl Hstep.
  destruct (produce_step_facts _ _ _ _ _ _ Hstep)
    as (Hnd & Hsd & Hsz & _ & Hpk).
  constructor; simpl; auto.
  - congruence.
  - intros cv. unfold any_parked. simpl. rewrite orb_true_iff.
    intros [H|H].
    + apply existsb_insert in H. destruct H as [H|H].
      * apply will_notify_before_store. rewrite <- Hflag. eauto.
      * apply Hpark. unfold any_parked. rewrite H. reflexivity.
    + apply Hpark. unfold any_parked. rewrite H. apply orb_true_r.
  - unfold threads_ok in *. simpl. rewrite length_insert.
    destruct (main_pc c); try tauto.
    + destruct Hthr as (H1 & H2 & H3). repeat split; auto.
      eapply lookup_insert_done; eassumption.
    + destruct Hthr as (H1 & H2 & H3 & H4). repeat split; auto.
      intros j z Hlj.
      apply (lookup_insert_done producer_done (producers c) i (S j) p p'
               Hl Hnd (fun j0 z0 _ => H3 j0 z0) j z); [lia|exact Hlj].
    + destruct Hthr as (H1 & H2 & H3 & H4). repeat split; auto.
      intros j z Hlj.
      apply (lookup_insert_done producer_done (producers c) i (S j) p p'
               Hl Hnd (fun j0 z0 _ => H3 j0 z0) j z); [lia|exact Hlj].
Qed.

Lemma consumer_local_invariant (c : config) (j : nat) (k k' : Consumer)
  (b' : Buffer) (sig : list (notification cond)) :
  invariant c ->
  consumers c !! j = Some k ->
  consume_step (running c) (shared_buffer c) k = Some (k', b', sig) ->
  invariant (set_consumers (<[j:=k']> (consumers c)) (set_buffer b' c)).
Proof.
  intros [Hflag Hrun Hpark Hthr Hcap] Hl Hstep.
  destruct (consume_step_facts _ _ _ _ _ _ Hstep)
    as (Hnd & Hsd & Hsz & _ & Hpk).
  constructor; simpl; auto.
  - congruence.
  - intros cv. unfold any_parked. simpl. rewrite orb_true_iff.
    intros [H|H].
    + apply Hpark. unfold any_parked. rewrite H. reflexivity.
    + apply existsb_insert in H. destruct H as [H|H].
      * apply will_notify_before_store. rewrite <- Hflag. eauto.
      * apply Hpark. unfold any_parked. rewrite H. apply orb_true_r.
  - unfold threads_ok in *. simpl. rewrite length_insert.
    destruct (main_pc c); try tauto.
    + destruct Hthr as (H1 & H2 & H3 & H4). repeat split; auto.
      eapply lookup_insert_done; eassumption.
    + destruct Hthr as (H1 & H2 & H3 & H4). repeat split; auto.
      intros j0 z Hlj.
      apply (lookup_insert_done consumer_done (consumers c) j (S j0) k k'
               Hl Hnd (fun j1 z0 _ => H4 j1 z0) j0 z); [lia|exact Hlj].
Qed.

Lemma producer_local_rank (c : config) (i : nat) (p p' : Producer)
  (b' : Buffer) (sig : list (notification cond)) :
  invariant c -> shutdown_called c = true ->
  producers c !! i = Some p ->
  produce_step (running c) (shared_buffer c) p = Some (p', b', sig) ->
  rank (set_producers (<[i:=p']> (producers c)) (set_buffer b' c)) < rank c.
Proof.
  intros [Hflag Hrun _ _ _] Hsc Hl Hstep. unfold shutdown_called in Hsc.
  rewrite Hrun in Hstep by (destruct (main_pc c); auto).
  destruct (produce_step_rank _ _ _ _ _ (eq_trans Hflag Hsc) Hstep)
    as (-> & _ & Hlt).
  pose proof (sum_list_with_insert producer_rank _ _ _ p' Hl).
  unfold rank, main_rank. simpl. rewrite length_insert. lia.
Qed.

Lemma consumer_local_rank (c : config) (j : nat) (k k' : Consumer)
  (b' : Buffer) (sig : list (notification cond)) :
  invariant c -> shutdown_called c = true ->
  consumers c !! j = Some k ->
  consume_step (running c) (shared_buffer c) k = Some (k', b', sig) ->
  rank (set_consumers (<[j:=k']> (consumers c)) (set_buffer b' c)) < rank c.
Proof.
  intros [Hflag Hrun _ _ _] Hsc Hl Hstep. unfold shutdown_called in Hsc.
  rewrite Hrun in Hstep by (destruct (main_pc c); auto).
  pose proof (consume_step_rank _ _ _ _ _ (eq_trans Hflag Hsc) Hstep) as Hlt.
  pose proof (sum_list_with_insert consumer_rank _ _ _ k' Hl).
  unfold rank, main_rank. simpl. rewrite length_insert. lia.
Qed.

End DemoLocalSteps.

Section DemoMain.

Import Multi Demo.

Lemma wake_producer_not_parked (cv : cond) (p : Producer) :
  parked_producer cv (wake_producer cv p) = false.
Proof.
  unfold wake_producer, parked_producer.
  destruct p as [id n d pc]; simpl. destruct pc as [|[|cv']| |]; simpl; auto.
  destruct (cond_eqb cv cv') eqn:He; simpl; auto.
Qed.

Lemma wake_consumer_not_parked (cv : cond) (k : Consumer) :
  parked_consumer cv (wake_consumer cv k) = false.
Proof.
  unfold wake_consumer, parked_consumer.
  destruct k as [id n d pc]; simpl.
  destruct pc as [|[|cv']| |[|cv']| | |]; simpl; auto;
    destruct (cond_eqb cv cv') eqn:He; simpl; auto.
Qed.

Lemma existsb_fmap_false {A} (f : A -> bool) (g : A -> A) (l : list A) :
  (forall x, f (g x) = false) -> existsb f (g <$> l) = false.
Proof.
  intros H. induction l as [|x l IH]; [reflexivity|].
  rewrite fmap_cons. simpl. rewrite H, IH. reflexivity.
Qed.

(** After [cv.notify_all()] nobody is parked on [cv]. *)
Lemma wake_all_none_parked (cv : cond) (c : config) :
  any_parked cv (wake_all cv c) = false.
Proof.
  unfold any_parked, wake_all. simpl.
  rewrite !existsb_fmap_false;
    auto using wake_producer_not_parked, wake_consumer_not_parked.
Qed.

Lemma deliver_notify_all_none_parked (chosen : option tid)
  (s : notification cond) (cv : cond) (c c' : config) :
  is_notify_all cv s = true ->
  deliver chosen s c = Some c' -> any_parked cv c' = false.
Proof.
  destruct s as [cv'|cv']; simpl; [discriminate|].
  intros He H. injection H as <-.
  assert (cv = cv') as -> by (destruct cv, cv'; simpl in He; congruence).
  apply wake_all_none_parked.
Qed.

(** [main] is past the [notify_all] calls: a parked thread contradicts the
    invariant. *)
Ltac no_waiter Hpark :=
  let cv := fresh "cv" in
  let H := fresh "H" in
  intros cv H; apply (Hpark cv) in H; discriminate.

Lemma main_step_invariant (chosen : option tid) (c c' : config) :
  invariant c -> main_step chosen c = Some c' -> invariant c'.
Proof.
  intros Hinv Hstep. pose proof Hinv as [Hflag Hrun Hpark Hthr Hcap].
  unfold main_step in Hstep. unfold threads_ok in Hthr.
  destruct (main_pc c) as [i|i| | | |[|s sig]|k|k|] eqn:Hpc.
  - (* creating producers *)
    unfold NUM_PRODUCERS, NUM_CONSUMERS in *.
    destruct (i <=? 3)%Z eqn:Hi; injection Hstep as <-;
      [apply Z.leb_le in Hi|apply Z.leb_gt in Hi];
      constructor; simpl; auto; try discriminate;
      unfold threads_ok; simpl; rewrite ?length_app; simpl;
      unfold NUM_PRODUCERS, NUM_CONSUMERS; lia.
  - (* creating consumers *)
    unfold NUM_PRODUCERS, NUM_CONSUMERS in *.
    destruct (i <=? 2)%Z eqn:Hi; injection Hstep as <-;
      [apply Z.leb_le in Hi|apply Z.leb_gt in Hi];
      constructor; simpl; auto; try discriminate;
      unfold threads_ok; simpl; rewrite ?length_app; simpl;
      unfold NUM_PRODUCERS, NUM_CONSUMERS; lia.
  - injection Hstep as <-. constructor; simpl; auto.
  - injection Hstep as <-. constructor; simpl; auto.
  - (* the store of shutdown() *)
    injection Hstep as <-. constructor; simpl; auto.
    intros cv _. destruct cv; reflexivity.
  - (* shutdown() returns *)
    injection Hstep as <-. constructor; simpl; auto; try no_waiter Hpark.
    unfold threads_ok. simpl. destruct Hthr. repeat split; auto. lia.
  - (* one notify_all of shutdown() *)
    destruct (deliver chosen s c) as [c1|] eqn:Hd; [|discriminate].
    injection Hstep as <-.
    pose proof (deliver_wakes _ _ _ _ Hd) as Hw.
    destruct (wakes_invariant _ _ Hw Hinv) as [Hflag1 Hrun1 Hpark1 Hthr1 Hcap1].
    destruct Hw as (_ & _ & Hm & _ & _). rewrite Hpc in Hm.
    rewrite Hm in *. constructor; simpl; auto.
    + intros cv H.
      change (any_parked cv c1 = true) in H.
      specialize (Hpark1 cv H). simpl in Hpark1.
      apply orb_true_iff in Hpark1. destruct Hpark1 as [Hall|Hrest]; [|exact Hrest].
      rewrite (deliver_notify_all_none_parked _ _ _ _ _ Hall Hd) in H.
      discriminate.
    + unfold threads_ok in *. rewrite Hm in Hthr1. simpl. exact Hthr1.
  - (* joining producers *)
    destruct Hthr as (H1 & H2 & H3).
    destruct (producers c !! k) as [p|] eqn:Hl.
    + destruct (producer_done p) eqn:Hdone; [|discriminate].
      injection Hstep as <-. constructor; simpl; auto; try no_waiter Hpark.
      unfold threads_ok. simpl. repeat split; auto.
      intros i p0 Hi Hli. destruct (decide (i = k)) as [->|Hne].
      * congruence.
      * apply (H3 i); [lia|exact Hli].
    + injection Hstep as <-. constructor; simpl; auto; try no_waiter Hpark.
      unfold threads_ok. simpl. repeat split; auto; try lia.
      intros i p0 Hli. apply (H3 i); [|exact Hli].
      apply lookup_ge_None in Hl. apply lookup_lt_Some in Hli. lia.
  - (* joining consumers *)
    destruct Hthr as (H1 & H2 & H3 & H4).
    destruct (consumers c !! k) as [x|] eqn:Hl.
    + destruct (consumer_done x) eqn:Hdone; [|discriminate].
      injection Hstep as <-. constructor; simpl; auto; try no_waiter Hpark.
      unfold threads_ok. simpl. repeat split; auto.
      intros j x0 Hj Hlj. destruct (decide (j = k)) as [->|Hne].
      * congruence.
      * apply (H4 j); [lia|exact Hlj].
    + injection Hstep as <-. constructor; simpl; auto; try no_waiter Hpark.
      unfold threads_ok. simpl. repeat split; auto.
      intros j x0 Hlj. apply (H4 j); [|exact Hlj].
      apply lookup_ge_None in Hl. apply lookup_lt_Some in Hlj. lia.
  - discriminate.
Qed.

Lemma main_step_rank (chosen : option tid) (c c' : config) :
  shutdown_called c = true -> main_step chosen c = Some c' -> rank c' < rank c.
Proof.
  unfold shutdown_called, main_step. intros Hsc Hstep.
  destruct (main_pc c) as [i|i| | | |[|s sig]|k|k|] eqn:Hpc; try discriminate.
  - injection Hstep as <-. unfold rank, main_rank. rewrite Hpc. simpl. lia.
  - destruct (deliver chosen s c) as [c1|] eqn:Hd; [|discriminate].
    injection Hstep as <-.
    pose proof (deliver_wakes _ _ _ _ Hd) as Hw.
    pose proof (wakes_rank _ _ Hw) as Hle.
    destruct Hw as (_ & _ & Hm & _ & _). rewrite Hpc in Hm.
    unfold rank, main_rank in *. rewrite Hm, Hpc in Hle. rewrite Hpc.
    simpl in *. lia.
  - destruct (producers c !! k) as [p|] eqn:Hl.
    + destruct (producer_done p); [|discriminate]. injection Hstep as <-.
      apply lookup_lt_Some in Hl.
      unfold rank, main_rank. rewrite Hpc. simpl. lia.
    + injection Hstep as <-. unfold rank, main_rank. rewrite Hpc. simpl. lia.
  - destruct (consumers c !! k) as [x|] eqn:Hl.
    + destruct (consumer_done x); [|discriminate]. injection Hstep as <-.
      apply lookup_lt_Some in Hl.
      unfold rank, main_rank. rewrite Hpc. simpl. lia.
    + injection Hstep as <-. unfold rank, main_rank. rewrite Hpc. simpl. lia.
Qed.

End DemoMain.

Section DemoSteps.

Import Multi Demo.

Lemma spurious_wakes (t : tid) (c c' : config) :
  fire (Spurious t) c = Some c' -> wakes c c' /\ rank c' < rank c.
Proof.
  destruct t as [|i|j]; simpl; [discriminate| |].
  - destruct (producers c !! i) as [p|] eqn:Hl; [|discriminate].
    destruct (p_pc p) as [|[|cv]| |] eqn:Hpc; try discriminate.
    intros H. injection H as <-. split.
    + unfold wakes. simpl. repeat split.
      * eapply Forall2_insert_diag; [left; reflexivity|exact Hl|].
        right. eauto.
      * apply Forall2_woken_consumer_refl.
    + pose proof (sum_list_with_insert producer_rank _ _ _
                    (p_at (PPush Trying) p) Hl) as Hsum.
      assert (producer_rank p = 4)
        by (unfold producer_rank; rewrite Hpc; reflexivity).
      assert (producer_rank (p_at (PPush Trying) p) = 3) by reflexivity.
      unfold rank, main_rank. simpl. rewrite length_insert. lia.
  - destruct (consumers c !! j) as [k|] eqn:Hl; [|discriminate].
    destruct (c_pc k) as [|[|cv]| |[|cv]| | |] eqn:Hpc; try discriminate;
      intros H; injection H as <-; split.
    + unfold wakes. simpl. repeat split.
      * apply Forall2_woken_producer_refl.
      * eapply Forall2_insert_diag; [left; reflexivity|exact Hl|].
        right. left. eauto.
    + pose proof (sum_list_with_insert consumer_rank _ _ _
                    (c_at (CWhilePop Trying) k) Hl) as Hsum.
      assert (consumer_rank k = 5)
        by (unfold consumer_rank; rewrite Hpc; reflexivity).
      assert (consumer_rank (c_at (CWhilePop Trying) k) = 4) by reflexivity.
      unfold rank, main_rank. simpl. rewrite length_insert. lia.
    + unfold wakes. simpl. repeat split.
      * apply Forall2_woken_producer_refl.
      * eapply Forall2_insert_diag; [left; reflexivity|exact Hl|].
        right. right. eauto.
    + pose proof (sum_list_with_insert consumer_rank _ _ _
                    (c_at (CIfPop Trying) k) Hl) as Hsum.
      assert (consumer_rank k = 10)
        by (unfold consumer_rank; rewrite Hpc; reflexivity).
      assert (consumer_rank (c_at (CIfPop Trying) k) = 9) by reflexivity.
      unfold rank, main_rank. simpl. rewrite length_insert. lia.
Qed.

Lemma fire_invariant (a : action) (c c' : config) :
  invariant c -> fire a c = Some c' -> invariant c'.
Proof.
  intros Hinv Hf. destruct a as [[|i|j] chosen|t].
  - eapply main_step_invariant; eassumption.
  - simpl in Hf.
    destruct (producers c !! i) as [p|] eqn:Hl; [|discriminate].
    destruct (produce_step (running c) (shared_buffer c) p)
      as [[[p' b'] sig]|] eqn:Hstep; [|discriminate].
    eapply wakes_invariant; [eapply deliver_all_wakes; exact Hf|].
    eapply producer_local_invariant; eassumption.
  - simpl in Hf.
    destruct (consumers c !! j) as [k|] eqn:Hl; [|discriminate].
    destruct (consume_step (running c) (shared_buffer c) k)
      as [[[k' b'] sig]|] eqn:Hstep; [|discriminate].
    eapply wakes_invariant; [eapply deliver_all_wakes; exact Hf|].
    eapply consumer_local_invariant; eassumption.
  - eapply wakes_invariant; [|exact Hinv].
    apply (spurious_wakes t). exact Hf.
Qed.

Lemma fire_rank (a : action) (c c' : config) :
  invariant c -> shutdown_called c = true ->
  fire a c = Some c' -> rank c' < rank c.
Proof.
  intros Hinv Hsc Hf. destruct a as [[|i|j] chosen|t].
  - eapply main_step_rank; eassumption.
  - simpl in Hf.
    destruct (producers c !! i) as [p|] eqn:Hl; [|discriminate].
    destruct (produce_step (running c) (shared_buffer c) p)
      as [[[p' b'] sig]|] eqn:Hstep; [|discriminate].
    pose proof (wakes_rank _ _ (deliver_all_wakes _ _ _ _ Hf)).
    pose proof (producer_local_rank _ _ _ _ _ _ Hinv Hsc Hl Hstep). lia.
  - simpl in Hf.
    destruct (consumers c !! j) as [k|] eqn:Hl; [|discriminate].
    destruct (consume_step (running c) (shared_buffer c) k)
      as [[[k' b'] sig]|] eqn:Hstep; [|discriminate].
    pose proof (wakes_rank _ _ (deliver_all_wakes _ _ _ _ Hf)).
    pose proof (consumer_local_rank _ _ _ _ _ _ Hinv Hsc Hl Hstep). lia.
  - apply (spurious_wakes t). exact Hf.
Qed.

Lemma fire_shutdown_called (a : action) (c c' : config) :
  shutdown_called c = true -> fire a c = Some c' -> shutdown_called c' = true.
Proof.
  unfold shutdown_called. intros Hsc Hf. destruct a as [[|i|j] chosen|t].
  - simpl in Hf. unfold main_step in Hf.
    destruct (main_pc c) as [i|i| | | |[|s sig]|k|k|]; try discriminate.
    + injection Hf as <-. reflexivity.
    + destruct (deliver chosen s c); [|discriminate].
      injection Hf as <-. reflexivity.
    + destruct (producers c !! k) as [p|];
        [destruct (producer_done p); [|discriminate]|];
        injection Hf as <-; reflexivity.
    + destruct (consumers c !! k) as [x|];
        [destruct (consumer_done x); [|discriminate]|];
        injection Hf as <-; reflexivity.
  - simpl in Hf.
    destruct (producers c !! i) as [p|]; [|discriminate].
    destruct (produce_step (running c) (shared_buffer c) p)
      as [[[p' b'] sig]|]; [|discriminate].
    destruct (deliver_all_wakes _ _ _ _ Hf) as (_ & _ & -> & _). exact Hsc.
  - simpl in Hf.
    destruct (consumers c !! j) as [k|]; [|discriminate].
    destruct (consume_step (running c) (shared_buffer c) k)
      as [[[k' b'] sig]|]; [|discriminate].
    destruct (deliver_all_wakes _ _ _ _ Hf) as (_ & _ & -> & _). exact Hsc.
  - destruct (spurious_wakes t c c' Hf) as [(_ & _ & -> & _) _]. exact Hsc.
Qed.

Lemma invariant_init : invariant init.
Proof.
  constructor; simpl; auto; try discriminate.
  - unfold threads_ok, NUM_PRODUCERS. simpl. lia.
  - unfold size, MAX_SIZE. simpl. lia.
Qed.

Lemma exec_invariant (sched : list action) :
  forall c c', invariant c -> exec sched c = Some c' -> invariant c'.
Proof.
  induction sched as [|a sched IH]; intros c c' Hinv H; simpl in H.
  - injection H as <-. exact Hinv.
  - destruct (fire a c) as [c1|] eqn:Hf; [|discriminate].
    eapply IH; [|exact H]. eapply fire_invariant; eassumption.
Qed.

Lemma exec_shutdown_called (sched : list action) :
  forall c c', shutdown_called c = true -> exec sched c = Some c' ->
               shutdown_called c' = true.
Proof.
  induction sched as [|a sched IH]; intros c c' Hsc H; simpl in H.
  - injection H as <-. exact Hsc.
  - destruct (fire a c) as [c1|] eqn:Hf; [|discriminate].
    eapply IH; [|exact H]. eapply fire_shutdown_called; eassumption.
Qed.

Lemma reachable_invariant (c : config) : reachable c -> invariant c.
Proof.
  intros [sched H]. eapply exec_invariant; [apply invariant_init|exact H].
Qed.

(** Once the flag is stored, no execution goes on for ever. *)
Lemma executions_finite (c : config) :
  invariant c -> shutdown_called c = true ->
  Acc (fun c2 c1 => step c1 c2) c.
Proof.
  remember (rank c) as n eqn:Hn. revert c Hn.
  induction n as [n IH] using lt_wf_ind. intros c -> Hinv Hsc.
  constructor. intros c' [a Hf].
  apply (IH (rank c')); auto.
  - eapply fire_rank; eassumption.
  - eapply fire_invariant; eassumption.
  - eapply fire_shutdown_called; eassumption.
Qed.

End DemoSteps.

Section DemoProgress.

Import Multi Demo.

Lemma existsb_lookup {A} (f : A -> bool) (l : list A) :
  existsb f l = true -> exists i x, l !! i = Some x /\ f x = true.
Proof.
  induction l as [|y l IH]; simpl; [discriminate|].
  rewrite orb_true_iff. intros [H|H].
  - exists 0, y. auto.
  - destruct (IH H) as (i & x & Hl & Hx). exists (S i), x. auto.
Qed.

Lemma lookup_existsb {A} (f : A -> bool) (l : list A) (i : nat) (x : A) :
  l !! i = Some x -> f x = true -> existsb f l = true.
Proof.
  revert i. induction l as [|y l IH]; intros [|i] Hl Hx; simpl in *;
    try discriminate; rewrite orb_true_iff.
  - injection Hl as ->. auto.
  - right. eauto.
Qed.

Lemma lookup_forallb {A} (f : A -> bool) (l : list A) :
  (forall i x, l !! i = Some x -> f x = true) -> forallb f l = true.
Proof.
  induction l as [|y l IH]; intros H; simpl; [reflexivity|].
  rewrite (H 0 y eq_refl). apply IH. intros i x. apply (H (S i) x).
Qed.

(** A notification can always be delivered: [notify_one] has somebody to
    choose whenever somebody is parked. *)
Lemma deliver_possible (s : notification cond) (c : config) :
  exists chosen c', deliver chosen s c = Some c'.
Proof.
  destruct s as [cv|cv]; simpl; [|exists None; eauto].
  destruct (any_parked cv c) eqn:Hany.
  - unfold any_parked in Hany. apply orb_true_iff in Hany.
    destruct Hany as [H|H]; apply existsb_lookup in H;
      destruct H as (i & x & Hl & Hx).
    + exists (Some (TProducer i)). simpl. rewrite Hl, Hx. eauto.
    + exists (Some (TConsumer i)). simpl. rewrite Hl, Hx. eauto.
  - exists None. simpl. rewrite Hany. eauto.
Qed.

Lemma deliver_all_possible (sig : list (notification cond)) (c : config) :
  length sig <= 1 -> exists chosen c', deliver_all chosen sig c = Some c'.
Proof.
  destruct sig as [|s [|s' sig]]; simpl; intros Hlen; [| |lia].
  - exists None. eauto.
  - destruct (deliver_possible s c) as (chosen & c' & Hd).
    exists chosen, c'. rewrite Hd. reflexivity.
Qed.

Lemma produce_step_enabled (run : bool) (b : Buffer) (p : Producer) :
  producer_done p = false ->
  (forall cv, parked_producer cv p = false) ->
  exists r, produce_step run b p = Some r.
Proof.
  unfold producer_done, parked_producer, produce_step. intros Hd Hp.
  destruct (p_pc p) as [|[|cv]| |]; try discriminate.
  - destruct run; eauto.
  - destruct (push (p_data p) b); eauto.
  - specialize (Hp cv). destruct cv; discriminate.
  - eauto.
Qed.

Lemma consume_step_enabled (run : bool) (b : Buffer) (k : Consumer) :
  consumer_done k = false ->
  (forall cv, parked_consumer cv k = false) ->
  exists r, consume_step run b k = Some r.
Proof.
  unfold consumer_done, parked_consumer, consume_step. intros Hd Hp.
  destruct (c_pc k) as [|[|cv]| |[|cv]| | |]; try discriminate; eauto;
    try (specialize (Hp cv); destruct cv; discriminate).
  destruct (negb (str_empty (c_data k))); eauto.
Qed.

(** A producer that has not returned can act, once [main] is past the
    [notify_all] calls. *)
Lemma producer_can_act (c : config) (i : nat) (p : Producer) :
  (forall cv, any_parked cv c = false) ->
  producers c !! i = Some p -> producer_done p = false ->
  exists chosen c', fire (Run (TProducer i) chosen) c = Some c'.
Proof.
  intros Hnone Hl Hd.
  destruct (produce_step_enabled (running c) (shared_buffer c) p Hd)
    as ([[p' b'] sig] & Hstep).
  { intros cv. destruct (parked_producer cv p) eqn:Hp; [|reflexivity].
    rewrite <- (Hnone cv). unfold any_parked.
    rewrite (lookup_existsb _ _ _ _ Hl Hp). reflexivity. }
  destruct (produce_step_facts _ _ _ _ _ _ Hstep) as (_ & _ & _ & Hlen & _).
  destruct (deliver_all_possible sig
              (set_producers (<[i:=p']> (producers c)) (set_buffer b' c)) Hlen)
    as (chosen & c' & Hd').
  exists chosen, c'. simpl. rewrite Hl, Hstep. exact Hd'.
Qed.

Lemma consumer_can_act (c : config) (j : nat) (k : Consumer) :
  (forall cv, any_parked cv c = false) ->
  consumers c !! j = Some k -> consumer_done k = false ->
  exists chosen c', fire (Run (TConsumer j) chosen) c = Some c'.
Proof.
  intros Hnone Hl Hd.
  destruct (consume_step_enabled (running c) (shared_buffer c) k Hd)
    as ([[k' b'] sig] & Hstep).
  { intros cv. destruct (parked_consumer cv k) eqn:Hp; [|reflexivity].
    rewrite <- (Hnone cv). unfold any_parked.
    rewrite (lookup_existsb _ _ _ _ Hl Hp). symmetry. apply orb_true_r. }
  destruct (consume_step_facts _ _ _ _ _ _ Hstep) as (_ & _ & _ & Hlen & _).
  destruct (deliver_all_possible sig
              (set_consumers (<[j:=k']> (consumers c)) (set_buffer b' c)) Hlen)
    as (chosen & c' & Hd').
  exists chosen, c'. simpl. rewrite Hl, Hstep. exact Hd'.
Qed.

(** After the store of [shutdown()], as long as a worker has not returned
    or [main] has a [join] left, some thread can take an action that is
    not a spurious wake-up. *)
Lemma some_thread_can_act (c : config) :
  invariant c -> shutdown_called c = true ->
  all_joined c = true
  \/ exists a c', is_spurious a = false /\ fire a c = Some c'.
Proof.
  intros [Hflag Hrun Hpark Hthr Hcap] Hsc.
  unfold shutdown_called in Hsc. unfold threads_ok in Hthr.
  unfold all_joined.
  destruct (main_pc c) as [i|i| | | |[|s sig]|k|k|] eqn:Hpc; try discriminate.
  - right. exists (Run TMain None). eexists. split; [reflexivity|].
    simpl. unfold main_step. rewrite Hpc. reflexivity.
  - right. destruct (deliver_possible s c) as (chosen & c' & Hd).
    exists (Run TMain chosen). eexists. split; [reflexivity|].
    simpl. unfold main_step. rewrite Hpc, Hd. reflexivity.
  - right.
    assert (Hnone : forall cv, any_parked cv c = false).
    { intros cv. destruct (any_parked cv c) eqn:H; [|reflexivity].
      apply Hpark in H. discriminate. }
    destruct (producers c !! k) as [p|] eqn:Hl.
    + destruct (producer_done p) eqn:Hd.
      * exists (Run TMain None). eexists. split; [reflexivity|].
        simpl. unfold main_step. rewrite Hpc, Hl, Hd. reflexivity.
      * destruct (producer_can_act c k p Hnone Hl Hd) as (chosen & c' & Hf).
        exists (Run (TProducer k) chosen), c'. auto.
    + exists (Run TMain None). eexists. split; [reflexivity|].
      simpl. unfold main_step. rewrite Hpc, Hl. reflexivity.
  - right.
    assert (Hnone : forall cv, any_parked cv c = false).
    { intros cv. destruct (any_parked cv c) eqn:H; [|reflexivity].
      apply Hpark in H. discriminate. }
    destruct (consumers c !! k) as [x|] eqn:Hl.
    + destruct (consumer_done x) eqn:Hd.
      * exists (Run TMain None). eexists. split; [reflexivity|].
        simpl. unfold main_step. rewrite Hpc, Hl, Hd. reflexivity.
      * destruct (consumer_can_act c k x Hnone Hl Hd) as (chosen & c' & Hf).
        exists (Run (TConsumer k) chosen), c'. auto.
    + exists (Run TMain None). eexists. split; [reflexivity|].
      simpl. unfold main_step. rewrite Hpc, Hl. reflexivity.
  - left. destruct Hthr as (H1 & H2 & H3 & H4).
    rewrite H1, H2, !Nat.eqb_refl. simpl.
    rewrite (lookup_forallb _ _ H3), (lookup_forallb _ _ H4). reflexivity.
Qed.

(** From any point after the store, some execution reaches the end of
    [main] with all workers joined. *)
Lemma can_finish (c : config) :
  invariant c -> shutdown_called c = true ->
  exists sched c', exec sched c = Some c' /\ all_joined c' = true.
Proof.
  remember (rank c) as n eqn:Hn. revert c Hn.
  induction n as [n IH] using lt_wf_ind. intros c -> Hinv Hsc.
  destruct (some_thread_can_act c Hinv Hsc) as [Hdone|(a & c1 & _ & Hf)].
  - exists [], c. auto.
  - destruct (IH (rank c1)) with (c := c1) as (sched & c' & Hex & Hdone); auto.
    + eapply fire_rank; eassumption.
    + eapply fire_invariant; eassumption.
    + eapply fire_shutdown_called; eassumption.
    + exists (a :: sched), c'. simpl. rewrite Hf. auto.
Qed.

Lemma exec_rank (sched : list action) :
  forall c c', invariant c -> shutdown_called c = true ->
               exec sched c = Some c' -> length sched + rank c' <= rank c.
Proof.
  induction sched as [|a sched IH]; intros c c' Hinv Hsc H; simpl in H.
  - injection H as <-. simpl. lia.
  - destruct (fire a c) as [c1|] eqn:Hf; [|discriminate].
    pose proof (fire_rank _ _ _ Hinv Hsc Hf).
    pose proof (IH c1 c' (fire_invariant _ _ _ Hinv Hf)
                  (fire_shutdown_called _ _ _ Hsc Hf) H).
    simpl. lia.
Qed.

End DemoProgress.

Section DemoTermination.

Import Multi Demo.

Example full_queue_stop_reached :
  exec full_queue_schedule init = Some full_queue_stop.
Proof. vm_compute. reflexivity. Qed.

(** C8: in the demo with 3 producers and 2 consumers on one dual-signal
    buffer, take any point of any execution at which [main] has cleared
    [running] and [shutdown()] has stored the flag.  From there every
    execution is finite (each action, spurious wake-ups included, lowers
    [rank]); at every point reached, either all five workers have returned
    and [main] is past all its joins, or some thread can take an action
    that is not a spurious wake-up, so no worker stays parked in a wait;
    and an execution that ends with all five workers joined exists. *)
Theorem workers_all_return_after_shutdown (c : config) :
  reachable c -> shutdown_called c = true ->
  running c = false /\ shutdown_ (shared_buffer c) = true
  /\ Acc (fun c2 c1 => step c1 c2) c
  /\ (forall sched c', exec sched c = Some c' ->
        length sched + rank c' <= rank c
        /\ (all_joined c' = true
            \/ exists a c'', is_spurious a = false /\ fire a c' = Some c''))
  /\ (exists sched c', exec sched c = Some c' /\ all_joined c' = true).
Proof.
  intros Hreach Hsc. pose proof (reachable_invariant c Hreach) as Hinv.
  split; [|split; [|split; [|split]]].
  - apply (inv_running c Hinv). unfold shutdown_called in Hsc.
    destruct (main_pc c); auto.
  - rewrite (inv_flag c Hinv). exact Hsc.
  - apply executions_finite; assumption.
  - intros sched c' Hex. split.
    + apply exec_rank; assumption.
    + apply some_thread_can_act.
      * eapply exec_invariant; eassumption.
      * eapply exec_shutdown_called; eassumption.
  - apply can_finish; assumption.
Qed.

Lemma workers_all_return_after_shutdown_witness :
  running full_queue_stop = false
  /\ shutdown_ (shared_buffer full_queue_stop) = true
  /\ Acc (fun c2 c1 => step c1 c2) full_queue_stop
  /\ (forall sched c', exec sched full_queue_stop = Some c' ->
        length sched + rank c' <= rank full_queue_stop
        /\ (all_joined c' = true
            \/ exists a c'', is_spurious a = false /\ fire a c' = Some c''))
  /\ (exists sched c',
        exec sched full_queue_stop = Some c' /\ all_joined c' = true).
Proof.
  apply (workers_all_return_after_shutdown full_queue_stop).
  - exists full_queue_schedule. vm_compute. reflexivity.
  - reflexivity.
Defined.

End DemoTermination.

(** * Invariants over every reachable state *)

Section ReachableStates.

Import Demo.

(** C4: with [MAX_SIZE = 10] in both buffers, every state reachable from a
    fresh buffer by completed calls has [0 <= length <= MAX_SIZE]; every
    call ([push], [pop], [try_pop], [shutdown], [size], [empty]) that
    starts within the bound ends within it, so [push] never takes the
    length past [MAX_SIZE]; and the buffer shared by the threads of the
    demo stays within the bound in every execution. *)
Theorem length_never_exceeds_capacity :
  Single.MAX_SIZE = 10 /\ Multi.MAX_SIZE = 10
  /\ (forall b, Single.reachable b ->
        0 <= Single.size b /\ Single.size b <= Single.MAX_SIZE)
  /\ (forall b, Multi.reachable b ->
        0 <= Multi.size b /\ Multi.size b <= Multi.MAX_SIZE)
  /\ (forall c b b' r,
        Single.size b <= Single.MAX_SIZE ->
        Single.attempt c b = Some (b', r) ->
        Single.size b' <= Single.MAX_SIZE)
  /\ (forall c b b' r,
        Multi.size b <= Multi.MAX_SIZE ->
        Multi.attempt c b = Some (b', r) ->
        Multi.size b' <= Multi.MAX_SIZE)
  /\ (forall item b b' r sig,
        Single.push item b = Returns b' r sig ->
        Single.size b' <= Single.MAX_SIZE)
  /\ (forall item b b' r sig,
        Multi.size b <= Multi.MAX_SIZE ->
        Multi.push item b = Returns b' r sig ->
        Multi.size b' <= Multi.MAX_SIZE)
  /\ (forall c, reachable c ->
        Multi.size (shared_buffer c) <= Multi.MAX_SIZE).
Proof.
  split; [reflexivity|]. split; [reflexivity|].
  split; [|split; [|split; [|split; [|split; [|split]]]]].
  - intros b Hb. split; [lia|]. apply single_reachable_bounded. exact Hb.
  - intros b Hb. split; [lia|]. apply multi_reachable_bounded. exact Hb.
  - intros c b b' r. apply single_attempt_bounded.
  - intros c b b' r. apply multi_attempt_bounded.
  - intros item b b' r sig. rewrite single_push_cases.
    destruct (Single.size b <? Single.MAX_SIZE) eqn:Hlt; [|discriminate].
    apply Nat.ltb_lt in Hlt. intros H. injection H as <- _ _.
    unfold Single.size in *. simpl. rewrite length_app. simpl. lia.
  - intros item b b' r sig Hb H.
    destruct (push_facts _ _ _ _ _ H) as (_ & Hsz & _). auto.
  - intros c Hc. apply (inv_capacity c). apply reachable_invariant. exact Hc.
Qed.

Lemma length_never_exceeds_capacity_witness :
  (0 <= Single.size {| Single.data_ := ["a"; "b"] |}
   /\ Single.size {| Single.data_ := ["a"; "b"] |} <= Single.MAX_SIZE)
  /\ (0 <= Multi.size {| Multi.data_ := ["a"]; Multi.shutdown_ := true |}
      /\ Multi.size {| Multi.data_ := ["a"]; Multi.shutdown_ := true |}
         <= Multi.MAX_SIZE)
  /\ Multi.size (shared_buffer full_queue_stop) <= Multi.MAX_SIZE.
Proof.
  destruct length_never_exceeds_capacity
    as (_ & _ & Hs & Hm & _ & _ & _ & _ & Hd).
  split; [|split].
  - apply Hs.
    apply (Single.reach_call (Single.Push "b") {| Single.data_ := ["a"] |}
             _ Single.RVoid); [|reflexivity].
    apply (Single.reach_call (Single.Push "a") Single.initial
             _ Single.RVoid); [|reflexivity].
    apply Single.reach_initial.
  - apply Hm.
    apply (Multi.reach_call Multi.Shutdown
             {| Multi.data_ := ["a"]; Multi.shutdown_ := false |}
             _ Multi.RVoid); [|reflexivity].
    apply (Multi.reach_call (Multi.Push "a") Multi.initial
             _ Multi.RVoid); [|reflexivity].
    apply Multi.reach_initial.
  - apply Hd. exists full_queue_schedule. vm_compute. reflexivity.
Defined.

End ReachableStates.

Section ShutdownFlag.

Import Multi Demo.

(** C7: the shutdown flag of the dual-signal buffer is monotonic: a fresh
    buffer has it false, [shutdown()] sets it, and no completed call
    ([push], [pop], [shutdown], [size], [empty]), hence no sequence of
    calls, takes it from true back to false; in the demo, once the flag of
    the shared buffer is true it is true at every later point of every
    execution. *)
Theorem shutdown_flag_monotonic :
  shutdown_ initial = false
  /\ (forall b, shutdown_ (fst (shutdown b)) = true)
  /\ (forall c b b' r,
        attempt c b = Some (b', r) -> shutdown_ b = true -> shutdown_ b' = true)
  /\ (forall cs b b' rs,
        run cs b = Some (b', rs) -> shutdown_ b = true -> shutdown_ b' = true)
  /\ (forall c sched c',
        reachable c -> exec sched c = Some c' ->
        shutdown_ (shared_buffer c) = true ->
        shutdown_ (shared_buffer c') = true).
Proof.
  split; [reflexivity|]. split; [reflexivity|]. split; [|split].
  - intros c b b' r. apply attempt_keeps_shutdown.
  - intros cs b b' rs. apply run_keeps_shutdown.
  - intros c sched c' Hc Hex Hs.
    pose proof (reachable_invariant c Hc) as Hinv.
    rewrite (inv_flag c' (exec_invariant sched c c' Hinv Hex)).
    apply (exec_shutdown_called sched c c'); [|exact Hex].
    unfold shutdown_called. rewrite <- (inv_flag c Hinv). exact Hs.
Qed.

Lemma shutdown_flag_monotonic_witness :
  shutdown_ {| data_ := ["b"]; shutdown_ := true |} = true
  /\ shutdown_ {| data_ := []; shutdown_ := true |} = true
  /\ shutdown_ (shared_buffer first_pop) = true.
Proof.
  split; [|split].
  - apply (proj1 (proj2 (proj2 shutdown_flag_monotonic)) (Pop "")
             {| data_ := ["a"; "b"]; shutdown_ := true |}
             {| data_ := ["b"]; shutdown_ := true |} (RItem true "a"));
      reflexivity.
  - apply (proj1 (proj2 (proj2 (proj2 shutdown_flag_monotonic)))
             [Push "c"; Pop ""; Shutdown; Pop ""; Pop ""; Size; Empty]
             {| data_ := ["a"; "b"]; shutdown_ := true |}
             {| data_ := []; shutdown_ := true |}
             [RVoid; RItem true "a"; RVoid; RItem true "b"; RItem false "";
              RSize 0; REmpty true]);
      reflexivity.
  - apply (proj2 (proj2 (proj2 (proj2 shutdown_flag_monotonic)))
             full_queue_stop first_pop_schedule first_pop);
      [|reflexivity..].
    exists full_queue_schedule. vm_compute. reflexivity.
Defined.

End ShutdownFlag.

(** * Call histories: FIFO over any sequence of calls *)

Section Histories.

Import History.

(** X1: for every sequence of calls on the single-signal buffer that runs
    to completion ([push], [pop], [try_pop], [size], [empty] in any mix),
    the items handed back by the successful [pop]/[try_pop] calls, in call
    order, followed by the queue left behind, are the queue at the start
    followed by the pushed items in call order.  In particular the final
    size is the initial size plus the pushes minus the successful pops. *)
Theorem single_history_is_fifo (cs : list Single.call) :
  forall (b b' : Single.Buffer) (rs : list Single.reply),
    single_run cs b = Some (b', rs) ->
    single_received rs ++ Single.data_ b' = Single.data_ b ++ single_pushed cs
    /\ length rs = length cs
    /\ Single.size b' + length (single_received rs) =
         Single.size b + length (single_pushed cs).
Proof.
  assert (Hseq : forall b b' rs, single_run cs b = Some (b', rs) ->
            single_received rs ++ Single.data_ b' =
              Single.data_ b ++ single_pushed cs /\ length rs = length cs).
  { induction cs as [|c cs IH]; intros b b' rs Hrun; simpl in Hrun.
    - injection Hrun as <- <-. simpl. rewrite app_nil_r. auto.
    - destruct (Single.attempt c b) as [[b1 r]|] eqn:Hc; [|discriminate].
      destruct (single_run cs b1) as [[b2 rs2]|] eqn:Hcs; [|discriminate].
      injection Hrun as <- <-. destruct (IH _ _ _ Hcs) as [IHs IHl].
      split; [|simpl; lia].
      destruct c as [x|it|it| |]; simpl in Hc.
      + rewrite single_push_cases in Hc.
        destruct (Single.size b <? Single.MAX_SIZE); [|discriminate].
        injection Hc as <- <-. simpl in *. rewrite IHs, <- app_assoc.
        reflexivity.
      + rewrite single_pop_cases in Hc.
        destruct (Single.data_ b) as [|y q]; [discriminate|].
        injection Hc as <- <-. simpl in *. rewrite IHs. reflexivity.
      + unfold Single.try_pop in Hc.
        destruct (Single.data_ b) as [|y q] eqn:Hd; injection Hc as <- <-;
          simpl in *; rewrite IHs; [rewrite Hd|]; reflexivity.
      + injection Hc as <- <-. simpl. exact IHs.
      + injection Hc as <- <-. simpl. exact IHs. }
  intros b b' rs Hrun. destruct (Hseq b b' rs Hrun) as [Hs Hl].
  split; [exact Hs|]. split; [exact Hl|].
  apply (f_equal length) in Hs. rewrite !length_app in Hs.
  unfold Single.size. lia.
Qed.

Lemma single_history_is_fifo_witness :
  single_received
    [Single.RItem false "old"; Single.RVoid; Single.RVoid; Single.RSize 2;
     Single.RItem true "a"; Single.RVoid; Single.RItem true "b"]
    ++ Single.data_ {| Single.data_ := ["c"] |} =
  Single.data_ Single.initial
    ++ single_pushed
         [Single.TryPop "old"; Single.Push "a"; Single.Push "b"; Single.Size;
          Single.Pop ""; Single.Push "c"; Single.TryPop ""].
Proof.
  apply (single_history_is_fifo
           [Single.TryPop "old"; Single.Push "a"; Single.Push "b"; Single.Size;
            Single.Pop ""; Single.Push "c"; Single.TryPop ""]
           Single.initial {| Single.data_ := ["c"] |}
           [Single.RItem false "old"; Single.RVoid; Single.RVoid;
            Single.RSize 2; Single.RItem true "a"; Single.RVoid;
            Single.RItem true "b"]).
  reflexivity.
Defined.

(** X2: for every sequence of calls on the dual-signal buffer that runs to
    completion, the items handed back by the successful [pop] calls, in
    call order, followed by the queue left behind, are the queue at the
    start followed by the items pushed before the first [shutdown()] (none
    at all when the flag was already set): what is pushed before shutdown
    is delivered in order, what is pushed after it is dropped. *)
Theorem multi_history_is_fifo_until_shutdown (cs : list Multi.call) :
  forall (b b' : Multi.Buffer) (rs : list Multi.reply),
    Multi.run cs b = Some (b', rs) ->
    multi_received rs ++ Multi.data_ b' =
      Multi.data_ b
        ++ (if Multi.shutdown_ b then [] else multi_pushed_before_shutdown cs).
Proof.
  induction cs as [|c cs IH]; intros b b' rs Hrun; simpl in Hrun.
  - injection Hrun as <- <-. simpl.
    destruct (Multi.shutdown_ b); rewrite app_nil_r; reflexivity.
  - destruct (Multi.attempt c b) as [[b1 r]|] eqn:Hc; [|discriminate].
    destruct (Multi.run cs b1) as [[b2 rs2]|] eqn:Hcs; [|discriminate].
    injection Hrun as <- <-. specialize (IH _ _ _ Hcs).
    destruct c as [x|it| | |]; simpl in Hc.
    + destruct (Multi.shutdown_ b) eqn:Hs.
      * rewrite (push_shutdown_drops x b Hs) in Hc. injection Hc as <- <-.
        rewrite Hs in IH. exact IH.
      * unfold Multi.push in Hc. rewrite Hs, orb_false_r in Hc.
        destruct (Multi.size b <? Multi.MAX_SIZE); [|discriminate].
        injection Hc as <- <-. simpl in *. rewrite IH, <- app_assoc.
        reflexivity.
    + rewrite pop_cases in Hc.
      destruct (Multi.data_ b) as [|y q] eqn:Hd.
      * destruct (Multi.shutdown_ b) eqn:Hs; [|discriminate].
        injection Hc as <- <-. simpl. rewrite Hs, Hd in IH. exact IH.
      * injection Hc as <- <-. simpl in *. rewrite IH.
        destruct (Multi.shutdown_ b); reflexivity.
    + injection Hc as <- <-. simpl in *. rewrite IH.
      destruct (Multi.shutdown_ b); reflexivity.
    + injection Hc as <- <-. simpl. exact IH.
    + injection Hc as <- <-. simpl. exact IH.
Qed.

Lemma multi_history_is_fifo_until_shutdown_witness :
  multi_received
    [Multi.RVoid; Multi.RVoid; Multi.RItem true "a"; Multi.RVoid; Multi.RVoid;
     Multi.RItem true "b"; Multi.RItem false "b"]
    ++ Multi.data_ {| Multi.data_ := []; Multi.shutdown_ := true |} =
  Multi.data_ Multi.initial
    ++ (if Multi.shutdown_ Multi.initial then []
        else multi_pushed_before_shutdown
               [Multi.Push "a"; Multi.Push "b"; Multi.Pop ""; Multi.Shutdown;
                Multi.Push "c"; Multi.Pop "a"; Multi.Pop "b"]).
Proof.
  apply (multi_history_is_fifo_until_shutdown
           [Multi.Push "a"; Multi.Push "b"; Multi.Pop ""; Multi.Shutdown;
            Multi.Push "c"; Multi.Pop "a"; Multi.Pop "b"]).
  reflexivity.
Defined.

(** X3: once the shutdown flag of the dual-signal buffer is set, no call
    parks any more: every sequence of calls runs to completion, the flag
    stays set, nothing is added to the queue, and the items handed back
    followed by the queue left behind are the queue at the start. *)
Theorem multi_nothing_parks_after_shutdown (cs : list Multi.call) :
  forall b : Multi.Buffer,
    Multi.shutdown_ b = true ->
    exists b' rs,
      Multi.run cs b = Some (b', rs)
      /\ Multi.shutdown_ b' = true
      /\ Multi.data_ b = multi_received rs ++ Multi.data_ b'.
Proof.
  induction cs as [|c cs IH]; intros b Hs.
  - exists b, []. auto.
  - assert (Hc : exists b1 r, Multi.attempt c b = Some (b1, r)).
    { destruct c as [x|it| | |]; simpl; eauto.
      - rewrite (push_shutdown_drops x b Hs). eauto.
      - rewrite pop_cases, Hs. destruct (Multi.data_ b); eauto. }
    destruct Hc as (b1 & r & Hc).
    pose proof (attempt_keeps_shutdown c b b1 r Hc Hs) as Hs1.
    destruct (IH b1 Hs1) as (b' & rs & Hrun & Hs' & Hd).
    exists b', (r :: rs). simpl. rewrite Hc, Hrun.
    split; [reflexivity|]. split; [exact Hs'|].
    pose proof (multi_history_is_fifo_until_shutdown (c :: cs) b b' (r :: rs))
      as Hh.
    simpl in Hh. rewrite Hc, Hrun, Hs, app_nil_r in Hh.
    symmetry. apply Hh. reflexivity.
Qed.

Lemma multi_nothing_parks_after_shutdown_witness :
  exists b' rs,
    Multi.run [Multi.Pop ""; Multi.Push "z"; Multi.Pop ""; Multi.Pop ""]
              {| Multi.data_ := ["a"]; Multi.shutdown_ := true |}
      = Some (b', rs)
    /\ Multi.shutdown_ b' = true
    /\ Multi.data_ {| Multi.data_ := ["a"]; Multi.shutdown_ := true |} =
         multi_received rs ++ Multi.data_ b'.
Proof.
  apply (multi_nothing_parks_after_shutdown
           [Multi.Pop ""; Multi.Push "z"; Multi.Pop ""; Multi.Pop ""]
           {| Multi.data_ := ["a"]; Multi.shutdown_ := true |}).
  reflexivity.
Defined.

End Histories.

(** * The multi producer/consumer demo: what every execution keeps *)

Section DemoPreservation.

Import Multi Demo.

(** To show that a property of configurations is kept by every action, it
    is enough to look at notifications, at the three kinds of thread on
    their own, and at spurious wake-ups. *)
Lemma fire_preserves (P : config -> Prop) :
  (forall c c', wakes c c' -> P c -> P c') ->
  (forall c i p p' b' sig,
      invariant c -> P c -> producers c !! i = Some p ->
      produce_step (running c) (shared_buffer c) p = Some (p', b', sig) ->
      P (set_producers (<[i:=p']> (producers c)) (set_buffer b' c))) ->
  (forall c j k k' b' sig,
      invariant c -> P c -> consumers c !! j = Some k ->
      consume_step (running c) (shared_buffer c) k = Some (k', b', sig) ->
      P (set_consumers (<[j:=k']> (consumers c)) (set_buffer b' c))) ->
  (forall c chosen c',
      invariant c -> P c -> main_step chosen c = Some c' -> P c') ->
  forall a c c', invariant c -> P c -> fire a c = Some c' -> P c'.
Proof.
  intros Hw Hp Hk Hm a c c' Hinv HP Hf. destruct a as [[|i|j] chosen|t].
  - eapply Hm; eassumption.
  - simpl in Hf.
    destruct (producers c !! i) as [p|] eqn:Hl; [|discriminate].
    destruct (produce_step (running c) (shared_buffer c) p)
      as [[[p' b'] sig]|] eqn:Hstep; [|discriminate].
    eapply Hw; [eapply deliver_all_wakes; exact Hf|]. eapply Hp; eassumption.
  - simpl in Hf.
    destruct (consumers c !! j) as [k|] eqn:Hl; [|discriminate].
    destruct (consume_step (running c) (shared_buffer c) k)
      as [[[k' b'] sig]|] eqn:Hstep; [|discriminate].
    eapply Hw; [eapply deliver_all_wakes; exact Hf|]. eapply Hk; eassumption.
  - eapply Hw; [|exact HP]. apply (spurious_wakes t). exact Hf.
Qed.

Lemma exec_preserves (P : config -> Prop) :
  (forall a c c', invariant c -> P c -> fire a c = Some c' -> P c') ->
  forall sched c c', invariant c -> P c -> exec sched c = Some c' -> P c'.
Proof.
  intros Hstep. induction sched as [|a sched IH]; intros c c' Hinv HP H;
    simpl in H.
  - injection H as <-. exact HP.
  - destruct (fire a c) as [c1|] eqn:Hf; [|discriminate].
    eapply IH; [| |exact H].
    + eapply fire_invariant; eassumption.
    + eapply Hstep; eassumption.
Qed.

Lemma exec_append (s1 s2 : list action) :
  forall c c1 c2,
    exec s1 c = Some c1 -> exec s2 c1 = Some c2 -> exec (s1 ++ s2) c = Some c2.
Proof.
  induction s1 as [|a s1 IH]; intros c c1 c2 H1 H2; simpl in *.
  - injection H1 as ->. exact H2.
  - destruct (fire a c) as [c'|]; [|discriminate]. eapply IH; eassumption.
Qed.

End DemoPreservation.

Section DemoNoDeadlock.

Import Multi Demo DemoLedger.

(** Before its joins [main] never waits for anybody. *)
Lemma main_advances (c : config) :
  invariant c -> shutdown_called c = false ->
  exists c', fire (Run TMain None) c = Some c'
             /\ prelude_rank (main_pc c') < prelude_rank (main_pc c).
Proof.
  intros [_ _ _ Hthr _] Hsc. unfold shutdown_called in Hsc.
  unfold threads_ok in Hthr. simpl. unfold main_step.
  destruct (main_pc c) as [i|i| | | |sig|k|k|] eqn:Hpc; try discriminate.
  - unfold NUM_PRODUCERS in *.
    destruct (i <=? 3)%Z eqn:Hi; eexists; (split; [reflexivity|]); simpl;
      [apply Z.leb_le in Hi|apply Z.leb_gt in Hi];
      unfold NUM_PRODUCERS, NUM_CONSUMERS; lia.
  - unfold NUM_CONSUMERS in *.
    destruct (i <=? 2)%Z eqn:Hi; eexists; (split; [reflexivity|]); simpl;
      [apply Z.leb_le in Hi|apply Z.leb_gt in Hi];
      unfold NUM_PRODUCERS, NUM_CONSUMERS; lia.
  - eexists. split; [reflexivity|]. simpl. lia.
  - eexists. split; [reflexivity|]. simpl. lia.
  - eexists. split; [reflexivity|]. simpl. lia.
Qed.

Lemma main_reaches_store (c : config) :
  invariant c ->
  exists sched c', exec sched c = Some c' /\ shutdown_called c' = true.
Proof.
  remember (prelude_rank (main_pc c)) as n eqn:Hn. revert c Hn.
  induction n as [n IH] using lt_wf_ind. intros c -> Hinv.
  destruct (shutdown_called c) eqn:Hsc.
  - exists [], c. auto.
  - destruct (main_advances c Hinv Hsc) as (c1 & Hf & Hlt).
    destruct (IH _ Hlt c1 eq_refl (fire_invariant _ _ _ Hinv Hf))
      as (sched & c' & Hex & Hsc').
    exists (Run TMain None :: sched), c'.
    split; [|exact Hsc']. simpl in *. rewrite Hf. exact Hex.
Qed.

(** X4: the multi producer/consumer demo never reaches a configuration
    from which it cannot terminate: from every configuration of every
    execution, shutdown or not, some continuation ends with [main] past
    all its joins and the five workers returned. *)
Theorem multi_demo_can_always_finish (c : config) :
  reachable c ->
  exists sched c', exec sched c = Some c' /\ all_joined c' = true.
Proof.
  intros Hreach. pose proof (reachable_invariant c Hreach) as Hinv.
  destruct (main_reaches_store c Hinv) as (s1 & c1 & Hex1 & Hsc1).
  destruct (can_finish c1 (exec_invariant s1 c c1 Hinv Hex1) Hsc1)
    as (s2 & c2 & Hex2 & Hdone).
  exists (s1 ++ s2), c2. split; [|exact Hdone].
  eapply exec_append; eassumption.
Qed.

Lemma multi_demo_can_always_finish_witness :
  exists sched c',
    exec sched DemoSamples.consumers_parked = Some c'
    /\ all_joined c' = true.
Proof.
  apply (multi_demo_can_always_finish DemoSamples.consumers_parked).
  exists DemoSamples.consumers_parked_schedule. vm_compute. reflexivity.
Defined.

End DemoNoDeadlock.

Section DemoShape.

Import Multi Demo.

(** What one action of [main] changes, apart from its own program point:
    it delivers a notification, creates a thread, clears [running], or
    stores the shutdown flag. *)
Lemma main_step_shape (chosen : option tid) (c c' : config) :
  main_step chosen c = Some c' ->
  exists c1 pc,
    wakes c c1
    /\ (c' = set_main pc c1
        \/ (exists i, c' = set_main pc
              (set_producers (producers c1 ++ [mkProducer i 0 "" PWhile]) c1))
        \/ (exists i, c' = set_main pc
              (set_consumers (consumers c1 ++ [mkConsumer i 0 "" CWhile]) c1))
        \/ c' = set_main pc (set_running false c1)
        \/ c' = set_main pc (set_buffer (shutdown_store (shared_buffer c1)) c1)).
Proof.
  unfold main_step. intros H.
  destruct (main_pc c) as [i|i| | | |[|s sig]|k|k|].
  - destruct (i <=? NUM_PRODUCERS)%Z; injection H as <-;
      exists c; eexists; (split; [apply wakes_refl|]); eauto.
  - destruct (i <=? NUM_CONSUMERS)%Z; injection H as <-;
      exists c; eexists; (split; [apply wakes_refl|]); eauto 6.
  - injection H as <-. exists c. eexists. split; [apply wakes_refl|]. eauto.
  - injection H as <-. exists c. eexists. split; [apply wakes_refl|]. eauto 6.
  - injection H as <-. exists c. eexists. split; [apply wakes_refl|].
    do 4 right. reflexivity.
  - injection H as <-. exists c. eexists. split; [apply wakes_refl|]. eauto.
  - destruct (deliver chosen s c) as [c1|] eqn:Hd; [|discriminate].
    injection H as <-. exists c1. eexists.
    split; [eapply deliver_wakes; exact Hd|]. eauto.
  - destruct (producers c !! k) as [p|];
      [destruct (producer_done p); [|discriminate]|];
      injection H as <-; exists c; eexists;
      (split; [apply wakes_refl|]); eauto.
  - destruct (consumers c !! k) as [x|];
      [destruct (consumer_done x); [|discriminate]|];
      injection H as <-; exists c; eexists;
      (split; [apply wakes_refl|]); eauto.
  - discriminate.
Qed.

(** Preservation along executions of a property that does not look at
    [main]'s program point. *)
Lemma reachable_preserves (P : config -> Prop) :
  P init ->
  (forall c c', wakes c c' -> P c -> P c') ->
  (forall c i p p' b' sig,
      invariant c -> P c -> producers c !! i = Some p ->
      produce_step (running c) (shared_buffer c) p = Some (p', b', sig) ->
      P (set_producers (<[i:=p']> (producers c)) (set_buffer b' c))) ->
  (forall c j k k' b' sig,
      invariant c -> P c -> consumers c !! j = Some k ->
      consume_step (running c) (shared_buffer c) k = Some (k', b', sig) ->
      P (set_consumers (<[j:=k']> (consumers c)) (set_buffer b' c))) ->
  (forall c pc, P c -> P (set_main pc c)) ->
  (forall c i, P c ->
      P (set_producers (producers c ++ [mkProducer i 0 "" PWhile]) c)) ->
  (forall c i, P c ->
      P (set_consumers (consumers c ++ [mkConsumer i 0 "" CWhile]) c)) ->
  (forall c, P c -> P (set_running false c)) ->
  (forall c, P c -> P (set_buffer (shutdown_store (shared_buffer c)) c)) ->
  forall c, reachable c -> P c.
Proof.
  intros Hi Hw Hp Hk Hpc Hnp Hnk Hstop Hstore c [sched Hex].
  apply (exec_preserves P) with (sched := sched) (c := init);
    [|apply invariant_init|exact Hi|exact Hex].
  apply fire_preserves; auto.
  intros c0 chosen c0' _ HP Hm.
  destruct (main_step_shape _ _ _ Hm)
    as (c1 & pc & Hwk & [->|[[i ->]|[[i ->]|[->| ->]]]]);
    apply Hpc; [|apply Hnp|apply Hnk|apply Hstop|apply Hstore];
    eapply Hw; eassumption.
Qed.

End DemoShape.

Section DemoDrained.

Import Multi Demo DemoLedger.

Lemma produce_step_after_shutdown (run : bool) (b b' : Buffer)
  (p p' : Producer) (sig : list (notification cond)) :
  shutdown_ b = true ->
  produce_step run b p = Some (p', b', sig) -> b' = b.
Proof.
  intros Hs. unfold produce_step.
  destruct (p_pc p) as [|[|cv0]| |]; try discriminate.
  - destruct run; intros H; injection H as _ <- _; reflexivity.
  - rewrite (push_shutdown_drops _ _ Hs). intros H.
    injection H as _ <- _. reflexivity.
  - intros H; injection H as _ <- _. reflexivity.
Qed.

(** A consumer returns only from a [pop] that found the queue empty and
    the flag set; on such a buffer no action of a consumer changes it. *)
Lemma consume_step_done (run : bool) (b b' : Buffer) (k k' : Consumer)
  (sig : list (notification cond)) :
  consume_step run b k = Some (k', b', sig) ->
  (consumer_done k' = true ->
   shutdown_ b = true /\ data_ b = [] /\ b' = b)
  /\ (shutdown_ b = true -> data_ b = [] -> b' = b).
Proof.
  unfold consume_step, consumer_done.
  destruct (c_pc k) as [|[|cv0]| |[|cv0]| | |]; try discriminate.
  - destruct run; intros H; injection H as <- <- _; simpl;
      (split; [discriminate|auto]).
  - unfold consume_pop. rewrite pop_cases.
    destruct (data_ b) as [|x q] eqn:Hd.
    + destruct (shutdown_ b) eqn:Hs; intros H; injection H as <- <- _; simpl;
        split; auto; discriminate.
    + intros H; injection H as <- <- _; simpl. split; discriminate.
  - destruct run; intros H; injection H as <- <- _; simpl;
      (split; [discriminate|auto]).
  - unfold consume_pop. rewrite pop_cases.
    destruct (data_ b) as [|x q] eqn:Hd.
    + destruct (shutdown_ b) eqn:Hs; intros H; injection H as <- <- _; simpl;
        split; auto; discriminate.
    + intros H; injection H as <- <- _; simpl. split; discriminate.
  - intros H; injection H as <- <- _. simpl. split; [discriminate|auto].
  - destruct (negb (str_empty (c_data k)));
      intros H; injection H as <- <- _; simpl; split; auto; discriminate.
Qed.

Lemma existsb_snoc {A} (f : A -> bool) (l : list A) (x : A) :
  existsb f (l ++ [x]) = existsb f l || f x.
Proof.
  rewrite existsb_app. simpl. rewrite orb_false_r. reflexivity.
Qed.

Lemma reachable_drained (c : config) : reachable c -> drained c.
Proof.
  apply (reachable_preserves drained); unfold drained; simpl; auto.
  - intros c0 c' Hw HP Hex. pose proof Hw as (-> & _ & _ & _ & Hk).
    apply HP. eapply existsb_Forall2; [|exact Hk|exact Hex].
    intros x y Hxy. rewrite (woken_consumer_done _ _ Hxy). auto.
  - intros c0 i p p' b' sig _ HP _ Hstep Hex.
    destruct (HP Hex) as [Hs Hd].
    rewrite (produce_step_after_shutdown _ _ _ _ _ _ Hs Hstep). auto.
  - intros c0 j k k' b' sig _ HP _ Hstep Hex.
    destruct (consume_step_done _ _ _ _ _ _ Hstep) as [Hnew Hold].
    apply existsb_insert in Hex. destruct Hex as [Hex|Hex].
    + destruct (Hnew Hex) as (Hs & Hd & ->). auto.
    + destruct (HP Hex) as [Hs Hd]. rewrite (Hold Hs Hd). auto.
  - intros c0 i HP. rewrite existsb_snoc. simpl. rewrite orb_false_r.
    exact HP.
  - intros c0 HP Hex. destruct (HP Hex) as [_ Hd]. auto.
Qed.

(** X5: in the multi producer/consumer demo, from the moment one consumer
    has returned from [consume] the flag is set and the shared queue is
    empty, and stays so; in particular the size [main] prints after the
    joins ("Final buffer size") is always 0. *)
Theorem multi_demo_ends_with_empty_buffer (c : config) :
  reachable c ->
  (existsb consumer_done (consumers c) = true ->
   shutdown_ (shared_buffer c) = true /\ data_ (shared_buffer c) = [])
  /\ (all_joined c = true -> size (shared_buffer c) = 0).
Proof.
  intros Hreach. pose proof (reachable_drained c Hreach) as Hd.
  split; [exact Hd|]. unfold all_joined.
  destruct (main_pc c); try discriminate.
  rewrite !andb_true_iff, Nat.eqb_eq. intros [[[_ Hlen] _] Hall].
  destruct (consumers c) as [|k ks] eqn:Hks; [discriminate|].
  simpl in Hall. apply andb_true_iff in Hall. destruct Hall as [Hk _].
  unfold drained in Hd. rewrite Hks in Hd. simpl in Hd. rewrite Hk in Hd.
  destruct (Hd eq_refl) as [_ Hdata]. unfold size. rewrite Hdata.
  reflexivity.
Qed.

End DemoDrained.

Section DemoSampleRuns.

Import Multi Demo DemoSamples.

Lemma multi_demo_ends_with_empty_buffer_witness :
  (existsb consumer_done (consumers dropped_push_end) = true ->
   shutdown_ (shared_buffer dropped_push_end) = true
   /\ data_ (shared_buffer dropped_push_end) = [])
  /\ (all_joined dropped_push_end = true ->
      size (shared_buffer dropped_push_end) = 0).
Proof.
  apply (multi_demo_ends_with_empty_buffer dropped_push_end).
  exists dropped_push_schedule. vm_compute. reflexivity.
Defined.

End DemoSampleRuns.

Section DemoLedgerProofs.

Import Multi Demo DemoLedger.

Lemma str_empty_true (s : string) : str_empty s = true -> s = "".
Proof. destruct s; [reflexivity|discriminate]. Qed.

Lemma Zsum_app {A} (f : A -> Z) (l1 l2 : list A) :
  Zsum f (l1 ++ l2) = (Zsum f l1 + Zsum f l2)%Z.
Proof. induction l1 as [|x l1 IH]; simpl; [reflexivity|]. rewrite IH. lia. Qed.

Lemma Zsum_insert {A} (f : A -> Z) (l : list A) (i : nat) (x y : A) :
  l !! i = Some x ->
  Zsum f (<[i:=y]> l) = (Zsum f l - f x + f y)%Z.
Proof.
  revert i. induction l as [|z l IH]; intros [|i] Hl; simpl in *;
    try discriminate.
  - injection Hl as ->. lia.
  - rewrite (IH i Hl). lia.
Qed.

Lemma Zsum_Forall2 {A} (f : A -> Z) (R : A -> A -> Prop) (l l' : list A) :
  (forall x y, R x y -> f y = f x) ->
  Forall2 R l l' -> Zsum f l' = Zsum f l.
Proof.
  intros Hf. induction 1 as [|x y l l' Hxy _ IH]; simpl; [reflexivity|].
  rewrite IH, (Hf x y Hxy). reflexivity.
Qed.


Lemma Forall_Forall2 {A} (P Q : A -> Prop) (R : A -> A -> Prop)
  (l l' : list A) :
  (forall x y, R x y -> P x -> Q y) ->
  Forall2 R l l' -> Forall P l -> Forall Q l'.
Proof.
  intros H. induction 1 as [|x y l l' Hxy _ IH]; intros HP; [constructor|].
  apply Forall_cons in HP. destruct HP as [Hx Hl].
  constructor; eauto.
Qed.

Lemma woken_producer_ledger (p p' : Producer) :
  woken_producer p p' ->
  p_count p' = p_count p /\ pending p' = pending p
  /\ (producer_ok p -> producer_ok p').
Proof.
  intros [->|(cv & Hpc & ->)]; [auto|].
  unfold producer_ok, pending. rewrite Hpc. simpl. auto.
Qed.

Lemma woken_consumer_ledger (run : bool) (k k' : Consumer) :
  woken_consumer k k' ->
  c_count k' = c_count k /\ held k' = held k
  /\ (consumer_ok run k -> consumer_ok run k').
Proof.
  intros [->|[(cv & Hpc & ->)|(cv & Hpc & ->)]]; [auto| |];
    unfold consumer_ok, held; rewrite Hpc; simpl; auto.
Qed.

(** [consumer_ok] survives [running.store(false)]. *)
Lemma consumer_ok_stop (run : bool) (k : Consumer) :
  consumer_ok run k -> consumer_ok false k.
Proof.
  unfold consumer_ok. intros [Hc Hk]. split; [exact Hc|].
  destruct (c_pc k); auto. destruct Hk. auto.
Qed.

Lemma produce_step_ledger (run : bool) (b b' : Buffer) (p p' : Producer)
  (sig : list (notification cond)) :
  producer_ok p ->
  Forall (fun x => str_empty x = false) (data_ b) ->
  produce_step run b p = Some (p', b', sig) ->
  producer_ok p'
  /\ Forall (fun x => str_empty x = false) (data_ b')
  /\ (p_count p - pending p + Z.of_nat (size b') - Z.of_nat (size b)
      <= p_count p' - pending p')%Z
  /\ (shutdown_ b = false ->
      (p_count p - pending p + Z.of_nat (size b') - Z.of_nat (size b)
       = p_count p' - pending p')%Z).
Proof.
  intros [Hc Hd] Hq. unfold produce_step, producer_ok, pending in *.
  destruct (p_pc p) as [|[|cv0]| |] eqn:Hpc; try discriminate.
  - destruct run; intros H; injection H as <- <- _; simpl;
      repeat split; auto; lia.
  - unfold push. destruct (shutdown_ b) eqn:Hs.
    + rewrite orb_true_r. intros H. injection H as <- <- _. simpl.
      repeat split; auto; try lia; discriminate.
    + rewrite orb_false_r. destruct (size b <? MAX_SIZE); intros H;
        injection H as <- <- _; simpl.
      * unfold size. simpl. rewrite length_app. simpl.
        repeat split; auto; try lia.
        apply Forall_app. split; [exact Hq|]. constructor; auto.
      * repeat split; auto; lia.
  - intros H; injection H as <- <- _. simpl. repeat split; auto; lia.
Qed.

Lemma consume_pop_ledger (run : bool) (inpop : phase -> cpc) (yes no : cpc)
  (b b' : Buffer) (k k' : Consumer) (sig : list (notification cond)) :
  (0 <= c_count k)%Z -> c_data k = "" ->
  Forall (fun x => str_empty x = false) (data_ b) ->
  consume_pop inpop yes no b k = (k', b', sig) ->
  (0 <= c_count k')%Z
  /\ Forall (fun x => str_empty x = false) (data_ b')
  /\ (c_count k' + held k' + Z.of_nat (size b')
      = c_count k + held k + Z.of_nat (size b))%Z
  /\ ((exists ph, c_pc k' = inpop ph) /\ c_data k' = ""
      \/ c_pc k' = yes
      \/ c_pc k' = no /\ c_data k' = "").
Proof.
  intros Hc Hd Hq. unfold consume_pop. rewrite pop_cases.
  unfold held, size. rewrite Hd.
  destruct (data_ b) as [|x q] eqn:Hdb.
  - destruct (shutdown_ b); intros H; injection H as <- <- _; simpl;
      rewrite ?Hdb, ?Hd; simpl; repeat split; eauto.
  - intros H; injection H as <- <- _. simpl.
    apply Forall_cons in Hq. destruct Hq as [Hx Hq]. rewrite Hx.
    repeat split; auto. lia.
Qed.

Lemma consume_step_ledger (run : bool) (b b' : Buffer) (k k' : Consumer)
  (sig : list (notification cond)) :
  consumer_ok run k ->
  Forall (fun x => str_empty x = false) (data_ b) ->
  consume_step run b k = Some (k', b', sig) ->
  consumer_ok run k'
  /\ Forall (fun x => str_empty x = false) (data_ b')
  /\ (c_count k' + held k' + Z.of_nat (size b')
      = c_count k + held k + Z.of_nat (size b))%Z.
Proof.
  intros [Hc Hk] Hq. unfold consume_step, consumer_ok.
  destruct (c_pc k) as [|[|cv0]| |[|cv0]| | |] eqn:Hpc; try discriminate.
  - destruct run; intros H; injection H as <- <- _; unfold held; simpl;
      rewrite Hk; repeat split; auto; discriminate.
  - destruct Hk as [Hk Hrun]. intros H. injection H as H.
    destruct (consume_pop_ledger run _ _ _ _ _ _ _ _ Hc Hk Hq H)
      as (Hc' & Hq' & Hbal & [[[ph Hpc'] Hd']|[Hpc'|[Hpc' Hd']]]);
      rewrite Hpc'; auto.
  - destruct run; intros H; injection H as <- <- _; unfold held; simpl.
    + destruct (str_empty (c_data k)) eqn:He.
      * repeat split; auto. apply str_empty_true. exact He.
      * specialize (Hk eq_refl). discriminate.
    + repeat split; auto.
  - intros H. injection H as H.
    destruct (consume_pop_ledger run _ _ _ _ _ _ _ _ Hc Hk Hq H)
      as (Hc' & Hq' & Hbal & [[[ph Hpc'] Hd']|[Hpc'|[Hpc' Hd']]]);
      rewrite Hpc'; auto.
  - intros H; injection H as <- <- _. unfold held. simpl. rewrite Hk.
    repeat split; auto.
  - unfold held. destruct (str_empty (c_data k)) eqn:He; simpl;
      intros H; injection H as <- <- _; simpl.
    + rewrite He. repeat split; auto. apply str_empty_true. exact He.
    + repeat split; auto; lia.
Qed.

Lemma reachable_ledger (c : config) : reachable c -> ledger c.
Proof.
  apply (reachable_preserves ledger).
  - constructor.
    + constructor.
    + constructor.
    + constructor.
    + unfold consumed, in_flight, produced, size. simpl. lia.
    + intros _. unfold consumed, in_flight, produced, size. simpl. lia.
  - (* notifications *)
    intros c0 c' (Hb & Hr & _ & Hp & Hk) [Hq Hps Hks Hup Hex].
    assert (Hpc : Zsum p_count (producers c') = Zsum p_count (producers c0)).
    { eapply Zsum_Forall2; [|exact Hp]. intros x y Hxy.
      apply (woken_producer_ledger x y Hxy). }
    assert (Hpp : Zsum pending (producers c') = Zsum pending (producers c0)).
    { eapply Zsum_Forall2; [|exact Hp]. intros x y Hxy.
      apply (woken_producer_ledger x y Hxy). }
    assert (Hkc : Zsum c_count (consumers c') = Zsum c_count (consumers c0)).
    { eapply Zsum_Forall2; [|exact Hk]. intros x y Hxy.
      apply (woken_consumer_ledger true x y Hxy). }
    assert (Hkh : Zsum held (consumers c') = Zsum held (consumers c0)).
    { eapply Zsum_Forall2; [|exact Hk]. intros x y Hxy.
      apply (woken_consumer_ledger true x y Hxy). }
    constructor; unfold consumed, in_flight, produced in *;
      rewrite ?Hb, ?Hr, ?Hpc, ?Hpp, ?Hkc, ?Hkh; auto.
    + eapply Forall_Forall2; [|exact Hp|exact Hps]. intros x y Hxy.
      apply (woken_producer_ledger x y Hxy).
    + eapply Forall_Forall2; [|exact Hk|exact Hks]. intros x y Hxy.
      apply (woken_consumer_ledger (running c0) x y Hxy).
  - (* a producer *)
    intros c0 i p p' b' sig Hinv [Hq Hps Hks Hup Hex] Hl Hstep.
    destruct (produce_step_ledger _ _ _ _ _ _
                (Forall_lookup_1 _ _ _ _ Hps Hl) Hq Hstep)
      as (Hok & Hq' & Hle & Heq).
    destruct (produce_step_facts _ _ _ _ _ _ Hstep) as (_ & Hsd & _).
    pose proof (Zsum_insert p_count _ _ _ p' Hl) as H1.
    pose proof (Zsum_insert pending _ _ _ p' Hl) as H2.
    constructor; unfold consumed, in_flight, produced in *; simpl; auto.
    + apply Forall_insert; assumption.
    + lia.
    + intros Hs. rewrite Hsd in Hs. specialize (Hex Hs).
      specialize (Heq Hs). lia.
  - (* a consumer *)
    intros c0 j k k' b' sig Hinv [Hq Hps Hks Hup Hex] Hl Hstep.
    destruct (consume_step_ledger _ _ _ _ _ _
                (Forall_lookup_1 _ _ _ _ Hks Hl) Hq Hstep)
      as (Hok & Hq' & Hbal).
    destruct (consume_step_facts _ _ _ _ _ _ Hstep) as (_ & Hsd & _).
    pose proof (Zsum_insert c_count _ _ _ k' Hl) as H1.
    pose proof (Zsum_insert held _ _ _ k' Hl) as H2.
    constructor; unfold consumed, in_flight, produced in *; simpl; auto.
    + apply Forall_insert; assumption.
    + lia.
    + intros Hs. rewrite Hsd in Hs. specialize (Hex Hs). lia.
  - intros c0 pc [Hq Hps Hks Hup Hex]. constructor; auto.
  - (* a new producer *)
    intros c0 i [Hq Hps Hks Hup Hex].
    assert (Hnew : pending (mkProducer i 0 "" PWhile) = 0%Z) by reflexivity.
    constructor; unfold consumed, in_flight, produced in *; simpl;
      rewrite ?Zsum_app; simpl; rewrite ?Hnew; auto.
    + apply Forall_app. split; [exact Hps|]. constructor; [|constructor].
      split; simpl; [lia|discriminate].
    + lia.
    + intros Hs. specialize (Hex Hs). lia.
  - (* a new consumer *)
    intros c0 i [Hq Hps Hks Hup Hex].
    assert (Hnew : held (mkConsumer i 0 "" CWhile) = 0%Z) by reflexivity.
    constructor; unfold consumed, in_flight, produced in *; simpl;
      rewrite ?Zsum_app; simpl; rewrite ?Hnew; auto.
    + apply Forall_app. split; [exact Hks|]. constructor; [|constructor].
      split; simpl; [lia|reflexivity].
    + lia.
    + intros Hs. specialize (Hex Hs). lia.
  - (* running.store(false) *)
    intros c0 [Hq Hps Hks Hup Hex]. constructor; auto. simpl.
    eapply Forall_impl; [exact Hks|]. intros k. apply consumer_ok_stop.
  - (* the store of shutdown() *)
    intros c0 [Hq Hps Hks Hup Hex]. constructor; auto. simpl. discriminate.
Qed.

End DemoLedgerProofs.

Section DemoLedgerTheorems.

Import Multi Demo DemoLedger DemoSamples.




(** X7: in the multi producer/consumer demo a consumer never loses a
    message it has popped: the messages in the queue are never empty
    strings (so the test [!data.empty()] never skips one), a consumer that
    is inside [pop] or has returned has an empty [data] (so [pop] never
    overwrites a message), and a consumer that reaches the [if] holding a
    message finds [running] false (so it goes on to process it). *)
Theorem multi_demo_consumer_keeps_its_message
  (c : config) (j : nat) (k : Consumer) :
  reachable c -> consumers c !! j = Some k ->
  Forall (fun x => str_empty x = false) (data_ (shared_buffer c))
  /\ (forall ph, c_pc k = CWhilePop ph \/ c_pc k = CIfPop ph -> c_data k = "")
  /\ (c_pc k = CDone -> c_data k = "")
  /\ (c_pc k = CIf -> str_empty (c_data k) = false -> running c = false).
Proof.
  intros Hreach Hl. destruct (reachable_ledger c Hreach) as [Hq _ Hks _ _].
  destruct (Forall_lookup_1 _ _ _ _ Hks Hl) as [_ Hk].
  split; [exact Hq|]. split; [|split].
  - intros ph [Hpc|Hpc]; rewrite Hpc in Hk; [destruct Hk|]; auto.
  - intros Hpc. rewrite Hpc in Hk. exact Hk.
  - intros Hpc. rewrite Hpc in Hk. exact Hk.
Qed.

Lemma multi_demo_consumer_keeps_its_message_witness :
  Forall (fun x => str_empty x = false) (data_ (shared_buffer first_pop))
  /\ (forall ph,
        CIf = CWhilePop ph \/ CIf = CIfPop ph -> "P1_Msg_0" = "")
  /\ (CIf = CDone -> "P1_Msg_0" = "")
  /\ (CIf = CIf -> str_empty "P1_Msg_0" = false -> running first_pop = false).
Proof.
  apply (multi_demo_consumer_keeps_its_message first_pop 0
           {| c_id := 1; c_count := 0; c_data := "P1_Msg_0"; c_pc := CIf |}).
  - exists (full_queue_schedule ++ first_pop_schedule). vm_compute.
    reflexivity.
  - reflexivity.
Defined.

End DemoLedgerTheorems.

(** * The single producer/consumer demo *)

Section SingleDemoProofs.

Import Single SingleDemo SingleDemoSamples.

Local Arguments messages : simpl never.

Ltac break_in H :=
  repeat match type of H with
  | context [match ?x with _ => _ end] =>
      lazymatch x with
      | context [match _ with _ => _ end] => fail
      | _ => destruct x eqn:?
      end
  end.

Ltac unfold_demo_in H :=
  cbv [fire main_step produce_step consume_step deliver_all deliver wake_one
       wake_producer wake_consumer producer_parked consumer_parked
       producer_done consumer_done p_at c_at c_enter
       set_buffer set_running set_producer set_consumer set_main
       shared_buffer running producer consumer main_pc
       p_id p_count p_data p_pc c_id c_count c_data c_pc
       orb andb negb] in H.

Ltac fire_cases c a H :=
  destruct c as [[q] run [pid pn pd ppc] [cid cn cd cpc] mpc];
  destruct a as [[| |] chosen|[| |]];
  unfold_demo_in H;
  try rewrite single_push_cases in H; try rewrite single_pop_cases in H;
  cbv [empty size data_] in H;
  break_in H; try discriminate H;
  try (injection H as <-); subst;
  cbv [producer_parked consumer_parked producer_done consumer_done
       pending processing] in *;
  cbn in *;
  repeat match goal with
  | E : (_ <? _) = true |- _ => apply Nat.ltb_lt in E
  | E : (_ <? _) = false |- _ => apply Nat.ltb_ge in E
  | E : (_ <=? _) = true |- _ => apply Nat.leb_le in E
  | E : (_ <=? _) = false |- _ => apply Nat.leb_gt in E
  end.

Ltac refuted H :=
  exfalso; unfold_demo_in H;
  try rewrite single_push_cases in H; try rewrite single_pop_cases in H;
  cbv [empty size data_] in H; cbn in H;
  break_in H; discriminate H.

Lemma fire_capacity (a : action) (c c' : config) :
  size (shared_buffer c) <= MAX_SIZE ->
  fire a c = Some c' -> size (shared_buffer c') <= MAX_SIZE.
Proof.
  intros Hcap H. fire_cases c a H;
    rewrite ?length_app; cbn; unfold size, MAX_SIZE in *; cbn in *; lia.
Qed.

Lemma fire_lifecycle (a : action) (c c' : config) :
  lifecycle c -> fire a c = Some c' -> lifecycle c'.
Proof.
  intros [H1 H2 H3 H4 H5 H6 H7] H. fire_cases c a H.
  all: constructor; cbn; unfold size, pending, producer_done, consumer_done in *;
    cbn in *; rewrite ?length_app; cbn.
  all: try (intuition (try discriminate; try congruence; try lia); fail).
  all: destruct ppc; cbn in *;
    intuition (try discriminate; try congruence; try lia).
Qed.
Lemma fire_no_lost_wakeup (a : action) (c c' : config) :
  size (shared_buffer c) <= MAX_SIZE ->
  no_lost_wakeup c -> fire a c = Some c' -> no_lost_wakeup c'.
Proof.
  intros Hcap [H1 H2] H. fire_cases c a H.
  all: split; cbn; unfold size, MAX_SIZE in *; cbn in *;
    rewrite ?length_app; cbn;
    intuition (try discriminate; try congruence; try lia).
Qed.

Lemma messages_snoc (first len : nat) :
  messages first (S len) =
    messages first len ++ [message 1 (Z.of_nat (first + len))].
Proof.
  unfold messages. rewrite seq_S, map_app. reflexivity.
Qed.

Lemma length_messages (first len : nat) : length (messages first len) = len.
Proof. unfold messages. rewrite length_map, length_seq. reflexivity. Qed.

Lemma messages_cons (first len : nat) :
  messages first (S len) =
    message 1 (Z.of_nat first) :: messages (S first) len.
Proof. reflexivity. Qed.

Ltac order_goal :=
  unfold in_order; cbn; unfold size, MAX_SIZE in *; cbn in *;
  rewrite ?length_app; cbn;
  repeat match goal with
  | E : ?n = ?n -> _ |- _ => specialize (E eq_refl)
  end;
  repeat split;
  try assumption; try lia; try congruence; try discriminate;
  try (intros _);
  try (subst; rewrite ?messages_snoc; repeat f_equal; lia).

Lemma fire_in_order (a : action) (c c' : config) :
  lifecycle c -> in_order c -> fire a c = Some c' -> in_order c'.
Proof.
  intros [L1 L2 L3 L4 L5 L6 L7]
         (first & len & Hd & Hc & Hp & Hid & Hpd & Hcd & Hcap) H.
  fire_cases c a H.
  all: try (destruct ppc as [| |[|]| |]); try (destruct cpc as [| | |[|]| |]);
    cbn in *.
  all: try (exfalso; intuition congruence; fail).
  all: try (exists first, len; order_goal; fail).
  all: try (exists first, (S len); order_goal; fail).
  all: try (exists (S first), len; order_goal; fail).
  all: try (destruct len as [|len]; [discriminate Hd|];
            rewrite messages_cons in Hd; injection Hd as -> ->;
            exists first, len; order_goal; fail).
Qed.

Lemma fire_hung (a : action) (c c' : config) :
  hung c = true -> fire a c = Some c' ->
  hung c' = true /\ finished c' = false /\ consumer_done c' = false.
Proof.
  intros Hh H.
  destruct c as [[q] run [pid pn pd ppc] [cid cn cd cpc] mpc].
  destruct run, ppc as [| |[|]| |], q, cpc as [| | |[|]| |], mpc;
    try discriminate Hh.
  all: destruct a as [[| |] [[| |]|]|[| |]]; cbv in H; try discriminate H;
    injection H as <-; repeat split.
Qed.

Lemma stuck_cases (c : config) :
  lifecycle c -> no_lost_wakeup c -> size (shared_buffer c) <= MAX_SIZE ->
  stuck c ->
  finished c = true \/ (hung c = true /\ consumer_parked c = true).
Proof.
  intros [L1 L2 L3 L4 L5 L6 L7] [W1 W2] Hcap Hst.
  pose proof (Hst (Run TMain None) eq_refl) as Sm.
  pose proof (Hst (Run TProducer None) eq_refl) as Sp0.
  pose proof (Hst (Run TProducer (Some TConsumer)) eq_refl) as Sp1.
  pose proof (Hst (Run TConsumer None) eq_refl) as Sc0.
  pose proof (Hst (Run TConsumer (Some TProducer)) eq_refl) as Sc1.
  clear Hst.
  destruct c as [[q] run [pid pn pd ppc] [cid cn cd cpc] mpc].
  cbv [finished hung consumer_parked producer_parked producer_done
       consumer_done pending size MAX_SIZE empty
       shared_buffer running producer consumer main_pc
       p_pc c_pc data_] in *.
  destruct mpc, ppc as [| |[|]| |], cpc as [| | |[|]| |];
    try (exfalso; intuition congruence; fail).
  all: try (left; reflexivity).
  all: try (refuted Sm); try (refuted Sp0); try (refuted Sp1);
    try (refuted Sc0); try (refuted Sc1).
  all: repeat match goal with
       | E : true = true -> _ |- _ => specialize (E eq_refl)
       end.
  - subst q. discriminate W2.
  - destruct L7 as [_ L7]. lia.
  - subst q. assert (run = false) as -> by (apply L3; auto).
    right. split; reflexivity.
Qed.

Lemma exec_keeps (P : config -> Prop) :
  (forall a c c', P c -> fire a c = Some c' -> P c') ->
  forall sched c c', P c -> exec sched c = Some c' -> P c'.
Proof.
  intros Hstep. induction sched as [|a sched IH]; intros c c' HP H; cbn in H.
  - injection H as <-. exact HP.
  - destruct (fire a c) as [c1|] eqn:Hf; [|discriminate]. eauto.
Qed.

Lemma reachable_invariants (c : config) :
  reachable c ->
  lifecycle c /\ in_order c /\ no_lost_wakeup c.
Proof.
  intros [sched Hex].
  apply (exec_keeps (fun c => lifecycle c /\ in_order c /\ no_lost_wakeup c))
    with (sched := sched) (c := init); [| |exact Hex].
  - intros a c0 c1 (Hl & Ho & Hw) Hf.
    assert (Hcap : size (shared_buffer c0) <= MAX_SIZE)
      by (destruct Ho as (f & l & H); apply H).
    split; [eapply fire_lifecycle; eassumption|].
    split; [eapply fire_in_order; eassumption|].
    eapply fire_no_lost_wakeup; eassumption.
  - split; [|split].
    + constructor; cbn; intuition (try discriminate; try congruence; try lia).
    + exists 0, 0. cbn. unfold MAX_SIZE. repeat split; try lia; discriminate.
    + split; discriminate.
Qed.

(** X8: in the single producer/consumer demo the messages are delivered in
    order, each exactly once: at every point of every execution, if the
    consumer has counted [first] messages, then the message it is
    processing (if any) is message number [first], the queue holds the
    next messages in increasing order without gaps, and the producer has
    built exactly those (plus the one it is pushing, if any); and the
    queue never holds more than [MAX_SIZE] messages. *)
Theorem single_demo_delivers_in_order (c : config) :
  reachable c ->
  exists first len : nat,
    data_ (shared_buffer c) = messages (first + processing c) len
    /\ c_count (consumer c) = Z.of_nat first
    /\ p_count (producer c) = Z.of_nat (first + processing c + len + pending c)
    /\ (pending c = 1 ->
        p_data (producer c) = message 1 (p_count (producer c) - 1))
    /\ (processing c = 1 ->
        c_data (consumer c) = message 1 (c_count (consumer c)))
    /\ size (shared_buffer c) <= MAX_SIZE.
Proof.
  intros Hreach.
  destruct (reachable_invariants c Hreach)
    as (_ & (first & len & H1 & H2 & H3 & _ & H4 & H5 & H6) & _).
  exists first, len. repeat split; assumption.
Qed.

Lemma single_demo_delivers_in_order_witness :
  exists first len : nat,
    data_ (shared_buffer stranded) = messages (first + processing stranded) len
    /\ c_count (consumer stranded) = Z.of_nat first
    /\ p_count (producer stranded) =
         Z.of_nat (first + processing stranded + len + pending stranded)
    /\ (pending stranded = 1 ->
        p_data (producer stranded) =
          message 1 (p_count (producer stranded) - 1))
    /\ (processing stranded = 1 ->
        c_data (consumer stranded) = message 1 (c_count (consumer stranded)))
    /\ size (shared_buffer stranded) <= MAX_SIZE.
Proof.
  apply (single_demo_delivers_in_order stranded).
  exists stranded_schedule. vm_compute. reflexivity.
Defined.

(** X9: in the single producer/consumer demo one condition variable loses
    no wake-up: whenever the consumer is parked in [pop] the queue is
    empty, whenever the producer is parked in [push] the queue holds
    [MAX_SIZE] items, and the two are never parked at the same time. *)
Theorem single_demo_loses_no_wakeup (c : config) :
  reachable c ->
  (consumer_parked c = true -> data_ (shared_buffer c) = [])
  /\ (producer_parked c = true -> size (shared_buffer c) = MAX_SIZE)
  /\ producer_parked c && consumer_parked c = false.
Proof.
  intros Hreach.
  destruct (reachable_invariants c Hreach) as (_ & _ & [W1 W2]).
  split; [exact W1|]. split; [exact W2|].
  destruct (producer_parked c) eqn:Hp, (consumer_parked c) eqn:Hc;
    try reflexivity.
  specialize (W1 eq_refl). specialize (W2 eq_refl).
  unfold size in W2. rewrite W1 in W2. discriminate.
Qed.

Lemma single_demo_loses_no_wakeup_witness :
  (consumer_parked waiting = true -> data_ (shared_buffer waiting) = [])
  /\ (producer_parked waiting = true ->
      size (shared_buffer waiting) = MAX_SIZE)
  /\ producer_parked waiting && consumer_parked waiting = false.
Proof.
  apply (single_demo_loses_no_wakeup waiting).
  exists waiting_schedule. vm_compute. reflexivity.
Defined.

(** X10: the single producer/consumer demo can hang.  Some execution
    reaches a configuration in which [running] is false, the producer has
    returned, the queue is empty and the consumer is inside [pop]; and
    from any such configuration, whatever happens next (spurious wake-ups
    included), the configuration stays of that kind: the consumer never
    returns and [main] never gets past [consumer_thread.join()]. *)
Theorem single_demo_can_hang :
  (exists sched c, exec sched init = Some c /\ hung c = true)
  /\ (forall c sched c',
        hung c = true -> exec sched c = Some c' ->
        hung c' = true /\ finished c' = false /\ consumer_done c' = false).
Proof.
  split.
  - exists waiting_schedule, waiting. split; reflexivity.
  - intros c sched. revert c.
    induction sched as [|a sched IH]; intros c c' Hh H; cbn in H.
    + injection H as <-. split; [exact Hh|].
      destruct c as [[q] run [pid pn pd ppc] [cid cn cd cpc] mpc].
      destruct run, ppc as [| |[|]| |], q, cpc as [| | |[|]| |], mpc;
        try discriminate Hh; split; reflexivity.
    + destruct (fire a c) as [c1|] eqn:Hf; [|discriminate].
      apply (IH c1); [|exact H]. eapply fire_hung; eassumption.
Qed.

Lemma single_demo_can_hang_witness :
  hung waiting = true /\ finished waiting = false
  /\ consumer_done waiting = false.
Proof.
  apply (proj2 single_demo_can_hang waiting
           [Spurious TConsumer; Run TConsumer None; Spurious TConsumer;
            Run TConsumer None] waiting); reflexivity.
Defined.

(** X11: in the single producer/consumer demo there is one way only to get
    stuck: a configuration of an execution in which no thread can act
    (other than by a spurious wake-up) is either the end of [main], or the
    hang of X10 with the consumer parked in [pop] on the empty queue. *)
Theorem single_demo_stuck_only_when_hung (c : config) :
  reachable c -> stuck c ->
  finished c = true \/ (hung c = true /\ consumer_parked c = true).
Proof.
  intros Hreach Hst.
  destruct (reachable_invariants c Hreach) as (Hl & Ho & Hw).
  apply stuck_cases; auto.
  destruct Ho as (first & len & H). apply H.
Qed.

Lemma single_demo_stuck_only_when_hung_witness :
  finished waiting = true
  \/ (hung waiting = true /\ consumer_parked waiting = true).
Proof.
  apply (single_demo_stuck_only_when_hung waiting).
  - exists waiting_schedule. vm_compute. reflexivity.
  - intros a Ha.
    destruct a as [[| |] [[| |]|]|[| |]]; try discriminate Ha; reflexivity.
Defined.

(** X12: when the single producer/consumer demo does end, both threads
    have returned, the size [main] prints is 0 or 1, and the producer's
    count is the consumer's count plus that size: at most one message,
    the last one built, is left in the queue unconsumed.  One message
    left is possible. *)
Theorem single_demo_final_count (c : config) :
  reachable c -> finished c = true ->
  producer_done c = true /\ consumer_done c = true
  /\ size (shared_buffer c) <= 1
  /\ p_count (producer c) =
       (c_count (consumer c) + Z.of_nat (size (shared_buffer c)))%Z
  /\ (exists sched c',
        exec sched init = Some c' /\ finished c' = true
        /\ size (shared_buffer c') = 1).
Proof.
  intros Hreach Hfin.
  destruct (reachable_invariants c Hreach)
    as ([_ _ _ L4 L5 _ L7] & (first & len & Hd & Hc & Hp & _) & _).
  assert (Hm : main_pc c = MDone)
    by (unfold finished in Hfin; destruct (main_pc c); congruence).
  pose proof (L4 (or_intror Hm)) as Hpd. pose proof (L5 Hm) as Hcd.
  destruct (L7 Hcd) as [_ Hsz].
  assert (Hpend : pending c = 0).
  { unfold producer_done in Hpd. unfold pending.
    destruct (p_pc (producer c)); try discriminate. reflexivity. }
  assert (Hproc : processing c = 0).
  { unfold consumer_done in Hcd. unfold processing.
    destruct (c_pc (consumer c)); try discriminate. reflexivity. }
  split; [exact Hpd|]. split; [exact Hcd|]. split; [lia|]. split.
  - rewrite Hp, Hc. unfold size. rewrite Hd, length_messages. lia.
  - exists stranded_schedule, stranded. repeat split.
Qed.

Lemma single_demo_final_count_witness :
  producer_done stranded = true /\ consumer_done stranded = true
  /\ size (shared_buffer stranded) <= 1
  /\ p_count (producer stranded) =
       (c_count (consumer stranded)
        + Z.of_nat (size (shared_buffer stranded)))%Z
  /\ (exists sched c',
        exec sched init = Some c' /\ finished c' = true
        /\ size (shared_buffer c') = 1).
Proof.
  apply (single_demo_final_count stranded).
  - exists stranded_schedule. vm_compute. reflexivity.
  - reflexivity.
Defined.

End SingleDemoProofs.

(** * The multi producer/consumer demo: each producer's messages stay in order *)

Section DemoOrderProofs.

Import Multi Demo DemoLedger DemoOrder.

Lemma numbers_of_app (id : Z) (l1 l2 : list (Z * nat)) :
  numbers_of id (l1 ++ l2) = numbers_of id l1 ++ numbers_of id l2.
Proof.
  induction l1 as [|[i n] l1 IH]; simpl; [reflexivity|].
  destruct (i =? id)%Z; simpl; rewrite IH; reflexivity.
Qed.

Lemma numbers_of_none (id : Z) (l : list (Z * nat)) :
  Forall (fun x => fst x <> id) l -> numbers_of id l = [].
Proof.
  induction 1 as [|[i n] l Hx _ IH]; simpl; [reflexivity|].
  simpl in Hx. apply Z.eqb_neq in Hx. rewrite Hx. exact IH.
Qed.

Lemma produce_step_order (run : bool) (b b' : Buffer) (p p' : Producer)
  (sig : list (notification cond)) :
  produce_step run b p = Some (p', b', sig) ->
  p_id p' = p_id p
  /\ shutdown_ b' = shutdown_ b
  /\ ((b' = b /\ p_count p' = p_count p /\ pending p' = pending p
       /\ p_data p' = p_data p)
      \/ (b' = b /\ pending p = 0%Z /\ pending p' = 1%Z
          /\ p_count p' = (p_count p + 1)%Z
          /\ p_data p' = multi_message (p_id p) (p_count p))
      \/ (b' = b /\ shutdown_ b = true /\ pending p = 1%Z /\ pending p' = 0%Z
          /\ p_count p' = p_count p)
      \/ (shutdown_ b = false /\ data_ b' = data_ b ++ [p_data p]
          /\ pending p = 1%Z /\ pending p' = 0%Z /\ p_count p' = p_count p)).
Proof.
  unfold produce_step, pending.
  destruct (p_pc p) as [|[|cv0]| |] eqn:Hpc; try discriminate.
  - destruct run; intros H; injection H as <- <- _; simpl;
      (split; [reflexivity|]); (split; [reflexivity|]).
    + right. left. auto.
    + left. auto.
  - unfold push. destruct (shutdown_ b) eqn:Hs.
    + rewrite orb_true_r. intros H. injection H as <- <- _. simpl.
      split; [reflexivity|]. split; [exact Hs|]. do 2 right. left. auto.
    + rewrite orb_false_r. destruct (size b <? MAX_SIZE); intros H;
        injection H as <- <- _; simpl;
        (split; [reflexivity|]); (split; [auto|]).
      * do 3 right. auto.
      * left. auto.
  - intros H; injection H as <- <- _. simpl.
    split; [reflexivity|]. split; [reflexivity|]. left. auto.
Qed.

Lemma consume_step_buffer (run : bool) (b b' : Buffer) (k k' : Consumer)
  (sig : list (notification cond)) :
  consume_step run b k = Some (k', b', sig) ->
  shutdown_ b' = shutdown_ b
  /\ (b' = b \/ exists x, data_ b = x :: data_ b').
Proof.
  intros Hstep.
  destruct (consume_step_facts _ _ _ _ _ _ Hstep) as (_ & Hs & _).
  split; [exact Hs|]. revert Hstep. unfold consume_step, consume_pop.
  rewrite pop_cases.
  destruct (c_pc k) as [|[|cv0]| |[|cv0]| | |]; try discriminate;
    try (intros H; injection H as _ <- _; auto; fail).
  - destruct (data_ b) as [|x q] eqn:Hd; [destruct (shutdown_ b)|];
      intros H; injection H as _ <- _; simpl; eauto.
  - destruct (data_ b) as [|x q] eqn:Hd; [destruct (shutdown_ b)|];
      intros H; injection H as _ <- _; simpl; eauto.
  - destruct (negb (str_empty (c_data k)));
      intros H; injection H as _ <- _; auto.
Qed.

(** Nothing that only wakes threads, or leaves the queue, the producers
    and the flag alone, disturbs the order. *)
Lemma queue_in_order_wakes (c c' : config) :
  wakes c c' -> queue_in_order c -> queue_in_order c'.
Proof.
  intros (Hb & _ & _ & Hp & _) (l & Hd & Hids & Hall).
  exists l. rewrite Hb. split; [exact Hd|].
  rewrite <- (Forall2_length _ _ _ Hp). split; [exact Hids|].
  intros i p' Hl.
  destruct (Forall2_lookup_r _ _ _ _ _ Hp Hl) as (p & Hlp & Hw).
  specialize (Hall i p Hlp).
  destruct Hw as [->|(cv & Hpc & ->)]; [exact Hall|].
  unfold producer_in_order, pending in *. rewrite Hpc in Hall. exact Hall.
Qed.

Lemma queue_in_order_produce (c : config) (i : nat) (p p' : Producer)
  (b' : Buffer) (sig : list (notification cond)) :
  queue_in_order c ->
  producers c !! i = Some p ->
  produce_step (running c) (shared_buffer c) p = Some (p', b', sig) ->
  queue_in_order (set_producers (<[i:=p']> (producers c)) (set_buffer b' c)).
Proof.
  intros (l & Hd & Hids & Hall) Hl Hstep.
  destruct (produce_step_order _ _ _ _ _ _ Hstep) as (Hid & Hs & Hcase).
  pose proof (Hall i p Hl) as (Hpi & Hpd & a & len & Hn & Hle & Heq).
  assert (Hother : forall j pj, j <> i -> producers c !! j = Some pj ->
            p_id pj <> p_id p).
  { intros j pj Hne Hlj. destruct (Hall j pj Hlj) as (Hpj & _).
    rewrite Hpj, Hpi. lia. }
  unfold queue_in_order. simpl. rewrite length_insert.
  destruct Hcase as [(-> & Hc & Hp & Hdt)|[(-> & Hp0 & Hp1 & Hc & Hdt)|
                     [(-> & Hsd & Hp1 & Hp0 & Hc)|(Hsd & Hdb & Hp1 & Hp0 & Hc)]]].
  - (* nothing built, pushed or dropped *)
    exists l. split; [exact Hd|]. split; [exact Hids|].
    intros j pj Hlj. destruct (decide (i = j)) as [<-|Hne].
    + rewrite list_lookup_insert_eq in Hlj by (eapply lookup_lt_Some; eauto).
      injection Hlj as <-. unfold producer_in_order.
      rewrite Hid, Hc, Hp, Hdt. eauto 10.
    + rewrite list_lookup_insert_ne in Hlj by exact Hne. auto.
  - (* a message built *)
    exists l. split; [exact Hd|]. split; [exact Hids|].
    intros j pj Hlj. destruct (decide (i = j)) as [<-|Hne].
    + rewrite list_lookup_insert_eq in Hlj by (eapply lookup_lt_Some; eauto).
      injection Hlj as <-. unfold producer_in_order.
      rewrite Hid, Hc, Hp1, Hdt. split; [exact Hpi|]. split.
      * intros _. f_equal. lia.
      * exists a, len. split; [exact Hn|]. split; [lia|].
        intros Ho. specialize (Heq Ho). lia.
    + rewrite list_lookup_insert_ne in Hlj by exact Hne. auto.
  - (* a message dropped *)
    exists l. split; [exact Hd|]. split; [exact Hids|].
    intros j pj Hlj. destruct (decide (i = j)) as [<-|Hne].
    + rewrite list_lookup_insert_eq in Hlj by (eapply lookup_lt_Some; eauto).
      injection Hlj as <-. unfold producer_in_order.
      rewrite Hid, Hc, Hp0, Hsd. split; [exact Hpi|].
      split; [discriminate|].
      exists a, len. split; [exact Hn|]. split; [lia|discriminate].
    + rewrite list_lookup_insert_ne in Hlj by exact Hne. auto.
  - (* a message pushed *)
    rewrite Hsd in *. simpl in Heq. specialize (Heq eq_refl).
    specialize (Hpd Hp1).
    assert (Hnum : (p_count p - 1 = Z.of_nat (a + len))%Z) by lia.
    exists (l ++ [(p_id p, a + len)]). rewrite Hdb, Hs. simpl.
    split; [|split].
    + rewrite map_app, <- Hd. simpl. unfold tag_message. simpl.
      rewrite Hpd, Hnum. reflexivity.
    + apply Forall_app. split; [exact Hids|]. constructor; [|constructor].
      simpl. apply lookup_lt_Some in Hl. lia.
    + intros j pj Hlj. destruct (decide (i = j)) as [<-|Hne].
      * rewrite list_lookup_insert_eq in Hlj by (eapply lookup_lt_Some; eauto).
        injection Hlj as <-. unfold producer_in_order.
        rewrite Hid, Hc, Hp0. split; [exact Hpi|]. split; [discriminate|].
        exists a, (S len). rewrite numbers_of_app, Hn, seq_S. simpl.
        rewrite Z.eqb_refl. split; [reflexivity|]. split; [lia|].
        intros _. lia.
      * rewrite list_lookup_insert_ne in Hlj by exact Hne.
        destruct (Hall j pj Hlj) as (Hpj & Hpdj & aj & lenj & Hnj & Hlej & Heqj).
        split; [exact Hpj|]. split; [exact Hpdj|].
        exists aj, lenj. rewrite numbers_of_app, Hnj. simpl.
        assert (Hneq : (p_id p =? p_id pj)%Z = false).
        { apply Z.eqb_neq. intros He. apply (Hother j pj); auto. }
        rewrite Hneq, app_nil_r. auto.
Qed.

Lemma queue_in_order_consume (c : config) (j : nat) (k k' : Consumer)
  (b' : Buffer) (sig : list (notification cond)) :
  queue_in_order c ->
  consume_step (running c) (shared_buffer c) k = Some (k', b', sig) ->
  queue_in_order (set_consumers (<[j:=k']> (consumers c)) (set_buffer b' c)).
Proof.
  intros (l & Hd & Hids & Hall) Hstep.
  destruct (consume_step_buffer _ _ _ _ _ _ Hstep) as (Hs & [->|(x & Hx)]).
  - exists l. simpl. auto.
  - destruct l as [|[i0 n0] l']; [rewrite Hd in Hx; discriminate|].
    rewrite Hd in Hx. simpl in Hx. injection Hx as _ Hd'.
    exists l'. simpl. rewrite Hs. split; [symmetry; exact Hd'|].
    apply Forall_cons in Hids. destruct Hids as [_ Hids].
    split; [exact Hids|].
    intros i p Hl. destruct (Hall i p Hl) as (Hpi & Hpd & a & len & Hn & Hle & Heq).
    split; [exact Hpi|]. split; [exact Hpd|].
    simpl in Hn. destruct (i0 =? p_id p)%Z.
    + destruct len as [|len]; [discriminate|]. simpl in Hn.
      injection Hn as _ Hn. exists (S a), len.
      split; [exact Hn|]. split; [lia|]. intros Ho. specialize (Heq Ho). lia.
    + exists a, len. auto.
Qed.

Lemma queue_in_order_main (chosen : option tid) (c c' : config) :
  invariant c -> queue_in_order c ->
  main_step chosen c = Some c' -> queue_in_order c'.
Proof.
  intros [_ _ _ Hthr _] Hq Hm. unfold threads_ok in Hthr.
  unfold main_step in Hm.
  destruct (main_pc c) as [i|i| | | |[|s sig]|k|k|] eqn:Hpc;
    try discriminate.
  - destruct (i <=? NUM_PRODUCERS)%Z; injection Hm as <-; [|exact Hq].
    destruct Hq as (l & Hd & Hids & Hall). destruct Hthr as (Hi & Hlen & _).
    exists l. simpl. rewrite length_app. simpl. split; [exact Hd|]. split.
    + eapply Forall_impl; [exact Hids|]. simpl. intros x Hx. lia.
    + intros j p Hl. apply lookup_app_Some in Hl.
      destruct Hl as [Hl|[Hge Hl]]; [auto|].
      destruct (j - length (producers c)) as [|n] eqn:Hj; [|discriminate].
      simpl in Hl. injection Hl as <-.
      unfold producer_in_order, pending. simpl.
      split; [lia|]. split; [discriminate|].
      exists 0, 0. rewrite numbers_of_none; [simpl; repeat split; lia|].
      eapply Forall_impl; [exact Hids|]. simpl. intros x Hx. lia.
  - destruct (i <=? NUM_CONSUMERS)%Z; injection Hm as <-; exact Hq.
  - injection Hm as <-. exact Hq.
  - injection Hm as <-. exact Hq.
  - injection Hm as <-. destruct Hq as (l & Hd & Hids & Hall).
    exists l. simpl. split; [exact Hd|]. split; [exact Hids|].
    intros j p Hl.
    destruct (Hall j p Hl) as (Hpi & Hpd & a & len & Hn & Hle & _).
    split; [exact Hpi|]. split; [exact Hpd|].
    exists a, len. split; [exact Hn|]. split; [exact Hle|discriminate].
  - injection Hm as <-. exact Hq.
  - destruct (deliver chosen s c) as [c1|] eqn:Hdl; [|discriminate].
    injection Hm as <-.
    apply (queue_in_order_wakes c c1 (deliver_wakes _ _ _ _ Hdl)) in Hq.
    exact Hq.
  - destruct (producers c !! k) as [p|];
      [destruct (producer_done p); [|discriminate]|];
      injection Hm as <-; exact Hq.
  - destruct (consumers c !! k) as [x|];
      [destruct (consumer_done x); [|discriminate]|];
      injection Hm as <-; exact Hq.
Qed.

Lemma reachable_queue_in_order (c : config) :
  reachable c -> queue_in_order c.
Proof.
  intros [sched Hex].
  apply (exec_preserves queue_in_order) with (sched := sched) (c := init);
    [|apply invariant_init| |exact Hex].
  - apply fire_preserves.
    + apply queue_in_order_wakes.
    + intros c0 i p p' b' sig _. apply queue_in_order_produce.
    + intros c0 j k k' b' sig _ Hq _. apply queue_in_order_consume. exact Hq.
    + intros c0 chosen c1. apply queue_in_order_main.
  - exists []. simpl. split; [reflexivity|]. split; [constructor|].
    intros i p Hl. discriminate.
Qed.

(** X13: in the multi producer/consumer demo every message in the queue is
    ["P<id>_Msg_<n>"] of one of the producers, and for each producer the
    numbers of its messages in the queue, read from the front, are
    consecutive and increasing: the queue never reorders, repeats or skips
    the messages of one producer.  As long as the flag is false the last
    of them is the last message that producer pushed. *)
Theorem multi_demo_queue_keeps_producer_order (c : config) :
  reachable c ->
  exists l : list (Z * nat),
    data_ (shared_buffer c) = map tag_message l
    /\ Forall (fun x => (1 <= fst x <= Z.of_nat (length (producers c)))%Z) l
    /\ forall i p, producers c !! i = Some p ->
         p_id p = Z.of_nat (S i)
         /\ exists a len : nat,
              numbers_of (p_id p) l = seq a len
              /\ (Z.of_nat (a + len) + pending p <= p_count p)%Z
              /\ (shutdown_ (shared_buffer c) = false ->
                  (Z.of_nat (a + len) + pending p = p_count p)%Z).
Proof.
  intros Hreach.
  destruct (reachable_queue_in_order c Hreach) as (l & Hd & Hids & Hall).
  exists l. split; [exact Hd|]. split; [exact Hids|].
  intros i p Hl. destruct (Hall i p Hl) as (Hpi & _ & a & len & Hn & Hle & Heq).
  split; [exact Hpi|]. exists a, len. split; [exact Hn|]. split; [exact Hle|].
  intros Hs. apply Heq. rewrite Hs. reflexivity.
Qed.

Lemma multi_demo_queue_keeps_producer_order_witness :
  exists l : list (Z * nat),
    data_ (shared_buffer full_queue_stop) = map tag_message l
    /\ Forall (fun x =>
          (1 <= fst x <= Z.of_nat (length (producers full_queue_stop)))%Z) l
    /\ forall i p, producers full_queue_stop !! i = Some p ->
         p_id p = Z.of_nat (S i)
         /\ exists a len : nat,
              numbers_of (p_id p) l = seq a len
              /\ (Z.of_nat (a + len) + pending p <= p_count p)%Z
              /\ (shutdown_ (shared_buffer full_queue_stop) = false ->
                  (Z.of_nat (a + len) + pending p = p_count p)%Z).
Proof.
  apply (multi_demo_queue_keeps_producer_order full_queue_stop).
  exists full_queue_schedule. vm_compute. reflexivity.
Defined.

End DemoOrderProofs.
